(** * ecr-terraform-mirror: the chained mirror Lambda and the full-sync Lambda

    A shallow embedding of the two Go programs of the repository:

    - the chained handler (main.go: [handler], [parseJobEvent],
      [loadRepoList], [normalizeRepoList], [loadReposFromSSM],
      [mirrorSingleRepo], [invokeSelfAsync]), in [Module Chain];
    - the full-sync handler (cmd/fullsync/main.go: [ensureECRRepo],
      [ecrPassword], [ecrTagDigest], [copyImage], [handler]), in
      [Module FullSync].

    Go code that returns [error] is embedded in a state-and-error monad over
    an explicit [World]: the process environment, the AWS services (SSM, ECR,
    Lambda, STS) and the source registry.  Every call to a service and every
    log line is recorded, in order, as an [Event]. *)

From Stdlib Require Import String Ascii List ZArith Bool Arith Lia.
From Stdlib Require Import DecimalString DecimalZ.
Import ListNotations.
Open Scope list_scope.
Open Scope string_scope.

Set Implicit Arguments.

(* ------------------------------------------------------------------ *)
(** ** Go strings (package strings), on byte strings *)

Module strings.

(** [strings.HasPrefix(s, prefix)] *)
Definition HasPrefix (s p : string) : bool := String.prefix p s.

(** [strings.TrimPrefix(s, prefix)]: [s] without the leading [prefix],
    or [s] itself when it does not start with it. *)
Definition TrimPrefix (s p : string) : string :=
  if String.prefix p s
  then String.substring (String.length p) (String.length s - String.length p) s
  else s.

(** [strings.HasSuffix(s, suffix)] *)
Definition HasSuffix (s suf : string) : bool :=
  (String.length suf <=? String.length s)%nat &&
  String.eqb (String.substring (String.length s - String.length suf)
                               (String.length suf) s) suf.

(** [strings.TrimSuffix(s, suffix)] *)
Definition TrimSuffix (s suf : string) : string :=
  if HasSuffix s suf
  then String.substring 0 (String.length s - String.length suf) s
  else s.

Fixpoint trimLeftByte (c : ascii) (s : string) : string :=
  match s with
  | String a r => if Ascii.eqb a c then trimLeftByte c r else s
  | EmptyString => EmptyString
  end.

Fixpoint trimRightByte (c : ascii) (s : string) : string :=
  match s with
  | String a r =>
      match trimRightByte c r with
      | EmptyString => if Ascii.eqb a c then EmptyString else String a EmptyString
      | r' => String a r'
      end
  | EmptyString => EmptyString
  end.

(** [strings.Trim(s, cutset)] for a cutset of one ASCII byte [c]
    (the program only calls [strings.Trim(_, " ")]). *)
Definition Trim1 (s : string) (c : ascii) : string :=
  trimRightByte c (trimLeftByte c s).

(** [strings.Split(s, sep)] for a separator of one byte: the pieces
    between the separators, [Count(s, sep) + 1] of them. *)
Fixpoint Split1 (s : string) (sep : ascii) : list string :=
  match s with
  | EmptyString => [EmptyString]
  | String a r =>
      if Ascii.eqb a sep then EmptyString :: Split1 r sep
      else match Split1 r sep with
           | p :: ps => String a p :: ps
           | [] => [String a EmptyString]
           end
  end.

(** [strings.SplitN(s, sep, 2)] for a separator of one byte: at most two
    pieces, cut at the first separator. *)
Fixpoint SplitN2 (s : string) (sep : ascii) : list string :=
  match s with
  | EmptyString => [EmptyString]
  | String a r =>
      if Ascii.eqb a sep then [EmptyString; r]
      else match SplitN2 r sep with
           | p :: ps => String a p :: ps
           | [] => [String a EmptyString]
           end
  end.

(** [strings.Contains(s, substr)] *)
Definition Contains (s sub : string) : bool :=
  match String.index 0 sub s with
  | Some _ => true
  | None => match sub with EmptyString => true | _ => false end
  end.

End strings.

(* ------------------------------------------------------------------ *)
(** ** Go errors *)

(** An [error] value: its [Error()] text and the dynamic types met along its
    [Unwrap] chain, which is what [errors.As] inspects. *)
Record error : Type := mkError {
  Error : string;
  chain : list string
}.

(** [errors.New(text)], and [fmt.Errorf] without a [%w] operand *)
Definition errors_New (text : string) : error := mkError text [].

(** [fmt.Errorf("<prefix>: %w", err)]: the text is prefixed, the wrapped
    error stays reachable through [Unwrap]. *)
Definition Errorf_w (prefix : string) (err : error) : error :=
  mkError (prefix ++ ": " ++ Error err) (chain err).

(** [errors.As(err, &target)] for a target of dynamic type [ty] *)
Definition errors_As (err : error) (ty : string) : bool :=
  existsb (String.eqb ty) (chain err).

(** An error of the AWS SDK carrying the service's exception type. *)
Definition apiError (ty msg : string) : error :=
  mkError (ty ++ ": " ++ msg) [ty].

Inductive result (A : Type) : Type :=
| Ok (a : A)
| Err (e : error).
Arguments Ok {A} a.
Arguments Err {A} e.

Definition isOk {A} (r : result A) : bool :=
  match r with Ok _ => true | Err _ => false end.

Definition errOf {A} (r : result A) : option error :=
  match r with Ok _ => None | Err e => Some e end.

(* ------------------------------------------------------------------ *)
(** ** Data of the program and of the libraries it calls *)

(** [JobEvent] is the payload passed when chaining (main.go). Go's [int]
    is modelled by [Z]; the only arithmetic on it is [evt.Index + 1] below
    [len(repos)], which cannot overflow. *)
Record JobEvent : Type := mkJobEvent {
  Index : Z;
  Repo : string
}.

(** go-containerregistry, package name *)
Record Repository : Type := mkRepository {
  RegistryStr : string;
  RepositoryStr : string
}.

Record Reference : Type := mkReference {
  RefContext : Repository;
  Identifier : string
}.

(** go-containerregistry, package v1 and remote *)
Record Hash : Type := mkHash {
  Algorithm : string;
  Hex : string
}.

(** [v1.Hash.String()] *)
Definition Hash_String (h : Hash) : string := Algorithm h ++ ":" ++ Hex h.

Record Descriptor : Type := mkDescriptor {
  Digest : Hash;
  MediaType : string
}.

(** [types.MediaType.IsIndex()] *)
Definition IsIndex (mt : string) : bool :=
  String.eqb mt "application/vnd.oci.image.index.v1+json" ||
  String.eqb mt "application/vnd.docker.distribution.manifest.list.v2+json".

(** AWS SDK outputs, with the fields the programs read; a Go pointer that
    may be nil is an [option]. *)
Record AuthData : Type := mkAuthData {
  AuthorizationToken : option string;
  ProxyEndpoint : option string
}.

Record GetAuthorizationTokenOutput : Type := mkGetAuthorizationTokenOutput {
  AuthorizationData : list AuthData
}.

Record ImageIdentifier : Type := mkImageIdentifier {
  ImageDigest : option string;
  ImageTag : option string
}.

Record Image : Type := mkImage {
  ImageId : option ImageIdentifier
}.

Record BatchGetImageOutput : Type := mkBatchGetImageOutput {
  Images : list Image
}.

Record ImageDetail : Type := mkImageDetail {
  DetailDigest : option string
}.

Record DescribeImagesOutput : Type := mkDescribeImagesOutput {
  ImageDetails : list ImageDetail
}.

Record SsmParameter : Type := mkSsmParameter {
  Value : option string
}.

Record GetParameterOutput : Type := mkGetParameterOutput {
  Param : option SsmParameter
}.

Record GetCallerIdentityOutput : Type := mkGetCallerIdentityOutput {
  Account : option string
}.

(** The pure library functions the programs call and whose definition is
    not part of the repository: they are kept abstract, and every theorem
    holds for any implementation of them. *)
Record GoLib : Type := mkGoLib {
  (** [strings.TrimSpace], [strings.EqualFold] (Unicode aware) *)
  TrimSpace : string -> string;
  EqualFold : string -> string -> bool;
  (** [strconv.Atoi]; the [%d] and [%q] verbs of package fmt *)
  Atoi : string -> result Z;
  Itoa : Z -> string;
  Quote : string -> string;
  (** [json.Unmarshal] into a [JobEvent] and into a [[]string];
      [json.Marshal] of a [JobEvent] *)
  json_Unmarshal_JobEvent : string -> result JobEvent;
  json_Unmarshal_strings : string -> result (list string);
  json_Marshal_JobEvent : JobEvent -> result string;
  (** [base64.StdEncoding.DecodeString], [path.Join] of two elements *)
  base64_DecodeString : string -> result string;
  path_Join : string -> string -> string;
  (** [name.NewRepository], [name.ParseReference] *)
  name_NewRepository : string -> result Repository;
  name_ParseReference : string -> result Reference
}.

(* ------------------------------------------------------------------ *)
(** ** The world outside the process *)

(** [authn.Basic], and the [staticKeychain] of cmd/fullsync/main.go: the
    authenticator of each registry host. *)
Record Basic : Type := mkBasic {
  Username : string;
  Password : string
}.

Definition Keychain : Type := list (string * Basic).

(** The calls that leave the process. *)
Inductive Call : Type :=
| CLoadDefaultConfig
| CGetParameter (name : string)
| CGetCallerIdentity
| CGetAuthorizationToken (registryIds : list string)
| CDescribeRepositories (repositoryName : string)
| CCreateRepository (repositoryName : string) (scanOnPush : bool)
| CBatchGetImage (repositoryName imageTag : string)
| CDescribeImages (repositoryName imageTag : string)
| CInvoke (functionName payload : string)
| CList (repo : Repository) (auth : Basic)
| CGet (ref : Reference) (auth : Basic)
| CImage (desc : Descriptor)
| CImageIndex (desc : Descriptor)
| CWrite (ref : Reference) (desc : Descriptor) (auth : Basic)
| CWriteIndex (ref : Reference) (desc : Descriptor) (auth : Basic)
| CCatalog (registry : string) (kc : Keychain)
| CListTags (repo : string) (kc : Keychain)
| CDigest (ref : string) (kc : Keychain)
| CCopy (src dst : string) (kc : Keychain).

(** The lines written with [log.Printf], one constructor per format string
    (the elapsed time some of them print is left out). *)
Inductive LogLine : Type :=
(* main.go *)
| LogEventParseFailed (err : error)
| LogNoRepositories
| LogProcessingExplicit (repo : string)
| LogDoneExplicit
| LogNothingToDo (index : Z) (count : nat)
| LogProcessingRepo (position : Z) (count : nat) (repo : string)
| LogQueuedNext (next : Z)
| LogCompletedAll (count : nat)
| LogRepoListJSONInvalid
| LogDryRun (repo : string)
| LogCreatedRepo (repo : string)
| LogNoTags (repo : string)
| LogSkipping (repo tag digest : string)
| LogCopyingIndex (src dst : string)
| LogCopyingImage (src dst : string)
| LogMirrored (repo : string) (tags : nat)
(* cmd/fullsync/main.go *)
| LogMissingEnv (key : string)
| LogFoundRepos (count : nat) (group : string)
| LogListTagsFailed (repo : string) (err : error)
| LogEnsureFailed (repo : string) (err : error)
| LogDigestSrcFailed (src : string) (err : error)
| LogCheckDstFailed (dst repo tag : string) (err : error)
| LogSkipSameDigest (src dst digest : string)
| LogCopy (src dst : string)
| LogCopyError (src dst : string) (err : error).

(** What an invocation did, in order: a call with its failure (if any), or
    a log line. *)
Inductive Event : Type :=
| EvCall (c : Call) (failure : option error)
| EvLog (l : LogLine).

(** What does not change while the program runs: the process environment,
    the content of the source registry, what the AWS services hold, and
    which calls fail. [fault n c] is the failure, if any, of the call [c]
    when it is the [n]-th call made to the outside: any call may fail at
    any time, with any error. *)
Record Deployment : Type := mkDeployment {
  environ : string -> string;
  aws_region : string;
  fault : nat -> Call -> option error;
  ssm_store : string -> GetParameterOutput;
  sts_identity : GetCallerIdentityOutput;
  ecr_authorization : list AuthData;
  src_catalog : list string;
  src_tags : Repository -> list string;
  src_manifest : Reference -> option Descriptor
}.

(** The destination registry: its repositories and, for the tags it holds,
    the digest recorded under (repository, tag), newest first. *)
Record EcrState : Type := mkEcrState {
  repositories : list string;
  images : list (string * string * string)
}.

Record World : Type := mkWorld {
  dep : Deployment;
  clock : nat;
  ecr : EcrState
}.

Definition hasRepository (s : EcrState) (repo : string) : bool :=
  existsb (String.eqb repo) (repositories s).

Fixpoint lookupImage (l : list (string * string * string)) (repo tag : string)
  : option string :=
  match l with
  | [] => None
  | (r, t, d) :: l' =>
      if String.eqb r repo && String.eqb t tag then Some d
      else lookupImage l' repo tag
  end.

Definition recordedDigest (s : EcrState) (repo tag : string) : option string :=
  lookupImage (images s) repo tag.

Definition addRepository (s : EcrState) (repo : string) : EcrState :=
  mkEcrState (repo :: repositories s) (images s).

Definition putImage (s : EcrState) (repo tag digest : string) : EcrState :=
  mkEcrState (repositories s) ((repo, tag, digest) :: images s).

(* ------------------------------------------------------------------ *)
(** ** The monad of the embedding: state, errors and a trace *)

Record Out (A : Type) : Type := mkOut {
  res : result A;
  after : World;
  events : list Event
}.

Definition M (A : Type) : Type := World -> Out A.

Definition ret {A} (a : A) : M A := fun w => mkOut (Ok a) w [].

(** [return err] *)
Definition fail {A} (e : error) : M A := fun w => mkOut (Err e) w [].

Definition bind {A B} (m : M A) (k : A -> M B) : M B :=
  fun w =>
    let o := m w in
    match res o with
    | Ok a => let o' := k a (after o) in
              mkOut (res o') (after o') (events o ++ events o')%list
    | Err e => mkOut (Err e) (after o) (events o)
    end.

Declare Scope go_scope.
Delimit Scope go_scope with go.
Notation "x <- m ;; k" := (bind m (fun x => k))
  (at level 100, m at next level, right associativity) : go_scope.
Notation "m ;; k" := (bind m (fun _ => k))
  (at level 100, right associativity) : go_scope.
Open Scope go_scope.

(** [x, err := f()] where the program inspects [err] itself instead of
    returning it. *)
Definition attempt {A} (m : M A) : M (result A) :=
  fun w => let o := m w in mkOut (Ok (res o)) (after o) (events o).

(** [if err != nil { return fmt.Errorf("<prefix>: %w", err) }] *)
Definition wrapping {A} (prefix : string) (m : M A) : M A :=
  fun w =>
    let o := m w in
    mkOut (match res o with
           | Ok a => Ok a
           | Err e => Err (Errorf_w prefix e)
           end) (after o) (events o).

(** [log.Printf] *)
Definition log (l : LogLine) : M unit := fun w => mkOut (Ok tt) w [EvLog l].

(** [os.Getenv]: the empty string when the variable is not set *)
Definition Getenv (key : string) : M string :=
  fun w => mkOut (Ok (environ (dep w) key)) w [].

(** A call to the outside: it advances the clock, fails when the deployment
    says this call fails now, and otherwise answers from the state of the
    world, which it may change. *)
Definition call {A} (c : Call) (answer : World -> result A * EcrState) : M A :=
  fun w =>
    match fault (dep w) (clock w) c with
    | Some e => mkOut (Err e) (mkWorld (dep w) (S (clock w)) (ecr w))
                      [EvCall c (Some e)]
    | None =>
        let (r, s) := answer w in
        mkOut r (mkWorld (dep w) (S (clock w)) s) [EvCall c (errOf r)]
    end.

(** A call that only reads. *)
Definition query {A} (c : Call) (answer : World -> result A) : M A :=
  call c (fun w => (answer w, ecr w)).

(** A value computed by a library function that may fail. *)
Definition lift {A} (r : result A) : M A :=
  fun w => mkOut r w [].

(** [for _, x := range xs { body }]: [continue] is the end of [body], an
    error returned inside [body] ends the loop. *)
Fixpoint forEach {A} (xs : list A) (body : A -> M unit) : M unit :=
  match xs with
  | [] => ret tt
  | x :: xs' => body x ;; forEach xs' body
  end.

Definition isEmpty (s : string) : bool := String.eqb s "".

(** [aws.ToString]: the empty string for a nil pointer *)
Definition aws_ToString (p : option string) : string :=
  match p with Some s => s | None => "" end.

(* ------------------------------------------------------------------ *)
(** ** The services, as the programs call them *)

Definition config_LoadDefaultConfig : M unit :=
  query CLoadDefaultConfig (fun _ => Ok tt).

Definition ssm_GetParameter (name : string) : M GetParameterOutput :=
  query (CGetParameter name) (fun w => Ok (ssm_store (dep w) name)).

Definition sts_GetCallerIdentity : M GetCallerIdentityOutput :=
  query CGetCallerIdentity (fun w => Ok (sts_identity (dep w))).

Definition ecr_GetAuthorizationToken (registryIds : list string)
  : M GetAuthorizationTokenOutput :=
  query (CGetAuthorizationToken registryIds)
        (fun w => Ok (mkGetAuthorizationTokenOutput (ecr_authorization (dep w)))).

Definition RepositoryNotFoundException : string := "RepositoryNotFoundException".
Definition RepositoryAlreadyExistsException : string :=
  "RepositoryAlreadyExistsException".
Definition ImageNotFoundException : string := "ImageNotFoundException".

Definition ecr_DescribeRepositories (repo : string) : M unit :=
  query (CDescribeRepositories repo)
        (fun w => if hasRepository (ecr w) repo then Ok tt
                  else Err (apiError RepositoryNotFoundException repo)).

Definition ecr_CreateRepository (repo : string) (scanOnPush : bool) : M unit :=
  call (CCreateRepository repo scanOnPush)
       (fun w => if hasRepository (ecr w) repo
                 then (Err (apiError RepositoryAlreadyExistsException repo), ecr w)
                 else (Ok tt, addRepository (ecr w) repo)).

(** [BatchGetImage] for one tag: the image recorded under the tag, or no
    image (and a failure entry, which the program does not read). *)
Definition ecr_BatchGetImage (repo tag : string) : M BatchGetImageOutput :=
  query (CBatchGetImage repo tag)
        (fun w =>
           if hasRepository (ecr w) repo then
             match recordedDigest (ecr w) repo tag with
             | Some d => Ok (mkBatchGetImageOutput
                               [mkImage (Some (mkImageIdentifier (Some d) (Some tag)))])
             | None => Ok (mkBatchGetImageOutput [])
             end
           else Err (apiError RepositoryNotFoundException repo)).

Definition ecr_DescribeImages (repo tag : string) : M DescribeImagesOutput :=
  query (CDescribeImages repo tag)
        (fun w =>
           if hasRepository (ecr w) repo then
             match recordedDigest (ecr w) repo tag with
             | Some d => Ok (mkDescribeImagesOutput [mkImageDetail (Some d)])
             | None => Err (apiError ImageNotFoundException tag)
             end
           else Err (apiError RepositoryNotFoundException repo)).

(** An asynchronous [Invoke] (InvocationType Event): accepted, not awaited. *)
Definition lambda_Invoke (fn payload : string) : M unit :=
  query (CInvoke fn payload) (fun _ => Ok tt).

Definition manifestUnknown : error := errors_New "MANIFEST_UNKNOWN".

Definition remote_List (repo : Repository) (auth : Basic) : M (list string) :=
  query (CList repo auth) (fun w => Ok (src_tags (dep w) repo)).

Definition remote_Get (ref : Reference) (auth : Basic) : M Descriptor :=
  query (CGet ref auth)
        (fun w => match src_manifest (dep w) ref with
                  | Some d => Ok d
                  | None => Err manifestUnknown
                  end).

(** [desc.Image()] and [desc.ImageIndex()]: the image or index behind a
    descriptor, identified here with the descriptor. *)
Definition Descriptor_Image (desc : Descriptor) : M Descriptor :=
  query (CImage desc) (fun _ => Ok desc).

Definition Descriptor_ImageIndex (desc : Descriptor) : M Descriptor :=
  query (CImageIndex desc) (fun _ => Ok desc).

(** A push records the digest of what is pushed under the repository and
    tag the reference names. *)
Definition pushed (s : EcrState) (ref : Reference) (desc : Descriptor) : EcrState :=
  putImage s (RepositoryStr (RefContext ref)) (Identifier ref)
           (Hash_String (Digest desc)).

Definition remote_Write (ref : Reference) (img : Descriptor) (auth : Basic) : M unit :=
  call (CWrite ref img auth) (fun w => (Ok tt, pushed (ecr w) ref img)).

Definition remote_WriteIndex (ref : Reference) (idx : Descriptor) (auth : Basic)
  : M unit :=
  call (CWriteIndex ref idx auth) (fun w => (Ok tt, pushed (ecr w) ref idx)).

(* ------------------------------------------------------------------ *)
(** ** main.go: the chained handler *)

Module Chain.
Section Program.

Variable L : GoLib.

(** [normalizeRepoList]: the entries trimmed, the blank ones dropped. *)
Definition normalizeRepoList (input : list string) : list string :=
  fold_left
    (fun out s =>
       let t := TrimSpace L s in
       if isEmpty t then out else (out ++ [t])%list)
    input [].

Definition parseJobEvent (raw : string) : M JobEvent :=
  if (String.length raw =? 0)%nat then
    (* No payload; allow START_INDEX env. *)
    e <- Getenv "START_INDEX" ;;
    let s := TrimSpace L e in
    let idx :=
      if isEmpty s then 0%Z
      else match Atoi L s with
           | Ok n => n
           | Err _ => 0%Z
           end in
    ret (mkJobEvent idx "")
  else
    match json_Unmarshal_JobEvent L raw with
    | Err err => fail err
    | Ok evt => ret evt
    end.

Definition loadReposFromSSM (paramName : string) : M (list string) :=
  config_LoadDefaultConfig ;;
  resp <- ssm_GetParameter paramName ;;
  match Param resp with
  | None => fail (errors_New "empty SSM parameter")
  | Some p =>
      match Value p with
      | None => fail (errors_New "empty SSM parameter")
      | Some v =>
          let val := TrimSpace L v in
          (* Try JSON first. *)
          match json_Unmarshal_strings L val with
          | Ok repos => ret (normalizeRepoList repos)
          | Err _ =>
              (* Else treat as CSV. *)
              ret (normalizeRepoList (strings.Split1 val ","))
          end
      end
  end.

(** The last resort of [loadRepoList]: three fixed repositories. *)
Definition fallbackRepoList : M (list string) :=
  g <- Getenv "GROUP_NAME" ;;
  let group := if isEmpty g then "chainguard" else g in
  r <- Getenv "SRC_REGISTRY" ;;
  let srcRegistry := if isEmpty r then "cgr.dev" else r in
  ret [ srcRegistry ++ "/" ++ group ++ "/foo";
        srcRegistry ++ "/" ++ group ++ "/bar";
        srcRegistry ++ "/" ++ group ++ "/baz" ].

Definition loadRepoList : M (list string) :=
  (* Next: SSM parameter (JSON array or CSV) *)
  let fromSSM : M (list string) :=
    e <- Getenv "REPO_LIST_SSM_PARAM" ;;
    let name := TrimSpace L e in
    if isEmpty name then fallbackRepoList
    else wrapping ("load from SSM " ++ Quote L name) (loadReposFromSSM name) in
  (* Next: CSV env *)
  let fromCSV : M (list string) :=
    e <- Getenv "REPO_LIST_CSV" ;;
    let s := TrimSpace L e in
    if isEmpty s then fromSSM
    else ret (normalizeRepoList (strings.Split1 s ",")) in
  (* Highest precedence: JSON env *)
  e <- Getenv "REPO_LIST_JSON" ;;
  let s := TrimSpace L e in
  if isEmpty s then fromCSV
  else match json_Unmarshal_strings L s with
       | Ok repos => ret (normalizeRepoList repos)
       | Err _ => log LogRepoListJSONInvalid ;; fromCSV
       end.

(** Lines 331-333: the answer of [BatchGetImage] names an image whose
    digest is the source digest. *)
Definition alreadyPresent (ebr : result BatchGetImageOutput) (srcDigest : string)
  : bool :=
  match ebr with
  | Err _ => false
  | Ok out =>
      match Images out with
      | [] => false
      | img :: _ =>
          match ImageId img with
          | None => false
          | Some id =>
              match ImageDigest id with
              | None => false
              | Some existing => String.eqb existing srcDigest
              end
          end
      end
  end.

(** Lines 339-358: the image or index is read from the source and written
    to the destination. *)
Definition mirrorSingleRepo_copy
    (src dst : string) (dstRef : Reference) (desc : Descriptor) (dstAuth : Basic)
  : M unit :=
  if IsIndex (MediaType desc) then
    idx <- wrapping ("read index " ++ src) (Descriptor_ImageIndex desc) ;;
    log (LogCopyingIndex src dst) ;;
    wrapping ("write index to " ++ dst) (remote_WriteIndex dstRef idx dstAuth)
  else
    img <- wrapping ("read image " ++ src) (Descriptor_Image desc) ;;
    log (LogCopyingImage src dst) ;;
    wrapping ("write image to " ++ dst) (remote_Write dstRef img dstAuth).

(** The body of the loop over the tags (step 5 of [mirrorSingleRepo]). *)
Definition mirrorSingleRepo_tag
    (srcRepo ecrEndpoint dstRepoName : string) (srcAuth dstAuth : Basic)
    (tag : string) : M unit :=
  let src := srcRepo ++ ":" ++ tag in
  let dst := ecrEndpoint ++ "/" ++ dstRepoName ++ ":" ++ tag in
  srcRef <- wrapping ("parse src ref " ++ src) (lift (name_ParseReference L src)) ;;
  dstRef <- wrapping ("parse dst ref " ++ dst) (lift (name_ParseReference L dst)) ;;
  (* Get source descriptor (to obtain source digest) *)
  desc <- wrapping ("get " ++ src) (remote_Get srcRef srcAuth) ;;
  let srcDigest := Hash_String (Digest desc) in
  (* Query ECR for current tag digest (if present) *)
  ebr <- attempt (ecr_BatchGetImage dstRepoName tag) ;;
  if alreadyPresent ebr srcDigest then
    log (LogSkipping srcRepo tag srcDigest)
  else
    (* Copy image/index since it's missing or digest differs *)
    mirrorSingleRepo_copy src dst dstRef desc dstAuth.

(** Step 3 of [mirrorSingleRepo], second half: the destination repository
    is described, and created when the answer is that it does not exist. *)
Definition mirrorSingleRepo_ensure (dstRepoName : string) : M unit :=
  r <- attempt (ecr_DescribeRepositories dstRepoName) ;;
  match r with
  | Ok _ => ret tt
  | Err err =>
      if errors_As err RepositoryNotFoundException then
        wrapping ("create ECR repo " ++ dstRepoName)
                 (ecr_CreateRepository dstRepoName true) ;;
        log (LogCreatedRepo dstRepoName)
      else
        fail (Errorf_w ("describe ECR repo " ++ dstRepoName) err)
  end.

(** Steps 4 and 5 of [mirrorSingleRepo]: the tags are chosen and mirrored
    one after the other. *)
Definition mirrorSingleRepo_tags
    (srcRepo ecrEndpoint dstRepoName : string) (srcAuth dstAuth : Basic)
  : M unit :=
  c <- Getenv "COPY_ALL_TAGS" ;;
  let copyAll := EqualFold L c "true" in
  let loop (tags : list string) : M unit :=
    forEach tags
      (mirrorSingleRepo_tag srcRepo ecrEndpoint dstRepoName srcAuth dstAuth) ;;
    log (LogMirrored srcRepo (List.length tags)) in
  if copyAll then
    repoRef <- wrapping "parse src repository" (lift (name_NewRepository L srcRepo)) ;;
    tags <- wrapping ("list tags for " ++ srcRepo) (remote_List repoRef srcAuth) ;;
    match tags with
    | [] => log (LogNoTags srcRepo)
    | _ => loop tags
    end
  else
    loop ["latest"] (* fast smoke test *).

(** Steps 1 and 2 of [mirrorSingleRepo]: the credentials of the source, and
    from the authorization token of ECR the credentials and the endpoint of
    the destination. *)
Definition mirrorSingleRepo_auth : M (Basic * Basic * string) :=
  (* 1) Source auth (cgr.dev) *)
  srcUser <- Getenv "CGR_USERNAME" ;;
  srcPass <- Getenv "CGR_PASSWORD" ;;
  if isEmpty srcUser || isEmpty srcPass then
    fail (errors_New "CGR_USERNAME/CGR_PASSWORD not set")
  else
    let srcAuth := mkBasic srcUser srcPass in
    (* 2) ECR auth + endpoint *)
    config_LoadDefaultConfig ;;
    ao <- wrapping "ecr:GetAuthorizationToken" (ecr_GetAuthorizationToken []) ;;
    match AuthorizationData ao with
    | [] => fail (errors_New "no ECR authorization data")
    | ad :: _ =>
        dec <- wrapping "decode ecr token"
                 (lift (base64_DecodeString L
                          (aws_ToString (AuthorizationToken ad)))) ;;
        match strings.SplitN2 dec ":" with
        | [_; ecrPass] =>
            let ecrEndpoint :=
              strings.TrimPrefix (aws_ToString (ProxyEndpoint ad)) "https://" in
            let dstAuth := mkBasic "AWS" ecrPass in
            ret (srcAuth, dstAuth, ecrEndpoint)
        | _ => fail (errors_New "unexpected ecr token format")
        end
    end.

(** Step 3 of [mirrorSingleRepo], first half: the name of the destination
    repository. *)
Definition mirrorSingleRepo_dest (srcRepo : string) : M string :=
  r <- Getenv "SRC_REGISTRY" ;;
  let srcRegistry := if isEmpty r then "cgr.dev" else r in
  let srcNoHost := strings.TrimPrefix srcRepo (srcRegistry ++ "/") in
  p <- Getenv "DST_PREFIX" ;;
  let dstPrefix := strings.Trim1 (strings.TrimPrefix p "/") " " in
  ret (if isEmpty dstPrefix then srcNoHost
       else path_Join L dstPrefix srcNoHost).

Definition mirrorSingleRepo (srcRepo : string) : M unit :=
  dry <- Getenv "MIRROR_DRY_RUN" ;;
  if EqualFold L dry "true" then
    log (LogDryRun srcRepo)
  else
    auth <- mirrorSingleRepo_auth ;;
    let '(srcAuth, dstAuth, ecrEndpoint) := auth in
    (* 3) Compute dest repo name; ensure it exists *)
    dstRepoName <- mirrorSingleRepo_dest srcRepo ;;
    mirrorSingleRepo_ensure dstRepoName ;;
    (* 4) Decide which tags to mirror; 5) for each tag ... *)
    mirrorSingleRepo_tags srcRepo ecrEndpoint dstRepoName srcAuth dstAuth.

Definition invokeSelfAsync (ev : JobEvent) : M unit :=
  config_LoadDefaultConfig ;;
  fn <- Getenv "AWS_LAMBDA_FUNCTION_NAME" ;;
  if isEmpty fn then
    fail (errors_New "AWS_LAMBDA_FUNCTION_NAME not set")
  else
    payload <- lift (json_Marshal_JobEvent L ev) ;;
    lambda_Invoke fn payload.

(** [handler], lines 47-51: the event of the invocation. *)
Definition handler_event (raw : string) : M JobEvent :=
  parsed <- attempt (parseJobEvent raw) ;;
  match parsed with
  | Ok evt => ret evt
  | Err err => log (LogEventParseFailed err) ;; ret (mkJobEvent 0 "")
  end.

(** [handler], lines 57-99: what is done with the event and the list. *)
Definition handler_run (evt : JobEvent) (repos : list string) : M unit :=
  let count := List.length repos in
  if (count =? 0)%nat then
    log LogNoRepositories
  else
    (* If a specific repo is provided, process exactly that and exit
       (no chaining). *)
    let r := TrimSpace L (Repo evt) in
    if negb (isEmpty r) then
      log (LogProcessingExplicit r) ;;
      wrapping ("mirror explicit repo " ++ Quote L r) (mirrorSingleRepo r) ;;
      log LogDoneExplicit
    else
      (* Index-bound checks. *)
      let index := if (Index evt <? 0)%Z then 0%Z else Index evt in
      if (index >=? Z.of_nat count)%Z then
        log (LogNothingToDo index count)
      else
        let current := nth (Z.to_nat index) repos "" in
        log (LogProcessingRepo (index + 1) count current) ;;
        wrapping ("mirror " ++ Quote L current) (mirrorSingleRepo current) ;;
        (* Chain to next index if any remain. *)
        let next := (index + 1)%Z in
        if (next <? Z.of_nat count)%Z then
          wrapping ("invoke self for index=" ++ Itoa L next)
                   (invokeSelfAsync (mkJobEvent next "")) ;;
          log (LogQueuedNext next)
        else
          log (LogCompletedAll count).

Definition handler (raw : string) : M unit :=
  evt <- handler_event raw ;;
  repos <- wrapping "load repo list" loadRepoList ;;
  handler_run evt repos.

(** The payloads of the asynchronous invocations an invocation got
    accepted. *)
Definition dispatched (evs : list Event) : list string :=
  flat_map (fun ev => match ev with
                      | EvCall (CInvoke _ payload) None => [payload]
                      | _ => []
                      end) evs.

(** A chain of invocations: the handler runs on a payload, and each
    payload it dispatched starts the next invocation, in the world the
    previous one left. [fuel] bounds the number of invocations. *)
Fixpoint sweep (fuel : nat) (raw : string) (w : World) : list (Out unit) :=
  match fuel with
  | O => []
  | S fuel' =>
      let o := handler raw w in
      o :: match dispatched (events o) with
           | payload :: _ => sweep fuel' payload (after o)
           | [] => []
           end
  end.

End Program.
End Chain.

(* ------------------------------------------------------------------ *)
(** ** cmd/fullsync/main.go: the full-sync handler *)

Module FullSync.
Section Program.

Variable L : GoLib.

(** The crane calls take names as text and parse them themselves. *)
Definition crane_Catalog (registry : string) (kc : Keychain) : M (list string) :=
  query (CCatalog registry kc) (fun w => Ok (src_catalog (dep w))).

Definition crane_ListTags (repo : string) (kc : Keychain) : M (list string) :=
  query (CListTags repo kc)
        (fun w => match name_NewRepository L repo with
                  | Ok r => Ok (src_tags (dep w) r)
                  | Err e => Err e
                  end).

Definition crane_Digest (ref : string) (kc : Keychain) : M string :=
  query (CDigest ref kc)
        (fun w => match name_ParseReference L ref with
                  | Ok r => match src_manifest (dep w) r with
                            | Some d => Ok (Hash_String (Digest d))
                            | None => Err manifestUnknown
                            end
                  | Err e => Err e
                  end).

Definition crane_Copy (src dst : string) (kc : Keychain) : M unit :=
  call (CCopy src dst kc)
       (fun w => match name_ParseReference L src, name_ParseReference L dst with
                 | Ok s, Ok d =>
                     match src_manifest (dep w) s with
                     | Some m => (Ok tt, pushed (ecr w) d m)
                     | None => (Err manifestUnknown, ecr w)
                     end
                 | Err e, _ => (Err e, ecr w)
                 | _, Err e => (Err e, ecr w)
                 end).

(** [awscfg.Region] *)
Definition Region : M string :=
  fun w => mkOut (Ok (aws_region (dep w))) w [].

(** [mustEnv]: [log.Fatalf] ends the process; nothing runs after it. *)
Definition mustEnv (k : string) : M string :=
  v <- Getenv k ;;
  if isEmpty v then
    log (LogMissingEnv k) ;;
    fail (mkError ("missing required env: " ++ k) ["os.Exit"])
  else ret v.

Definition ecrHost (accountID region : string) : string :=
  accountID ++ ".dkr.ecr." ++ region ++ ".amazonaws.com".

Definition ensureECRRepo (repo : string) : M unit :=
  d <- attempt (ecr_DescribeRepositories repo) ;;
  match d with
  | Ok _ => ret tt
  | Err _ =>
      c <- attempt (ecr_CreateRepository repo true) ;;
      match c with
      | Err err =>
          if negb (strings.Contains (Error err) RepositoryAlreadyExistsException)
          then fail err
          else ret tt
      | Ok _ => ret tt
      end
  end.

Definition ecrPassword (registryIDs : list string) : M string :=
  out <- ecr_GetAuthorizationToken registryIDs ;;
  match AuthorizationData out with
  | [] => fail (errors_New "no ECR authorization data")
  | ad :: _ =>
      match AuthorizationToken ad with
      | None => fail (errors_New "no ECR authorization data")
      | Some raw =>
          dec <- lift (base64_DecodeString L raw) ;;
          match strings.SplitN2 dec ":" with
          | [_; pass] => ret pass
          | _ => fail (errors_New "unexpected ECR token format")
          end
      end
  end.

Definition copyImage (src dst : string) (kc : Keychain) : M unit :=
  wrapping "parse src" (lift (name_ParseReference L src)) ;;
  wrapping "parse dst" (lift (name_ParseReference L dst)) ;;
  crane_Copy src dst kc.

(** check if a tag already exists in ECR and return its digest *)
Definition ecrTagDigest (repo tag : string) : M (string * bool) :=
  r <- attempt (ecr_DescribeImages repo tag) ;;
  match r with
  | Err err =>
      (* If the repo was just created or not found, treat as not existing *)
      if strings.Contains (Error err) RepositoryNotFoundException
      then ret ("", false)
      else fail err
  | Ok out =>
      match ImageDetails out with
      | [] => ret ("", false)
      | d :: _ =>
          match DetailDigest d with
          | None => ret ("", false)
          | Some digest => ret (digest, true)
          end
      end
  end.

(** [handler], lines 214-217: the copy of one tag; its failure is logged. *)
Definition handler_copy (src dst : string) (kc : Keychain) : M unit :=
  log (LogCopy src dst) ;;
  c <- attempt (copyImage src dst kc) ;;
  match c with
  | Err err => log (LogCopyError src dst err)
  | Ok _ => ret tt
  end.

(** The body of the loop over the tags of one repository
    ([handler], lines 196-218). *)
Definition handler_tag (fullSrcRepo dstHost dstRepo : string) (kc : Keychain)
    (tag : string) : M unit :=
  let src := fullSrcRepo ++ ":" ++ tag in
  let dst := dstHost ++ "/" ++ dstRepo ++ ":" ++ tag in
  (* 1) get source digest *)
  d <- attempt (crane_Digest src kc) ;;
  srcDigest <- match d with
               | Ok s => ret s
               | Err err => log (LogDigestSrcFailed src err) ;; ret ""
               end ;;
  (* 2) get destination digest (if tag exists) *)
  t <- attempt (ecrTagDigest dstRepo tag) ;;
  match t with
  | Err err => log (LogCheckDstFailed dst dstRepo tag err) ;; handler_copy src dst kc
  | Ok (dstDigest, exists_) =>
      if exists_ && negb (isEmpty srcDigest) && String.eqb dstDigest srcDigest
      then log (LogSkipSameDigest src dst srcDigest)
      else handler_copy src dst kc
  end.

(** The body of the loop over the repositories
    ([handler], lines 174-219). *)
Definition handler_repo (srcRegistry dstPrefix dstHost : string) (kc : Keychain)
    (repoPath : string) : M unit :=
  let fullSrcRepo := srcRegistry ++ "/" ++ repoPath in
  t <- attempt (crane_ListTags fullSrcRepo kc) ;;
  match t with
  | Err err => log (LogListTagsFailed fullSrcRepo err)
  | Ok [] => ret tt
  | Ok tags =>
      (* Destination repo path in ECR (preserve structure, optional
         DST_PREFIX) *)
      let dstRepo := if negb (isEmpty dstPrefix)
                     then path_Join L dstPrefix repoPath else repoPath in
      e <- attempt (ensureECRRepo dstRepo) ;;
      match e with
      | Err err => log (LogEnsureFailed dstRepo err)
      | Ok _ => forEach tags (handler_tag fullSrcRepo dstHost dstRepo kc)
      end
  end.

Definition handler : M string :=
  (* Source registry (Chainguard) *)
  r <- Getenv "SRC_REGISTRY" ;;
  let srcRegistry := if isEmpty r then "cgr.dev" else r in
  group <- mustEnv "GROUP_NAME" ;;
  (* Pull-token credentials for cgr.dev *)
  cgrUser <- mustEnv "CGR_USERNAME" ;;
  cgrPass <- mustEnv "CGR_PASSWORD" ;;
  (* Optional ECR prefix (folder). Leave empty to mirror 1:1. *)
  p <- Getenv "DST_PREFIX" ;;
  let dstPrefix := strings.TrimSuffix p "/" in
  (* AWS/ECR setup *)
  wrapping "aws cfg" config_LoadDefaultConfig ;;
  who <- wrapping "sts" sts_GetCallerIdentity ;;
  match Account who with
  | None => fail (mkError "invalid memory address or nil pointer dereference"
                          ["runtime.Error"])
  | Some accountID =>
      region <- Region ;;
      ecrPass <- wrapping "ecr auth" (ecrPassword [accountID]) ;;
      let dstHost := ecrHost accountID region in
      (* Auth mapping: cgr.dev with pull token; ECR with AWS basic *)
      let kc := [ (srcRegistry, mkBasic cgrUser cgrPass);
                  (dstHost, mkBasic "AWS" ecrPass) ] in
      (* 1) List all repos from cgr.dev and filter to "<group>/..." *)
      repos <- wrapping ("catalog " ++ srcRegistry) (crane_Catalog srcRegistry kc) ;;
      let prefix := group ++ "/" in
      let matched := filter (fun r => strings.HasPrefix r prefix) repos in
      log (LogFoundRepos (List.length matched) group) ;;
      (* 2) For each repo: ensure ECR repo exists, list tags, copy each *)
      forEach matched (handler_repo srcRegistry dstPrefix dstHost kc) ;;
      ret "ok"
  end.

End Program.
End FullSync.

(* ------------------------------------------------------------------ *)
(** ** A library and worlds to run the programs on

    [Demo.lib] implements the library interface on ASCII text: enough to
    evaluate the programs on the concrete inputs of the examples below.
    The theorems do not depend on it. *)

Module Demo.

Definition dq : string := String "034"%char EmptyString.

Definition asciiSpace (c : ascii) : bool :=
  let n := nat_of_ascii c in
  ((9 <=? n) && (n <=? 13))%nat || (n =? 32)%nat.

Fixpoint trimLeft (s : string) : string :=
  match s with
  | String a r => if asciiSpace a then trimLeft r else s
  | EmptyString => EmptyString
  end.

Fixpoint trimRight (s : string) : string :=
  match s with
  | String a r =>
      match trimRight r with
      | EmptyString => if asciiSpace a then EmptyString else String a EmptyString
      | r' => String a r'
      end
  | EmptyString => EmptyString
  end.

Definition TrimSpace (s : string) : string := trimRight (trimLeft s).

Definition lower (c : ascii) : ascii :=
  let n := nat_of_ascii c in
  if ((65 <=? n) && (n <=? 90))%nat then ascii_of_nat (n + 32) else c.

Fixpoint EqualFold (s t : string) : bool :=
  match s, t with
  | EmptyString, EmptyString => true
  | String a s', String b t' => Ascii.eqb (lower a) (lower b) && EqualFold s' t'
  | _, _ => false
  end.

Definition maxInt : Z := 9223372036854775807.

Definition atoiUnsigned (digits : string) : option Z :=
  match digits with
  | EmptyString => None
  | _ => match NilEmpty.uint_of_string digits with
         | Some d => Some (Z.of_uint d)
         | None => None
         end
  end.

Definition Atoi (s : string) : result Z :=
  let parsed := match s with
                | String "+"%char r => atoiUnsigned r
                | String "-"%char r => option_map Z.opp (atoiUnsigned r)
                | _ => atoiUnsigned s
                end in
  match parsed with
  | Some n =>
      if ((- maxInt - 1 <=? n) && (n <=? maxInt))%Z then Ok n
      else Err (errors_New "strconv.Atoi: value out of range")
  | None => Err (errors_New "strconv.Atoi: invalid syntax")
  end.

Definition Itoa (n : Z) : string := NilZero.string_of_int (Z.to_int n).

Definition Quote (s : string) : string := dq ++ s ++ dq.

(** [dropPrefix p s]: what follows [p] in [s] *)
Fixpoint dropPrefix (p s : string) : option string :=
  match p, s with
  | EmptyString, _ => Some s
  | String a p', String b s' => if Ascii.eqb a b then dropPrefix p' s' else None
  | _, EmptyString => None
  end.

(** [splitFirst c s]: what precedes and what follows the first [c] *)
Fixpoint splitFirst (c : ascii) (s : string) : option (string * string) :=
  match s with
  | EmptyString => None
  | String a r =>
      if Ascii.eqb a c then Some (EmptyString, r)
      else match splitFirst c r with
           | Some (x, y) => Some (String a x, y)
           | None => None
           end
  end.

Fixpoint hasByte (c : ascii) (s : string) : bool :=
  match s with
  | EmptyString => false
  | String a r => Ascii.eqb a c || hasByte c r
  end.

Definition invalidJSON : error := errors_New "invalid character".

(** The JSON object of a [JobEvent], with [omitempty] on both fields. *)
Definition json_Marshal_JobEvent (ev : JobEvent) : result string :=
  let index := dq ++ "index" ++ dq ++ ":" ++ Itoa (Index ev) in
  let repo := dq ++ "repo" ++ dq ++ ":" ++ Quote (Repo ev) in
  Ok ("{" ++
      (if (Index ev =? 0)%Z then
         if isEmpty (Repo ev) then "" else repo
       else
         if isEmpty (Repo ev) then index else index ++ "," ++ repo)
      ++ "}").

Definition decodeInt (s : string) : option Z :=
  match Atoi s with Ok n => Some n | Err _ => None end.

(** A quoted string without escapes, followed by the closing brace *)
Definition decodeRepoField (s : string) : option string :=
  match dropPrefix (dq ++ "repo" ++ dq ++ ":" ++ dq) s with
  | Some r =>
      match splitFirst "034"%char r with
      | Some (v, "}") => if hasByte "\"%char v then None else Some v
      | _ => None
      end
  | None => None
  end.

(** Decodes the objects [json_Marshal_JobEvent] writes. *)
Definition json_Unmarshal_JobEvent (raw : string) : result JobEvent :=
  match dropPrefix "{" raw with
  | Some "}" => Ok (mkJobEvent 0 "")
  | Some body =>
      match dropPrefix (dq ++ "index" ++ dq ++ ":") body with
      | Some rest =>
          match splitFirst ","%char rest with
          | Some (n, r) =>
              match decodeInt n, decodeRepoField r with
              | Some i, Some v => Ok (mkJobEvent i v)
              | _, _ => Err invalidJSON
              end
          | None =>
              match splitFirst "}"%char rest with
              | Some (n, "") =>
                  match decodeInt n with
                  | Some i => Ok (mkJobEvent i "")
                  | None => Err invalidJSON
                  end
              | _ => Err invalidJSON
              end
          end
      | None =>
          match decodeRepoField body with
          | Some v => Ok (mkJobEvent 0 v)
          | None => Err invalidJSON
          end
      end
  | None => Err invalidJSON
  end.

(** Decodes the empty array only. *)
Definition json_Unmarshal_strings (s : string) : result (list string) :=
  if String.eqb s "[]" then Ok [] else Err invalidJSON.

(** Base64, standard alphabet with padding *)
Definition sextet (c : ascii) : option N :=
  let n := N_of_ascii c in
  if ((65 <=? n) && (n <=? 90))%N then Some (n - 65)%N
  else if ((97 <=? n) && (n <=? 122))%N then Some (n - 71)%N
  else if ((48 <=? n) && (n <=? 57))%N then Some (n + 4)%N
  else if (n =? 43)%N then Some 62%N
  else if (n =? 47)%N then Some 63%N
  else None.

Definition byteOf (n : N) : ascii := ascii_of_N (N.land n 255).

Definition illegalBase64 : error := errors_New "illegal base64 data".

Fixpoint base64_decode (fuel : nat) (s : string) : result string :=
  match fuel, s with
  | _, EmptyString => Ok EmptyString
  | S fuel', String a (String b (String c (String d r))) =>
      match sextet a, sextet b with
      | Some x, Some y =>
          let b0 := byteOf (N.lor (N.shiftl x 2) (N.shiftr y 4)) in
          match sextet c, sextet d, r with
          | Some z, Some t, _ =>
              let b1 := byteOf (N.lor (N.shiftl y 4) (N.shiftr z 2)) in
              let b2 := byteOf (N.lor (N.shiftl z 6) t) in
              match base64_decode fuel' r with
              | Ok rest => Ok (String b0 (String b1 (String b2 rest)))
              | Err e => Err e
              end
          | Some z, None, EmptyString =>
              if Ascii.eqb d "="%char
              then Ok (String b0 (String (byteOf (N.lor (N.shiftl y 4) (N.shiftr z 2)))
                                         EmptyString))
              else Err illegalBase64
          | None, None, EmptyString =>
              if Ascii.eqb c "="%char && Ascii.eqb d "="%char
              then Ok (String b0 EmptyString)
              else Err illegalBase64
          | _, _, _ => Err illegalBase64
          end
      | _, _ => Err illegalBase64
      end
  | _, _ => Err illegalBase64
  end.

Definition base64_DecodeString (s : string) : result string :=
  base64_decode (String.length s) s.

Definition path_Join (a b : string) : string := a ++ "/" ++ b.

Definition badName : error := errors_New "could not parse reference".

(** [registry/path], the registry being what precedes the first slash *)
Definition name_NewRepository (s : string) : result Repository :=
  if hasByte ":"%char s then Err badName
  else match splitFirst "/"%char s with
       | Some (reg, path) =>
           if isEmpty reg || isEmpty path then Err badName
           else Ok (mkRepository reg path)
       | None => Err badName
       end.

(** [registry/path:tag], with one colon, before the tag *)
Definition name_ParseReference (s : string) : result Reference :=
  match splitFirst ":"%char s with
  | Some (base, tag) =>
      if isEmpty tag || hasByte "/"%char tag then Err badName
      else match name_NewRepository base with
           | Ok r => if hasByte ":"%char tag then Err badName
                     else Ok (mkReference r tag)
           | Err e => Err e
           end
  | None => Err badName
  end.

Definition lib : GoLib :=
  mkGoLib TrimSpace EqualFold Atoi Itoa Quote
          json_Unmarshal_JobEvent json_Unmarshal_strings json_Marshal_JobEvent
          base64_DecodeString path_Join name_NewRepository name_ParseReference.

(** *** Worlds *)

Definition Repository_eqb (a b : Repository) : bool :=
  String.eqb (RegistryStr a) (RegistryStr b) &&
  String.eqb (RepositoryStr a) (RepositoryStr b).

Definition Reference_eqb (a b : Reference) : bool :=
  Repository_eqb (RefContext a) (RefContext b) &&
  String.eqb (Identifier a) (Identifier b).

Fixpoint envOf (l : list (string * string)) (key : string) : string :=
  match l with
  | [] => ""
  | (k, v) :: l' => if String.eqb k key then v else envOf l' key
  end.

Definition noFault : nat -> Call -> option error := fun _ _ => None.

Definition imageType : string := "application/vnd.oci.image.manifest.v1+json".
Definition indexType : string := "application/vnd.oci.image.index.v1+json".

Definition app : Repository := mkRepository "cgr.dev" "g/app".
Definition web : Repository := mkRepository "cgr.dev" "g/web".
Definition api : Repository := mkRepository "cgr.dev" "g/api".

Definition app_v1 : Descriptor := mkDescriptor (mkHash "sha256" "a1") imageType.
Definition app_v2 : Descriptor := mkDescriptor (mkHash "sha256" "a2") indexType.
Definition web_latest : Descriptor := mkDescriptor (mkHash "sha256" "b1") imageType.
Definition api_latest : Descriptor := mkDescriptor (mkHash "sha256" "c1") imageType.

(** The source registry: g/app with tags v1 (an image) and v2 (an index),
    g/web and g/api with the tag latest. *)
Definition tagsOf (r : Repository) : list string :=
  if Repository_eqb r app then ["v1"; "v2"]
  else if Repository_eqb r web then ["latest"]
  else if Repository_eqb r api then ["latest"]
  else [].

Definition manifestOf (r : Reference) : option Descriptor :=
  if Reference_eqb r (mkReference app "v1") then Some app_v1
  else if Reference_eqb r (mkReference app "v2") then Some app_v2
  else if Reference_eqb r (mkReference web "latest") then Some web_latest
  else if Reference_eqb r (mkReference api "latest") then Some api_latest
  else None.

Definition endpoint : string := "123456789012.dkr.ecr.us-east-2.amazonaws.com".

Definition deployment (env : list (string * string))
    (faults : nat -> Call -> option error) : Deployment :=
  mkDeployment (envOf env) "us-east-2" faults
    (fun _ => mkGetParameterOutput None)
    (mkGetCallerIdentityOutput (Some "123456789012"))
    [mkAuthData (Some "QVdTOnNlY3JldA==") (Some ("https://" ++ endpoint))]
    ["g/app"; "g/web"; "h/other"]
    tagsOf manifestOf.

Definition emptyEcr : EcrState := mkEcrState [] [].

Definition world (env : list (string * string))
    (faults : nat -> Call -> option error) (s : EcrState) : World :=
  mkWorld (deployment env faults) 0 s.

(** The environment of the chained handler: three repositories, all
    their tags. *)
Definition chainEnv : list (string * string) :=
  [ ("CGR_USERNAME", "user"); ("CGR_PASSWORD", "token");
    ("REPO_LIST_CSV", "cgr.dev/g/app, cgr.dev/g/web ,cgr.dev/g/api");
    ("COPY_ALL_TAGS", "true");
    ("AWS_LAMBDA_FUNCTION_NAME", "mirror") ].

(** The environment of the full-sync handler. *)
Definition fullsyncEnv : list (string * string) :=
  [ ("GROUP_NAME", "g"); ("CGR_USERNAME", "user"); ("CGR_PASSWORD", "token") ].

(** The chained handler with one repository configured twice. *)
Definition twiceEnv : list (string * string) :=
  [ ("CGR_USERNAME", "user"); ("CGR_PASSWORD", "token");
    ("REPO_LIST_CSV", "cgr.dev/g/app,cgr.dev/g/app");
    ("AWS_LAMBDA_FUNCTION_NAME", "mirror") ].

(** A destination that already holds g/app:v1 with the digest of the
    source, and nothing else. *)
Definition oneMirrored : EcrState :=
  mkEcrState ["g/app"] [("g/app", "v1", "sha256:a1")].

Definition srcAuth : Basic := mkBasic "user" "token".
Definition dstAuth : Basic := mkBasic "AWS" "secret".
Definition kc : Keychain := [("cgr.dev", srcAuth); (endpoint, dstAuth)].

(** Every digest lookup at the destination is refused. *)
Definition accessDenied : error := apiError "AccessDeniedException" "not authorized".

Definition lookupFault : nat -> Call -> option error :=
  fun _ c =>
    match c with
    | CBatchGetImage _ _ | CDescribeImages _ _ => Some accessDenied
    | _ => None
    end.

(** The chained handler with a list that resolves to no repository. *)
Definition emptyListEnv : list (string * string) :=
  [ ("CGR_USERNAME", "user"); ("CGR_PASSWORD", "token");
    ("REPO_LIST_JSON", "[]");
    ("AWS_LAMBDA_FUNCTION_NAME", "mirror") ].

(** The payload that names the repository cgr.dev/g/app. *)
Definition explicitPayload : string :=
  "{" ++ dq ++ "repo" ++ dq ++ ":" ++ dq ++ "cgr.dev/g/app" ++ dq ++ "}".

(** The source registry refuses every read of a manifest. *)
Definition unauthorized : error := errors_New "UNAUTHORIZED: authentication required".

Definition fetchFault : nat -> Call -> option error :=
  fun _ c =>
    match c with
    | CGet _ _ | CDigest _ _ | CCopy _ _ _ => Some unauthorized
    | _ => None
    end.

(** Between the existence check and the creation call someone else creates
    the repository: the creation call fails with "already exists". *)
Definition alreadyExists : error :=
  apiError RepositoryAlreadyExistsException "g/app".

Definition createRace : nat -> Call -> option error :=
  fun _ c =>
    match c with
    | CCreateRepository _ _ => Some alreadyExists
    | _ => None
    end.

(** The existence check is refused. *)
Definition describeDenied : nat -> Call -> option error :=
  fun _ c =>
    match c with
    | CDescribeRepositories _ => Some accessDenied
    | _ => None
    end.

(** The repository is absent and its creation is refused. *)
Definition createDenied : nat -> Call -> option error :=
  fun _ c =>
    match c with
    | CCreateRepository _ _ => Some accessDenied
    | _ => None
    end.

Definition notFound (repo : string) : error :=
  apiError RepositoryNotFoundException repo.

(** The function may not invoke itself. *)
Definition invokeDenied : nat -> Call -> option error :=
  fun _ c =>
    match c with
    | CInvoke _ _ => Some accessDenied
    | _ => None
    end.


(** The chained handler in dry-run mode. *)
Definition dryRunEnv : list (string * string) :=
  ("MIRROR_DRY_RUN", "TRUE") :: chainEnv.


(** The chained handler on the tag latest only (COPY_ALL_TAGS is not
    set), for the repositories g/web and g/api. *)
Definition latestEnv : list (string * string) :=
  [ ("CGR_USERNAME", "user"); ("CGR_PASSWORD", "token");
    ("REPO_LIST_CSV", "cgr.dev/g/web,cgr.dev/g/api");
    ("AWS_LAMBDA_FUNCTION_NAME", "mirror") ].


(** The full-sync handler without the password of the source. *)
Definition noPasswordEnv : list (string * string) :=
  [ ("GROUP_NAME", "g"); ("CGR_USERNAME", "user") ].


(** The chained handler with a prefix for the destination. *)
Definition prefixEnv : list (string * string) :=
  ("DST_PREFIX", "/mirror ") :: chainEnv.


(** The chained handler with a list in REPO_LIST_JSON that is not valid
    JSON, and a list in REPO_LIST_CSV. *)
Definition badJsonEnv : list (string * string) :=
  ("REPO_LIST_JSON", "[oops") :: chainEnv.


(** The chained handler with its list in the parameter /mirror/repos of
    the parameter store, as delimited text. *)
Definition ssmEnv : list (string * string) :=
  [ ("CGR_USERNAME", "user"); ("CGR_PASSWORD", "token");
    ("REPO_LIST_SSM_PARAM", " /mirror/repos");
    ("AWS_LAMBDA_FUNCTION_NAME", "mirror") ].

Definition ssmWorld : World :=
  let d := deployment ssmEnv noFault in
  mkWorld
    (mkDeployment (environ d) (aws_region d) (fault d)
       (fun name =>
          if String.eqb name "/mirror/repos"
          then mkGetParameterOutput
                 (Some (mkSsmParameter (Some " cgr.dev/g/app, cgr.dev/g/web ")))
          else mkGetParameterOutput None)
       (sts_identity d) (ecr_authorization d) (src_catalog d) (src_tags d)
       (src_manifest d))
    0 emptyEcr.


(** The chained handler started at the second repository. *)
Definition startEnv : list (string * string) :=
  ("START_INDEX", " 1 ") :: chainEnv.

(** The payload {"index":1} *)
Definition indexOnePayload : string :=
  "{" ++ dq ++ "index" ++ dq ++ ":1}".


(** A destination with the repository g/app and no image in it. *)
Definition appCreated : EcrState := mkEcrState ["g/app"] [].


(** The chained handler without the password of the source. *)
Definition noTokenEnv : list (string * string) :=
  [ ("CGR_USERNAME", "user");
    ("REPO_LIST_CSV", "cgr.dev/g/app,cgr.dev/g/web");
    ("AWS_LAMBDA_FUNCTION_NAME", "mirror") ].

End Demo.

(* ------------------------------------------------------------------ *)
(** ** Vocabulary of the statements *)

(** [only P m]: every event of [m], in every world, satisfies [P]. *)
Definition only {A} (P : Event -> bool) (m : M A) : Prop :=
  forall w, forallb P (events (m w)) = true.

(** The deployment never changes. *)
Definition steady {A} (m : M A) : Prop :=
  forall w, dep (after (m w)) = dep w.

(** An entry of the repository list that is not blank *)
Definition nonblank (t : string) : bool := negb (isEmpty t).

(** The Mirror Decision of the specification, read off what a tag's step
    did: [Skip] when it logged that the tag is already present, [Transfer]
    when it started to copy (the first read of the image or index, or the
    "copy" line of the full-sync handler). *)
Inductive MirrorDecision : Type := Skip | Transfer.

Definition isSkipLog (ev : Event) : bool :=
  match ev with
  | EvLog (LogSkipping _ _ _) | EvLog (LogSkipSameDigest _ _ _) => true
  | _ => false
  end.

Definition isTransferStart (ev : Event) : bool :=
  match ev with
  | EvCall (CImage _) _ | EvCall (CImageIndex _) _ | EvLog (LogCopy _ _) => true
  | _ => false
  end.

Definition decisionOf (evs : list Event) : option MirrorDecision :=
  if existsb isSkipLog evs then Some Skip
  else if existsb isTransferStart evs then Some Transfer
  else None.

(** The transfer operations: the writes of a manifest or an index. *)
Definition isWrite (ev : Event) : bool :=
  match ev with
  | EvCall (CWrite _ _ _) _ | EvCall (CWriteIndex _ _ _) _
  | EvCall (CCopy _ _ _) _ => true
  | _ => false
  end.

Definition transfers (evs : list Event) : list Event := filter isWrite evs.

(** The digest the destination answered for the tag, if it answered one:
    for [BatchGetImage] (main.go) and for [ecrTagDigest] (full-sync). *)
Definition destDigest (lookup : result BatchGetImageOutput) : option string :=
  match lookup with
  | Ok out =>
      match Images out with
      | img :: _ =>
          match ImageId img with
          | Some id => ImageDigest id
          | None => None
          end
      | [] => None
      end
  | Err _ => None
  end.

Definition destDigestOf (lookup : result (string * bool)) : option string :=
  match lookup with
  | Ok (d, true) => Some d
  | _ => None
  end.

(** Events that tell nothing about the decision *)
Definition neutral (ev : Event) : bool :=
  negb (isSkipLog ev) && negb (isTransferStart ev).

(** A call to dispatch a continuation *)
Definition isInvoke (ev : Event) : bool :=
  match ev with
  | EvCall (CInvoke _ _) _ => true
  | _ => false
  end.

Definition notInvoke (ev : Event) : bool := negb (isInvoke ev).

(** [yields Q m]: whenever [m] succeeds, its value satisfies [Q]. *)
Definition yields {A} (Q : A -> Prop) (m : M A) : Prop :=
  forall w a, res (m w) = Ok a -> Q a.

(** The world with the environment variable [key] set to [value] *)
Definition setenv (key value : string) (w : World) : World :=
  mkWorld
    (mkDeployment
       (fun k => if String.eqb k key then value else environ (dep w) k)
       (aws_region (dep w)) (fault (dep w)) (ssm_store (dep w))
       (sts_identity (dep w)) (ecr_authorization (dep w))
       (src_catalog (dep w)) (src_tags (dep w)) (src_manifest (dep w)))
    (clock w) (ecr w).

Definition mapAfter {A} (f : World -> World) (o : Out A) : Out A :=
  mkOut (res o) (f (after o)) (events o).

(** [blind key m]: [m] does not consult the environment variable [key]:
    whatever its value, [m] returns the same result, does the same things
    and leaves the same world. *)
Definition blind {A} (key : string) (m : M A) : Prop :=
  forall w value, m (setenv key value w) = mapAfter (setenv key value) (m w).

(** A fetch of a source descriptor that failed *)
Definition isFailedGet (ev : Event) : bool :=
  match ev with
  | EvCall (CGet _ _) (Some _) => true
  | _ => false
  end.

(** [endsRun f o]: an event that satisfies [f] is the last thing the run
    [o] did, and the run failed. *)
Definition endsRun {A} (f : Event -> bool) (o : Out A) : Prop :=
  forall pre ev post,
    events o = (pre ++ ev :: post)%list -> f ev = true ->
    post = [] /\ isOk (res o) = false.

(** [fatal f m]: in every world, an event of [m] that satisfies [f] ends
    the run of [m], with an error. *)
Definition fatal {A} (f : Event -> bool) (m : M A) : Prop :=
  forall w, endsRun f (m w).

(** The calls that ensure the destination repository, and the events of
    the processing of tags *)
Definition isDescribe (ev : Event) : bool :=
  match ev with
  | EvCall (CDescribeRepositories _) _ => true
  | _ => false
  end.

Definition isCreate (ev : Event) : bool :=
  match ev with
  | EvCall (CCreateRepository _ _) _ => true
  | _ => false
  end.

Definition creations (evs : list Event) : list Event := filter isCreate evs.

Definition isTagProcessing (ev : Event) : bool :=
  match ev with
  | EvCall (CList _ _) _ | EvCall (CGet _ _) _ | EvCall (CBatchGetImage _ _) _
  | EvCall (CImage _) _ | EvCall (CImageIndex _) _
  | EvCall (CWrite _ _ _) _ | EvCall (CWriteIndex _ _ _) _
  | EvCall (CDigest _ _) _ | EvCall (CDescribeImages _ _) _
  | EvCall (CCopy _ _ _) _
  | EvLog (LogNoTags _) | EvLog (LogSkipping _ _ _)
  | EvLog (LogCopyingIndex _ _) | EvLog (LogCopyingImage _ _)
  | EvLog (LogMirrored _ _)
  | EvLog (LogDigestSrcFailed _ _) | EvLog (LogCheckDstFailed _ _ _ _)
  | EvLog (LogSkipSameDigest _ _ _) | EvLog (LogCopy _ _)
  | EvLog (LogCopyError _ _ _) => true
  | _ => false
  end.

(** What comes before the destination repository is ensured *)
Definition isSetup (ev : Event) : bool :=
  negb (isDescribe ev) && negb (isCreate ev) && negb (isTagProcessing ev).

(** What the tags phase does: no call that ensures the repository *)
Definition isTagPhase (ev : Event) : bool :=
  negb (isDescribe ev) && negb (isCreate ev).

(** In the chained handler: a creation call that failed, or an existence
    check that failed otherwise than with RepositoryNotFoundException *)
Definition isEnsureFailure (ev : Event) : bool :=
  match ev with
  | EvCall (CCreateRepository _ _) (Some _) => true
  | EvCall (CDescribeRepositories _) (Some err) =>
      negb (errors_As err RepositoryNotFoundException)
  | _ => false
  end.

(** The shape of a pass of [mirrorSingleRepo]: it ends during its setup, or
    it ensures the destination repository and, when that succeeded,
    goes on with the tags. *)
Definition ensuresThenTags (o : Out unit) : Prop :=
  forallb isSetup (events o) = true \/
  exists pre dstRepoName w1 tg,
    let en := Chain.mirrorSingleRepo_ensure dstRepoName w1 in
    forallb isSetup pre = true /\ forallb isTagPhase tg = true /\
    events o = (pre ++ events en ++ tg)%list /\
    (isOk (res en) = false -> tg = [] /\ isOk (res o) = false).

(** [stable m]: the value of [m], when it succeeds, is fixed by the
    deployment. *)
Definition stable {A} (m : M A) : Prop :=
  forall w w' a a',
    dep w = dep w' -> res (m w) = Ok a -> res (m w') = Ok a' -> a = a'.

(** A lookup of the destination digest that failed *)
Definition isFailedLookup (ev : Event) : bool :=
  match ev with
  | EvCall (CBatchGetImage _ _) (Some _) => true
  | _ => false
  end.

(** [name.ParseReference] reads the names [endpoint/repository:tag] of the
    destination back into that repository and that tag. *)
Definition destinationNamesParse (L : GoLib) (endpoint : string) : Prop :=
  forall repo tag ref,
    name_ParseReference L (endpoint ++ "/" ++ repo ++ ":" ++ tag) = Ok ref ->
    RepositoryStr (RefContext ref) = repo /\ Identifier ref = tag.

(** In the destination [s], the tag of the destination repository holds the
    digest that the source holds for the tag. *)
Definition mirrored (L : GoLib) (d : Deployment) (srcRepo dstRepoName : string)
    (imgs : list (string * string * string)) (tag : string) : Prop :=
  forall srcRef,
    name_ParseReference L (srcRepo ++ ":" ++ tag) = Ok srcRef ->
    exists desc,
      src_manifest d srcRef = Some desc /\
      lookupImage imgs dstRepoName tag = Some (Hash_String (Digest desc)).

(** [keepsImages m]: [m] leaves the images of the destination as they are. *)
Definition keepsImages {A} (m : M A) : Prop :=
  forall w, images (ecr (after (m w))) = images (ecr w).

(** What a run did not do: start a transfer, or write. *)
Definition noTransfer (evs : list Event) : Prop :=
  forallb (fun ev => negb (isTransferStart ev) && negb (isWrite ev)) evs = true.

(** Every tag that was looked up was skipped. *)
Definition allSkipped (srcRepo : string) (evs : list Event) : Prop :=
  forall repo tag outcome,
    In (EvCall (CBatchGetImage repo tag) outcome) evs ->
    exists digest, In (EvLog (LogSkipping srcRepo tag digest)) evs.

(** What precedes the tags of a pass: nothing of the processing of a tag. *)
Definition beforeTags (ev : Event) : bool := negb (isTagProcessing ev).

(** [extends s s']: the destination [s'] holds all that [s] holds, in the
    same order, and maybe more in front of it: nothing was removed. *)
Definition extends (s s' : EcrState) : Prop :=
  exists rs ims,
    repositories s' = (rs ++ repositories s)%list /\
    images s' = (ims ++ images s)%list.

(** [grows m]: [m] only adds to the destination. *)
Definition grows {A} (m : M A) : Prop :=
  forall w, extends (ecr w) (ecr (after (m w))).

(** [atMost n P m]: in every world, at most [n] events of [m] satisfy [P]. *)
Definition atMost {A} (n : nat) (P : Event -> bool) (m : M A) : Prop :=
  forall w, (List.length (filter P (events (m w))) <= n)%nat.

(** A listing of the tags of a source repository *)
Definition isList (ev : Event) : bool :=
  match ev with
  | EvCall (CList _ _) _ => true
  | _ => false
  end.

(** [keepsEcr m]: [m] leaves the destination as it is. *)
Definition keepsEcr {A} (m : M A) : Prop :=
  forall w, ecr (after (m w)) = ecr w.

(** What reaches neither registry: the log, the configuration, the
    parameter store and the invocation of the function itself. *)
Definition offRegistry (ev : Event) : bool :=
  match ev with
  | EvLog _ => true
  | EvCall CLoadDefaultConfig _ | EvCall (CGetParameter _) _
  | EvCall (CInvoke _ _) _ => true
  | EvCall _ _ => false
  end.

Definition Basic_eqb (a b : Basic) : bool :=
  String.eqb (Username a) (Username b) && String.eqb (Password a) (Password b).

(** The credentials a call to a registry presents: the credentials [src]
    for a read of the source, those of a user named AWS for a write to the
    destination. *)
Definition presents (src : Basic) (ev : Event) : bool :=
  match ev with
  | EvCall (CList _ a) _ | EvCall (CGet _ a) _ => Basic_eqb a src
  | EvCall (CWrite _ _ a) _ | EvCall (CWriteIndex _ _ a) _ =>
      String.eqb (Username a) "AWS"
  | _ => true
  end.

(** What a pass does when it considers the tag latest and no other: it
    lists no tags, and the lookups at the destination are for the tag
    latest. *)
Definition latestOnly (ev : Event) : bool :=
  match ev with
  | EvCall (CList _ _) _ => false
  | EvCall (CBatchGetImage _ tag) _ => String.eqb tag "latest"
  | _ => true
  end.

(** The work of the full-sync handler on the repositories: what follows
    the catalog of the source registry. *)
Definition isRepositoryWork (ev : Event) : bool :=
  match ev with
  | EvCall (CListTags _ _) _ | EvCall (CDescribeRepositories _) _
  | EvCall (CCreateRepository _ _) _ | EvCall (CDigest _ _) _
  | EvCall (CDescribeImages _ _) _ | EvCall (CCopy _ _ _) _ => true
  | EvLog (LogFoundRepos _ _) => true
  | _ => false
  end.

(** [succeeds m]: [m] returns no error, in any world. *)
Definition succeeds {A} (m : M A) : Prop :=
  forall w, isOk (res (m w)) = true.

(** [failsIn P m]: when [m] returns an error, all it did satisfies [P]. *)
Definition failsIn {A} (P : Event -> bool) (m : M A) : Prop :=
  forall w, isOk (res (m w)) = false -> forallb P (events (m w)) = true.

(** The reads of the source registry are under [prefix]. *)
Definition readsUnder (prefix : string) (ev : Event) : bool :=
  match ev with
  | EvCall (CListTags s _) _ | EvCall (CDigest s _) _
  | EvCall (CCopy s _ _) _ => strings.HasPrefix s prefix
  | _ => true
  end.

(** A text without a colon *)
Definition colonFree (s : string) : Prop :=
  forall c, In c (list_ascii_of_string s) -> c <> ":"%char.

(** A text without a comma *)
Definition commaFree (s : string) : Prop :=
  forall c, In c (list_ascii_of_string s) -> c <> ","%char.

(** [ev] writes to the destination a manifest that the source holds for a
    tag of [srcRepo]: an index as an index, an image as an image. *)
Definition writesFromSource (L : GoLib) (d : Deployment) (srcRepo : string)
    (ev : Event) : Prop :=
  exists tag srcRef desc dstRef auth f,
    name_ParseReference L (srcRepo ++ ":" ++ tag) = Ok srcRef /\
    src_manifest d srcRef = Some desc /\
    ev = EvCall (if IsIndex (MediaType desc)
                 then CWriteIndex dstRef desc auth
                 else CWrite dstRef desc auth) f.

(** The source repositories whose tags were listed by the full-sync
    handler, in order. *)
Definition listedRepos (evs : list Event) : list string :=
  flat_map (fun ev => match ev with
                      | EvCall (CListTags repo _) _ => [repo]
                      | _ => []
                      end) evs.

Definition notListTags (ev : Event) : bool :=
  match ev with
  | EvCall (CListTags _ _) _ => false
  | _ => true
  end.

(** [staticKeychain.Resolve] (cmd/fullsync/main.go): the authenticator
    that the map holds for the registry of the resource, or
    [authn.Anonymous], here [None]; it returns no error. The map is given
    by the entries of its literal, in order: an entry for a host replaces
    an earlier entry for the same host. *)
Fixpoint staticKeychain_Resolve (s : Keychain) (registry : string) : option Basic :=
  match s with
  | [] => None
  | (host, a) :: rest =>
      match staticKeychain_Resolve rest registry with
      | Some b => Some b
      | None => if String.eqb host registry then Some a else None
      end
  end.

(** A call that failed; the line of the full-sync handler for a copy that
    failed *)
Definition isFailedCall (ev : Event) : bool :=
  match ev with
  | EvCall _ (Some _) => true
  | _ => false
  end.

Definition isCopyError (ev : Event) : bool :=
  match ev with
  | EvLog (LogCopyError _ _ _) => true
  | _ => false
  end.

(** The tags whose digest was looked up at the destination, in order. *)
Definition lookedUp (evs : list Event) : list string :=
  flat_map (fun ev => match ev with
                      | EvCall (CBatchGetImage _ tag) _ => [tag]
                      | _ => []
                      end) evs.

Definition notLookup (ev : Event) : bool :=
  match ev with
  | EvCall (CBatchGetImage _ _) _ => false
  | _ => true
  end.

(** The copies of the full-sync handler go under [prefix]. *)
Definition copiesUnder (prefix : string) (ev : Event) : bool :=
  match ev with
  | EvCall (CCopy _ dst _) _ => strings.HasPrefix dst prefix
  | _ => true
  end.

(* ------------------------------------------------------------------ *)
(** * Properties *)

(** The programs are unfolded on demand only. *)
Arguments Chain.parseJobEvent : simpl never.
Arguments Chain.loadReposFromSSM : simpl never.
Arguments Chain.fallbackRepoList : simpl never.
Arguments Chain.loadRepoList : simpl never.
Arguments Chain.mirrorSingleRepo_copy : simpl never.
Arguments Chain.mirrorSingleRepo_tag : simpl never.
Arguments Chain.mirrorSingleRepo_ensure : simpl never.
Arguments Chain.mirrorSingleRepo_tags : simpl never.
Arguments Chain.mirrorSingleRepo_auth : simpl never.
Arguments Chain.mirrorSingleRepo_dest : simpl never.
Arguments Chain.mirrorSingleRepo : simpl never.
Arguments Chain.invokeSelfAsync : simpl never.
Arguments Chain.handler_event : simpl never.
Arguments Chain.handler_run : simpl never.
Arguments Chain.handler : simpl never.
Arguments FullSync.crane_Digest : simpl never.
Arguments FullSync.crane_Copy : simpl never.
Arguments FullSync.ensureECRRepo : simpl never.
Arguments FullSync.copyImage : simpl never.
Arguments FullSync.ecrTagDigest : simpl never.
Arguments FullSync.handler_copy : simpl never.
Arguments FullSync.handler_tag : simpl never.
Arguments FullSync.handler_repo : simpl never.
Arguments FullSync.handler : simpl never.
Arguments remote_Get : simpl never.
Arguments ecr_BatchGetImage : simpl never.
Arguments ecr_DescribeImages : simpl never.

(** ** The monad *)

Lemma bind_Ok {A B} (m : M A) (k : A -> M B) (w : World) (a : A) :
  res (m w) = Ok a ->
  bind m k w = mkOut (res (k a (after (m w)))) (after (k a (after (m w))))
                     (events (m w) ++ events (k a (after (m w))))%list.
Proof. intros H. unfold bind. rewrite H. reflexivity. Qed.

Lemma bind_Err {A B} (m : M A) (k : A -> M B) (w : World) (e : error) :
  res (m w) = Err e ->
  bind m k w = mkOut (Err e) (after (m w)) (events (m w)).
Proof. intros H. unfold bind. rewrite H. reflexivity. Qed.

Lemma Out_eta {A} (o : Out A) : o = mkOut (res o) (after o) (events o).
Proof. destruct o; reflexivity. Qed.


Section Only.
Variable P : Event -> bool.

Lemma only_ret {A} (a : A) : only P (ret a).
Proof. intros w. reflexivity. Qed.

Lemma only_fail {A} (e : error) : only P (@fail A e).
Proof. intros w. reflexivity. Qed.

Lemma only_lift {A} (r : result A) : only P (lift r).
Proof. intros w. reflexivity. Qed.

Lemma only_Getenv (k : string) : only P (Getenv k).
Proof. intros w. reflexivity. Qed.

Lemma only_log (l : LogLine) : P (EvLog l) = true -> only P (log l).
Proof. intros H w. simpl. rewrite H. reflexivity. Qed.

Lemma only_call {A} (c : Call) (answer : World -> result A * EcrState) :
  (forall f, P (EvCall c f) = true) -> only P (call c answer).
Proof.
  intros H w. unfold call.
  destruct (fault (dep w) (clock w) c); [|destruct (answer w)];
    simpl; rewrite H; reflexivity.
Qed.

Lemma only_query {A} (c : Call) (answer : World -> result A) :
  (forall f, P (EvCall c f) = true) -> only P (query c answer).
Proof. intros H. apply only_call, H. Qed.

Lemma only_bind {A B} (m : M A) (k : A -> M B) :
  only P m -> (forall a, only P (k a)) -> only P (bind m k).
Proof.
  intros Hm Hk w. unfold bind.
  destruct (res (m w)) eqn:E; simpl.
  - rewrite forallb_app, Hm, Hk. reflexivity.
  - apply Hm.
Qed.

Lemma only_attempt {A} (m : M A) : only P m -> only P (attempt m).
Proof. intros Hm w. apply Hm. Qed.

Lemma only_wrapping {A} (prefix : string) (m : M A) :
  only P m -> only P (wrapping prefix m).
Proof.
  intros Hm w. apply Hm.
Qed.

Lemma only_forEach {A} (xs : list A) (body : A -> M unit) :
  (forall x, only P (body x)) -> only P (forEach xs body).
Proof.
  intros Hb. induction xs as [|x xs IH]; simpl.
  - apply only_ret.
  - apply only_bind; [apply Hb | intros _; exact IH].
Qed.
End Only.

(** One step of a proof of [only P m], by the shape of [m]. *)
Ltac only_step :=
  match goal with
  | |- only _ (bind _ _) => apply only_bind; [|intros]
  | |- only _ (attempt _) => apply only_attempt
  | |- only _ (wrapping _ _) => apply only_wrapping
  | |- only _ (forEach _ _) => apply only_forEach; intros
  | |- only _ (ret _) => apply only_ret
  | |- only _ (fail _) => apply only_fail
  | |- only _ (lift _) => apply only_lift
  | |- only _ (Getenv _) => apply only_Getenv
  | |- only _ (log _) => apply only_log; reflexivity
  | |- only _ (call _ _) => apply only_call; intros; reflexivity
  | |- only _ (query _ _) => apply only_query; intros; reflexivity
  | |- only _ (match ?x with _ => _ end) => destruct x
  | |- only _ (let _ := _ in _) => cbv zeta
  end.


Lemma steady_ret {A} (a : A) : steady (ret a).
Proof. intros w. reflexivity. Qed.

Lemma steady_fail {A} (e : error) : steady (@fail A e).
Proof. intros w. reflexivity. Qed.

Lemma steady_lift {A} (r : result A) : steady (lift r).
Proof. intros w. reflexivity. Qed.

Lemma steady_Getenv (k : string) : steady (Getenv k).
Proof. intros w. reflexivity. Qed.

Lemma steady_log (l : LogLine) : steady (log l).
Proof. intros w. reflexivity. Qed.

Lemma steady_call {A} (c : Call) (answer : World -> result A * EcrState) :
  steady (call c answer).
Proof.
  intros w. unfold call.
  destruct (fault (dep w) (clock w) c); [|destruct (answer w)]; reflexivity.
Qed.

Lemma steady_bind {A B} (m : M A) (k : A -> M B) :
  steady m -> (forall a, steady (k a)) -> steady (bind m k).
Proof.
  intros Hm Hk w. unfold bind.
  destruct (res (m w)) eqn:E; simpl.
  - rewrite Hk. apply Hm.
  - apply Hm.
Qed.

Lemma steady_attempt {A} (m : M A) : steady m -> steady (attempt m).
Proof. intros Hm w. apply Hm. Qed.

Lemma steady_wrapping {A} (prefix : string) (m : M A) :
  steady m -> steady (wrapping prefix m).
Proof.
  intros Hm w. apply Hm.
Qed.

Lemma steady_forEach {A} (xs : list A) (body : A -> M unit) :
  (forall x, steady (body x)) -> steady (forEach xs body).
Proof.
  intros Hb. induction xs as [|x xs IH]; simpl.
  - apply steady_ret.
  - apply steady_bind; [apply Hb | intros _; exact IH].
Qed.

Ltac steady_step :=
  match goal with
  | |- steady (bind _ _) => apply steady_bind; [|intros]
  | |- steady (attempt _) => apply steady_attempt
  | |- steady (wrapping _ _) => apply steady_wrapping
  | |- steady (forEach _ _) => apply steady_forEach; intros
  | |- steady (ret _) => apply steady_ret
  | |- steady (fail _) => apply steady_fail
  | |- steady (lift _) => apply steady_lift
  | |- steady (Getenv _) => apply steady_Getenv
  | |- steady (log _) => apply steady_log
  | |- steady (call _ _) => apply steady_call
  | |- steady (query _ _) => apply steady_call
  | |- steady (match ?x with _ => _ end) => destruct x
  | |- steady (let _ := _ in _) => cbv zeta
  end.

(* ------------------------------------------------------------------ *)
(** ** The repository list *)


Lemma normalizeRepoList_fold (L : GoLib) (input acc : list string) :
  fold_left
    (fun out s =>
       let t := TrimSpace L s in
       if isEmpty t then out else (out ++ [t])%list)
    input acc
  = (acc ++ filter nonblank (map (TrimSpace L) input))%list.
Proof.
  revert acc. induction input as [|s input IH]; intros acc; simpl.
  - symmetry. apply app_nil_r.
  - rewrite IH. unfold nonblank.
    destruct (isEmpty (TrimSpace L s)); simpl.
    + reflexivity.
    + rewrite <- app_assoc. reflexivity.
Qed.

(** The loop of [normalizeRepoList] keeps, in order, the trimmed entries
    that are not blank. *)
Lemma normalizeRepoList_filter (L : GoLib) (input : list string) :
  Chain.normalizeRepoList L input = filter nonblank (map (TrimSpace L) input).
Proof. unfold Chain.normalizeRepoList. apply normalizeRepoList_fold. Qed.

Lemma count_occ_filter_nonblank (l : list string) (t : string) :
  t <> "" ->
  count_occ string_dec (filter nonblank l) t = count_occ string_dec l t.
Proof.
  intros Ht. induction l as [|x l IH]; simpl; [reflexivity|].
  unfold nonblank at 1. unfold isEmpty.
  destruct (String.eqb_spec x ""); simpl.
  - subst x. destruct (string_dec "" t); [congruence | exact IH].
  - destruct (string_dec x t); rewrite IH; reflexivity.
Qed.

Lemma yields_ret {A} (Q : A -> Prop) (a : A) : Q a -> yields Q (ret a).
Proof. intros H w a' E. inversion E. subst. exact H. Qed.

Lemma yields_fail {A} (Q : A -> Prop) (e : error) : yields Q (fail e).
Proof. intros w a E. discriminate. Qed.

Lemma yields_bind {A B} (Q : B -> Prop) (m : M A) (k : A -> M B) :
  (forall a, yields Q (k a)) -> yields Q (bind m k).
Proof.
  intros Hk w b. unfold bind. destruct (res (m w)) as [a|e]; simpl.
  - apply Hk.
  - discriminate.
Qed.

Lemma yields_wrapping {A} (Q : A -> Prop) (prefix : string) (m : M A) :
  yields Q m -> yields Q (wrapping prefix m).
Proof.
  intros Hm w a. unfold wrapping; simpl.
  destruct (res (m w)) as [a'|e] eqn:E; [|discriminate].
  intros H. inversion H. subst. apply (Hm w), E.
Qed.

Ltac yields_step :=
  match goal with
  | |- yields _ (bind _ _) => apply yields_bind; intros
  | |- yields _ (wrapping _ _) => apply yields_wrapping
  | |- yields _ (fail _) => apply yields_fail
  | |- yields _ (ret _) => apply yields_ret
  | |- yields _ (match ?x with _ => _ end) => destruct x
  | |- yields _ (let _ := _ in _) => cbv zeta
  end.

(** What [loadRepoList] can return: a normalized list, or the three fixed
    repositories. *)
Lemma loadRepoList_cases (L : GoLib) (w : World) (repos : list string) :
  res (Chain.loadRepoList L w) = Ok repos ->
  (exists input, repos = Chain.normalizeRepoList L input) \/
  (exists registry group,
      repos = [ registry ++ "/" ++ group ++ "/foo";
                registry ++ "/" ++ group ++ "/bar";
                registry ++ "/" ++ group ++ "/baz" ]).
Proof.
  revert w repos.
  change (yields (fun repos =>
            (exists input, repos = Chain.normalizeRepoList L input) \/
            (exists registry group,
                repos = [ registry ++ "/" ++ group ++ "/foo";
                          registry ++ "/" ++ group ++ "/bar";
                          registry ++ "/" ++ group ++ "/baz" ]))
            (Chain.loadRepoList L)).
  unfold Chain.loadRepoList, Chain.loadReposFromSSM, Chain.fallbackRepoList.
  repeat yields_step;
    try (left; eexists; reflexivity);
    right; do 2 eexists; reflexivity.
Qed.




(* ------------------------------------------------------------------ *)
(** ** Calls *)

Lemma call_events {A} (c : Call) (answer : World -> result A * EcrState) (w : World) :
  events (call c answer w) = [EvCall c (errOf (res (call c answer w)))].
Proof.
  unfold call. destruct (fault (dep w) (clock w) c); [|destruct (answer w)];
    reflexivity.
Qed.

Lemma query_ecr {A} (c : Call) (answer : World -> result A) (w : World) :
  ecr (after (query c answer w)) = ecr w.
Proof.
  unfold query, call. destruct (fault (dep w) (clock w) c); reflexivity.
Qed.

Lemma query_events {A} (c : Call) (answer : World -> result A) (w : World) :
  events (query c answer w) = [EvCall c (errOf (res (query c answer w)))].
Proof. apply call_events. Qed.

(** A call that fails leaves the destination registry as it was. *)
Lemma call_Err_ecr {A} (c : Call) (answer : World -> result A * EcrState)
    (w : World) (e : error) :
  (forall w' r s, answer w' = (r, s) -> isOk r = false -> s = ecr w') ->
  res (call c answer w) = Err e -> ecr (after (call c answer w)) = ecr w.
Proof.
  intros Ha. unfold call.
  destruct (fault (dep w) (clock w) c); [reflexivity|].
  destruct (answer w) as [r s] eqn:E. simpl. intros Hr.
  apply (Ha w r s E). rewrite Hr. reflexivity.
Qed.

(* ------------------------------------------------------------------ *)
(** ** The digest skip decision *)

Lemma alreadyPresent_iff (lookup : result BatchGetImageOutput) (srcDigest : string) :
  Chain.alreadyPresent lookup srcDigest = true <-> destDigest lookup = Some srcDigest.
Proof.
  unfold Chain.alreadyPresent, destDigest.
  destruct lookup as [out|e]; [|split; discriminate].
  destruct (Images out) as [|img imgs]; [split; discriminate|].
  destruct (ImageId img) as [id|]; [|split; discriminate].
  destruct (ImageDigest id) as [existing|]; [|split; discriminate].
  rewrite String.eqb_eq. split; intros H; [subst|inversion H]; reflexivity.
Qed.

Lemma Hash_String_notEmpty (h : Hash) : isEmpty (Hash_String h) = false.
Proof. unfold Hash_String. destruct (Algorithm h); reflexivity. Qed.

(** The copy step logs no skip and starts with a read of the image or of
    the index. *)
Lemma copy_no_skip (src dst : string) (dstRef : Reference) (desc : Descriptor)
    (dstAuth : Basic) :
  only (fun ev => negb (isSkipLog ev))
       (Chain.mirrorSingleRepo_copy src dst dstRef desc dstAuth).
Proof.
  unfold Chain.mirrorSingleRepo_copy, Descriptor_Image, Descriptor_ImageIndex,
    remote_Write, remote_WriteIndex.
  repeat only_step.
Qed.

Lemma wrapping_events {A} (prefix : string) (m : M A) (w : World) :
  events (wrapping prefix m w) = events (m w).
Proof. reflexivity. Qed.

Lemma wrapping_after {A} (prefix : string) (m : M A) (w : World) :
  after (wrapping prefix m w) = after (m w).
Proof. reflexivity. Qed.

Lemma wrapping_isOk {A} (prefix : string) (m : M A) (w : World) :
  isOk (res (wrapping prefix m w)) = isOk (res (m w)).
Proof. unfold wrapping; simpl. destruct (res (m w)); reflexivity. Qed.

Lemma wrapping_Ok {A} (prefix : string) (m : M A) (w : World) (a : A) :
  res (wrapping prefix m w) = Ok a <-> res (m w) = Ok a.
Proof. unfold wrapping; simpl. destruct (res (m w)); split; congruence. Qed.

Lemma bind_events_prefix {A B} (m : M A) (k : A -> M B) (w : World) :
  exists rest, events (bind m k w) = (events (m w) ++ rest)%list.
Proof.
  unfold bind. destruct (res (m w)); simpl.
  - eexists; reflexivity.
  - exists []. symmetry. apply app_nil_r.
Qed.

Lemma copy_starts (src dst : string) (dstRef : Reference) (desc : Descriptor)
    (dstAuth : Basic) (w : World) :
  exists ev evs,
    events (Chain.mirrorSingleRepo_copy src dst dstRef desc dstAuth w) = ev :: evs /\
    isTransferStart ev = true.
Proof.
  unfold Chain.mirrorSingleRepo_copy, Descriptor_Image, Descriptor_ImageIndex.
  destruct (IsIndex (MediaType desc));
    match goal with
    | |- context [events (bind ?m ?k w)] =>
        destruct (bind_events_prefix m k w) as [rest ->]
    end;
    rewrite wrapping_events, query_events; simpl;
    do 2 eexists; split; reflexivity.
Qed.

(** The step of a tag whose source descriptor was fetched: the lookup, then
    the skip or the copy. *)
Lemma mirrorSingleRepo_tag_fetched (L : GoLib) (w : World)
    (srcRepo ecrEndpoint dstRepoName : string) (srcAuth dstAuth : Basic)
    (tag : string) (srcRef dstRef : Reference) (desc : Descriptor) :
  name_ParseReference L (srcRepo ++ ":" ++ tag) = Ok srcRef ->
  name_ParseReference L (ecrEndpoint ++ "/" ++ dstRepoName ++ ":" ++ tag) = Ok dstRef ->
  res (remote_Get srcRef srcAuth w) = Ok desc ->
  let get := remote_Get srcRef srcAuth w in
  let lookup := ecr_BatchGetImage dstRepoName tag (after get) in
  let copy := Chain.mirrorSingleRepo_copy
                (srcRepo ++ ":" ++ tag)
                (ecrEndpoint ++ "/" ++ dstRepoName ++ ":" ++ tag)
                dstRef desc dstAuth (after lookup) in
  Chain.mirrorSingleRepo_tag L srcRepo ecrEndpoint dstRepoName srcAuth dstAuth tag w
  = if Chain.alreadyPresent (res lookup) (Hash_String (Digest desc))
    then mkOut (Ok tt) (after lookup)
               (events get ++ events lookup ++
                [EvLog (LogSkipping srcRepo tag (Hash_String (Digest desc)))])%list
    else mkOut (res copy) (after copy)
               (events get ++ events lookup ++ events copy)%list.
Proof.
  intros Hs Hd Hg. cbv zeta.
  unfold Chain.mirrorSingleRepo_tag. rewrite Hs, Hd.
  unfold bind, wrapping, lift, attempt; simpl. rewrite Hg; simpl.
  destruct (Chain.alreadyPresent _ _); reflexivity.
Qed.

Lemma decisionOf_neutral_app (evs evs' : list Event) :
  forallb neutral evs = true -> decisionOf (evs ++ evs') = decisionOf evs'.
Proof.
  intros H. unfold decisionOf. rewrite !existsb_app.
  assert (existsb isSkipLog evs = false /\ existsb isTransferStart evs = false)
    as [-> ->]; [|reflexivity].
  induction evs as [|ev evs IH]; simpl in *; [split; reflexivity|].
  apply andb_prop in H. destruct H as [Hev H]. unfold neutral in Hev.
  apply andb_prop in Hev. destruct Hev as [H1 H2].
  apply negb_true_iff in H1, H2. rewrite H1, H2. simpl. apply IH, H.
Qed.

Lemma decisionOf_copy (evs : list Event) :
  forallb (fun ev => negb (isSkipLog ev)) evs = true ->
  (exists ev evs', evs = ev :: evs' /\ isTransferStart ev = true) ->
  decisionOf evs = Some Transfer.
Proof.
  intros Hno (ev & evs' & -> & Hev). unfold decisionOf.
  assert (existsb isSkipLog (ev :: evs') = false) as ->.
  { clear Hev. induction (ev :: evs') as [|x l IH]; simpl in *; [reflexivity|].
    apply andb_prop in Hno. destruct Hno as [Hx Hl].
    apply negb_true_iff in Hx. rewrite Hx. simpl. apply IH, Hl. }
  simpl. rewrite Hev. reflexivity.
Qed.

Lemma transfers_app (evs evs' : list Event) :
  transfers (evs ++ evs') = (transfers evs ++ transfers evs')%list.
Proof. unfold transfers. apply filter_app. Qed.

Lemma fullsync_copy_no_skip (L : GoLib) (src dst : string) (kc : Keychain) :
  only (fun ev => negb (isSkipLog ev)) (FullSync.handler_copy L src dst kc).
Proof.
  unfold FullSync.handler_copy, FullSync.copyImage, FullSync.crane_Copy.
  repeat only_step.
Qed.

Lemma ecrTagDigest_neutral (repo tag : string) :
  only neutral (FullSync.ecrTagDigest repo tag).
Proof.
  unfold FullSync.ecrTagDigest, ecr_DescribeImages.
  repeat only_step.
Qed.

(** The full-sync step of a tag whose source digest was fetched. *)
Lemma handler_tag_fetched (L : GoLib) (w : World)
    (fullSrcRepo dstHost dstRepo : string) (kc : Keychain) (tag srcDigest : string) :
  let src := fullSrcRepo ++ ":" ++ tag in
  let dst := dstHost ++ "/" ++ dstRepo ++ ":" ++ tag in
  res (FullSync.crane_Digest L src kc w) = Ok srcDigest ->
  let get := FullSync.crane_Digest L src kc w in
  let lookup := FullSync.ecrTagDigest dstRepo tag (after get) in
  let copy := FullSync.handler_copy L src dst kc (after lookup) in
  FullSync.handler_tag L fullSrcRepo dstHost dstRepo kc tag w
  = match res lookup with
    | Err err =>
        mkOut (res copy) (after copy)
              (events get ++ events lookup
               ++ EvLog (LogCheckDstFailed dst dstRepo tag err) :: events copy)%list
    | Ok (dstDigest, exists_) =>
        if exists_ && negb (isEmpty srcDigest) && String.eqb dstDigest srcDigest
        then mkOut (Ok tt) (after lookup)
                   (events get ++ events lookup
                    ++ [EvLog (LogSkipSameDigest src dst srcDigest)])%list
        else mkOut (res copy) (after copy)
                   (events get ++ events lookup ++ events copy)%list
    end.
Proof.
  cbv zeta. intros Hg.
  unfold FullSync.handler_tag, bind, attempt, ret, log;
    cbn -[FullSync.crane_Digest FullSync.ecrTagDigest FullSync.handler_copy].
  cbn -[FullSync.crane_Digest] in Hg.
  rewrite Hg; cbn -[FullSync.crane_Digest FullSync.ecrTagDigest FullSync.handler_copy].
  destruct (res (FullSync.ecrTagDigest dstRepo tag _)) as [[dd ex]|err];
    cbn -[FullSync.crane_Digest FullSync.ecrTagDigest FullSync.handler_copy].
  - destruct (ex && negb (isEmpty srcDigest) && String.eqb dd srcDigest);
      cbn -[FullSync.crane_Digest FullSync.ecrTagDigest FullSync.handler_copy];
      rewrite ?app_nil_r; reflexivity.
  - match goal with
    | |- context [res (FullSync.handler_copy L ?a ?b kc ?c)] =>
        destruct (res (FullSync.handler_copy L a b kc c))
    end; reflexivity.
Qed.

Lemma crane_Digest_notEmpty (L : GoLib) (ref : string) (kc : Keychain)
    (w : World) (d : string) :
  res (FullSync.crane_Digest L ref kc w) = Ok d -> isEmpty d = false.
Proof.
  unfold FullSync.crane_Digest, query, call.
  destruct (fault (dep w) (clock w) (CDigest ref kc)); [discriminate|].
  destruct (name_ParseReference L ref); [|discriminate].
  destruct (src_manifest (dep w) a); [|discriminate].
  simpl. intros H. inversion H. apply Hash_String_notEmpty.
Qed.

Lemma fullsync_copy_starts (L : GoLib) (src dst : string) (kc : Keychain) (w : World) :
  exists ev evs,
    events (FullSync.handler_copy L src dst kc w) = ev :: evs /\
    isTransferStart ev = true.
Proof.
  unfold FullSync.handler_copy.
  match goal with
  | |- context [events (bind ?m ?k w)] =>
      destruct (bind_events_prefix m k w) as [rest ->]
  end.
  simpl. do 2 eexists; split; reflexivity.
Qed.

Lemma remote_Get_neutral (ref : Reference) (auth : Basic) :
  only neutral (remote_Get ref auth).
Proof. unfold remote_Get. repeat only_step. Qed.

Lemma ecr_BatchGetImage_neutral (repo tag : string) :
  only neutral (ecr_BatchGetImage repo tag).
Proof. unfold ecr_BatchGetImage. repeat only_step. Qed.

Lemma crane_Digest_neutral (L : GoLib) (ref : string) (kc : Keychain) :
  only neutral (FullSync.crane_Digest L ref kc).
Proof. unfold FullSync.crane_Digest. repeat only_step. Qed.

Lemma remote_Get_no_write (ref : Reference) (auth : Basic) :
  only (fun ev => negb (isWrite ev)) (remote_Get ref auth).
Proof. unfold remote_Get. repeat only_step. Qed.

Lemma ecr_BatchGetImage_no_write (repo tag : string) :
  only (fun ev => negb (isWrite ev)) (ecr_BatchGetImage repo tag).
Proof. unfold ecr_BatchGetImage. repeat only_step. Qed.

Lemma crane_Digest_no_write (L : GoLib) (ref : string) (kc : Keychain) :
  only (fun ev => negb (isWrite ev)) (FullSync.crane_Digest L ref kc).
Proof. unfold FullSync.crane_Digest. repeat only_step. Qed.

Lemma ecrTagDigest_no_write (repo tag : string) :
  only (fun ev => negb (isWrite ev)) (FullSync.ecrTagDigest repo tag).
Proof. unfold FullSync.ecrTagDigest, ecr_DescribeImages. repeat only_step. Qed.

Lemma transfers_none (evs : list Event) :
  forallb (fun ev => negb (isWrite ev)) evs = true -> transfers evs = [].
Proof.
  unfold transfers. induction evs as [|ev evs IH]; simpl; [reflexivity|].
  intros H. apply andb_prop in H. destruct H as [Hev H].
  apply negb_true_iff in Hev. rewrite Hev. apply IH, H.
Qed.

Lemma ecrTagDigest_ecr (repo tag : string) (w : World) :
  ecr (after (FullSync.ecrTagDigest repo tag w)) = ecr w.
Proof.
  unfold FullSync.ecrTagDigest, bind, attempt; simpl.
  pose proof (query_ecr (CDescribeImages repo tag)
    (fun w0 => if hasRepository (ecr w0) repo
               then match recordedDigest (ecr w0) repo tag with
                    | Some d => Ok (mkDescribeImagesOutput [mkImageDetail (Some d)])
                    | None => Err (apiError ImageNotFoundException tag)
                    end
               else Err (apiError RepositoryNotFoundException repo)) w) as E.
  fold (ecr_DescribeImages repo tag) in E.
  destruct (res (ecr_DescribeImages repo tag w)) as [out|err]; simpl.
  - destruct (ImageDetails out) as [|d ds]; [exact E|].
    destruct (DetailDigest d); exact E.
  - destruct (strings.Contains (Error err) RepositoryNotFoundException); exact E.
Qed.

Ltac calm :=
  cbn -[FullSync.crane_Digest FullSync.ecrTagDigest FullSync.handler_copy
        remote_Get ecr_BatchGetImage Chain.mirrorSingleRepo_copy].



(* ------------------------------------------------------------------ *)
(** ** Failures of the destination lookup *)

(** The full-sync step of a tag, whatever the fetch of the source digest
    gave. *)
Lemma handler_tag_run (L : GoLib) (w : World)
    (fullSrcRepo dstHost dstRepo : string) (kc : Keychain) (tag : string) :
  let src := fullSrcRepo ++ ":" ++ tag in
  let dst := dstHost ++ "/" ++ dstRepo ++ ":" ++ tag in
  let get := FullSync.crane_Digest L src kc w in
  let srcDigest := match res get with Ok s => s | Err _ => "" end in
  let getLog := match res get with
                | Ok _ => []
                | Err err => [EvLog (LogDigestSrcFailed src err)]
                end in
  let lookup := FullSync.ecrTagDigest dstRepo tag (after get) in
  let copy := FullSync.handler_copy L src dst kc (after lookup) in
  FullSync.handler_tag L fullSrcRepo dstHost dstRepo kc tag w
  = match res lookup with
    | Err err =>
        mkOut (res copy) (after copy)
              (events get ++ getLog ++ events lookup
               ++ EvLog (LogCheckDstFailed dst dstRepo tag err) :: events copy)%list
    | Ok (dstDigest, exists_) =>
        if exists_ && negb (isEmpty srcDigest) && String.eqb dstDigest srcDigest
        then mkOut (Ok tt) (after lookup)
                   (events get ++ getLog ++ events lookup
                    ++ [EvLog (LogSkipSameDigest src dst srcDigest)])%list
        else mkOut (res copy) (after copy)
                   (events get ++ getLog ++ events lookup ++ events copy)%list
    end.
Proof.
  cbv zeta.
  unfold FullSync.handler_tag, bind, attempt, ret, log; calm.
  destruct (res (FullSync.crane_Digest L _ kc w)) as [s|e]; calm.
  - destruct (res (FullSync.ecrTagDigest dstRepo tag _)) as [[dd ex]|err]; calm.
    + destruct (ex && negb (isEmpty s) && String.eqb dd s); calm;
        rewrite ?app_nil_r; reflexivity.
    + match goal with
      | |- context [res (FullSync.handler_copy L ?a ?b kc ?c)] =>
          destruct (res (FullSync.handler_copy L a b kc c))
      end; reflexivity.
  - destruct (res (FullSync.ecrTagDigest dstRepo tag _)) as [[dd ex]|err]; calm.
    + rewrite andb_false_r. calm. rewrite <- ?app_assoc. reflexivity.
    + rewrite <- ?app_assoc.
      match goal with
      | |- context [res (FullSync.handler_copy L ?a ?b kc ?c)] =>
          destruct (res (FullSync.handler_copy L a b kc c))
      end; reflexivity.
Qed.

(** The copy of the full-sync handler never fails: its error is logged. *)
Lemma handler_copy_Ok (L : GoLib) (src dst : string) (kc : Keychain) (w : World) :
  res (FullSync.handler_copy L src dst kc w) = Ok tt.
Proof.
  unfold FullSync.handler_copy, bind, attempt, log, ret; simpl.
  destruct (res (FullSync.copyImage L src dst kc w)); reflexivity.
Qed.

(** The step of a tag of the full-sync handler never fails. *)
Lemma handler_tag_Ok (L : GoLib) (w : World)
    (fullSrcRepo dstHost dstRepo : string) (kc : Keychain) (tag : string) :
  res (FullSync.handler_tag L fullSrcRepo dstHost dstRepo kc tag w) = Ok tt.
Proof.
  rewrite handler_tag_run.
  destruct (res (FullSync.ecrTagDigest dstRepo tag _)) as [[dd ex]|err].
  - match goal with |- context [if ?b then _ else _] => destruct b end;
      [reflexivity | apply handler_copy_Ok].
  - apply handler_copy_Ok.
Qed.

(** When [DescribeImages] fails, [ecrTagDigest] reports no digest. *)
Lemma ecrTagDigest_failed (repo tag : string) (w : World) :
  isOk (res (ecr_DescribeImages repo tag w)) = false ->
  destDigestOf (res (FullSync.ecrTagDigest repo tag w)) = None.
Proof.
  unfold FullSync.ecrTagDigest, bind, attempt; simpl.
  destruct (res (ecr_DescribeImages repo tag w)) as [out|err]; [discriminate|].
  intros _. simpl.
  destruct (strings.Contains (Error err) RepositoryNotFoundException); reflexivity.
Qed.

(** C6. When the destination digest lookup of a tag fails, or reports that
    the tag is not found, the decision is Transfer: the failure of the
    lookup is not an error of the step, whose outcome is that of the copy,
    and it never makes the step skip the tag. This holds for the chained
    handler and for the full-sync handler, where the step never fails. *)
Theorem lookup_failure_means_transfer (L : GoLib) :
  (forall (w : World) (srcRepo ecrEndpoint dstRepoName : string)
          (srcAuth dstAuth : Basic) (tag : string)
          (srcRef dstRef : Reference) (desc : Descriptor),
      name_ParseReference L (srcRepo ++ ":" ++ tag) = Ok srcRef ->
      name_ParseReference L (ecrEndpoint ++ "/" ++ dstRepoName ++ ":" ++ tag)
      = Ok dstRef ->
      res (remote_Get srcRef srcAuth w) = Ok desc ->
      let get := remote_Get srcRef srcAuth w in
      let lookup := ecr_BatchGetImage dstRepoName tag (after get) in
      let copy := Chain.mirrorSingleRepo_copy
                    (srcRepo ++ ":" ++ tag)
                    (ecrEndpoint ++ "/" ++ dstRepoName ++ ":" ++ tag)
                    dstRef desc dstAuth (after lookup) in
      let o := Chain.mirrorSingleRepo_tag L srcRepo ecrEndpoint dstRepoName
                 srcAuth dstAuth tag w in
      isOk (res lookup) = false \/
      (exists out, res lookup = Ok out /\ Images out = []) ->
      decisionOf (events o) = Some Transfer /\
      res o = res copy /\ after o = after copy /\
      events o = (events get ++ events lookup ++ events copy)%list) /\
  (forall (w : World) (fullSrcRepo dstHost dstRepo : string) (kc : Keychain)
          (tag : string),
      let get := FullSync.crane_Digest L (fullSrcRepo ++ ":" ++ tag) kc w in
      let lookup := FullSync.ecrTagDigest dstRepo tag (after get) in
      let o := FullSync.handler_tag L fullSrcRepo dstHost dstRepo kc tag w in
      isOk (res (ecr_DescribeImages dstRepo tag (after get))) = false \/
      isOk (res lookup) = false \/
      (exists d, res lookup = Ok (d, false)) ->
      decisionOf (events o) = Some Transfer /\ res o = Ok tt).
Proof.
  split.
  - intros w srcRepo ecrEndpoint dstRepoName srcAuth dstAuth tag srcRef dstRef desc
           Hs Hd Hg get lookup copy o Hl.
    subst o. rewrite (mirrorSingleRepo_tag_fetched L w _ _ _ _ dstAuth _ Hs Hd Hg).
    fold get. fold lookup. fold copy.
    assert (Hp : Chain.alreadyPresent (res lookup) (Hash_String (Digest desc)) = false).
    { destruct Hl as [Hl|(out & Hl & Hi)].
      - destruct (res lookup); [discriminate | reflexivity].
      - rewrite Hl. simpl. rewrite Hi. reflexivity. }
    rewrite Hp. simpl. repeat split.
    rewrite !decisionOf_neutral_app.
    + apply decisionOf_copy; [apply copy_no_skip | apply copy_starts].
    + apply ecr_BatchGetImage_neutral.
    + apply remote_Get_neutral.
  - intros w fullSrcRepo dstHost dstRepo kc tag get lookup o Hl.
    assert (Hn : destDigestOf (res lookup) = None).
    { destruct Hl as [Hl|[Hl|(d & Hl)]].
      - apply ecrTagDigest_failed, Hl.
      - destruct (res lookup); [discriminate | reflexivity].
      - rewrite Hl. reflexivity. }
    split; [|apply handler_tag_Ok].
    subst o. rewrite handler_tag_run. fold get. fold lookup.
    assert (Hcopy : forall w',
               decisionOf (events (FullSync.handler_copy L (fullSrcRepo ++ ":" ++ tag)
                                     (dstHost ++ "/" ++ dstRepo ++ ":" ++ tag) kc w'))
               = Some Transfer).
    { intros w'. apply decisionOf_copy.
      - apply fullsync_copy_no_skip.
      - apply fullsync_copy_starts. }
    assert (Ng : forallb neutral (events get) = true)
      by apply crane_Digest_neutral.
    assert (Nl : forallb neutral (events lookup) = true)
      by apply ecrTagDigest_neutral.
    assert (Nlog : forallb neutral
                     match res get with
                     | Ok _ => []
                     | Err err => [EvLog (LogDigestSrcFailed (fullSrcRepo ++ ":" ++ tag) err)]
                     end = true)
      by (destruct (res get); reflexivity).
    destruct (res lookup) as [[dd ex]|err]; calm.
    + destruct ex; [discriminate|]. calm.
      rewrite !decisionOf_neutral_app by assumption. apply Hcopy.
    + rewrite !decisionOf_neutral_app by assumption.
      change (EvLog ?l :: ?r) with ([EvLog l] ++ r)%list.
      rewrite decisionOf_neutral_app by reflexivity. apply Hcopy.
Qed.

Lemma lookup_failure_means_transfer_witness :
  let w := Demo.world Demo.chainEnv Demo.lookupFault Demo.oneMirrored in
  let f := Demo.world Demo.fullsyncEnv Demo.lookupFault Demo.oneMirrored in
  (name_ParseReference Demo.lib ("cgr.dev/g/app" ++ ":" ++ "v1")
   = Ok (mkReference Demo.app "v1") /\
   name_ParseReference Demo.lib (Demo.endpoint ++ "/" ++ "g/app" ++ ":" ++ "v1")
   = Ok (mkReference (mkRepository Demo.endpoint "g/app") "v1") /\
   res (remote_Get (mkReference Demo.app "v1") Demo.srcAuth w) = Ok Demo.app_v1 /\
   isOk (res (ecr_BatchGetImage "g/app" "v1"
                (after (remote_Get (mkReference Demo.app "v1") Demo.srcAuth w))))
   = false /\
   decisionOf (events (Chain.mirrorSingleRepo_tag Demo.lib "cgr.dev/g/app"
                         Demo.endpoint "g/app" Demo.srcAuth Demo.dstAuth "v1" w))
   = Some Transfer) /\
  (isOk (res (ecr_DescribeImages "g/app" "v1"
                (after (FullSync.crane_Digest Demo.lib ("cgr.dev/g/app" ++ ":" ++ "v1")
                          Demo.kc f))))
   = false /\
   decisionOf (events (FullSync.handler_tag Demo.lib "cgr.dev/g/app"
                         Demo.endpoint "g/app" Demo.kc "v1" f))
   = Some Transfer).
Proof.
  intros w f.
  destruct (lookup_failure_means_transfer Demo.lib) as [Hc Hf].
  split.
  - split; [reflexivity|]. split; [reflexivity|]. split; [reflexivity|].
    split; [reflexivity|].
    apply (Hc w "cgr.dev/g/app" Demo.endpoint "g/app" Demo.srcAuth Demo.dstAuth "v1"
              (mkReference Demo.app "v1")
              (mkReference (mkRepository Demo.endpoint "g/app") "v1")
              Demo.app_v1 eq_refl eq_refl eq_refl).
    left. reflexivity.
  - split; [reflexivity|].
    apply (Hf f "cgr.dev/g/app" Demo.endpoint "g/app" Demo.kc "v1").
    left. reflexivity.
Defined.

(* ------------------------------------------------------------------ *)
(** ** The chain scheduler *)

(** [handler] is [handler_run] on the event of the invocation and on the
    list that was resolved. *)
Lemma handler_unfold (L : GoLib) (raw : string) (w : World) :
  let ev := Chain.handler_event L raw w in
  Chain.handler L raw w
  = match res ev with
    | Ok evt =>
        let load := Chain.loadRepoList L (after ev) in
        match res load with
        | Ok repos =>
            let run := Chain.handler_run L evt repos (after load) in
            mkOut (res run) (after run) (events ev ++ events load ++ events run)%list
        | Err err =>
            mkOut (Err (Errorf_w "load repo list" err)) (after load)
                  (events ev ++ events load)%list
        end
    | Err err => mkOut (Err err) (after ev) (events ev)
    end.
Proof.
  cbv zeta. unfold Chain.handler, bind, wrapping.
  cbn -[Chain.handler_event Chain.loadRepoList Chain.handler_run].
  destruct (res (Chain.handler_event L raw w)); [|reflexivity].
  cbn -[Chain.handler_event Chain.loadRepoList Chain.handler_run].
  destruct (res (Chain.loadRepoList L _)); reflexivity.
Qed.

(** The event of an invocation whose payload decodes. *)
Lemma handler_event_decoded (L : GoLib) (raw : string) (w : World) (evt : JobEvent) :
  raw <> "" ->
  json_Unmarshal_JobEvent L raw = Ok evt ->
  Chain.handler_event L raw w = mkOut (Ok evt) w [].
Proof.
  intros Hraw Hdec. unfold Chain.handler_event, Chain.parseJobEvent.
  destruct raw as [|c raw]; [congruence|]. simpl String.length.
  change (S (String.length raw) =? 0)%nat with false. cbv iota.
  rewrite Hdec. reflexivity.
Qed.

(** The event of an invocation whose payload does not decode. *)
Lemma handler_event_undecoded (L : GoLib) (raw : string) (w : World) (err : error) :
  raw <> "" ->
  json_Unmarshal_JobEvent L raw = Err err ->
  Chain.handler_event L raw w
  = mkOut (Ok (mkJobEvent 0 "")) w [EvLog (LogEventParseFailed err)].
Proof.
  intros Hraw Hdec. unfold Chain.handler_event, Chain.parseJobEvent.
  destruct raw as [|c raw]; [congruence|]. simpl String.length.
  change (S (String.length raw) =? 0)%nat with false. cbv iota.
  rewrite Hdec. reflexivity.
Qed.

(** C4. In an indexed invocation over a resolved list of length N, a
    negative index behaves as index 0, and an index that is N or more makes
    the invocation a successful no-op: one log line, no repository
    processed, no continuation, no error, the world untouched. *)
Theorem index_is_clamped (L : GoLib) (evt : JobEvent) (repos : list string)
    (w : World) :
  TrimSpace L (Repo evt) = "" ->
  ((Index evt < 0)%Z ->
   Chain.handler_run L evt repos w
   = Chain.handler_run L (mkJobEvent 0 (Repo evt)) repos w) /\
  ((Index evt < 0)%Z ->
   forall raw raw0,
     raw <> "" -> json_Unmarshal_JobEvent L raw = Ok evt ->
     raw0 <> "" -> json_Unmarshal_JobEvent L raw0 = Ok (mkJobEvent 0 (Repo evt)) ->
     Chain.handler L raw w = Chain.handler L raw0 w) /\
  ((Index evt >= Z.of_nat (List.length repos))%Z ->
   Chain.handler_run L evt repos w
   = mkOut (Ok tt) w
           [EvLog (match repos with
                   | [] => LogNoRepositories
                   | _ => LogNothingToDo (Index evt) (List.length repos)
                   end)]).
Proof.
  intros Hblank.
  assert (Hneg : (Index evt < 0)%Z ->
                 Chain.handler_run L evt repos w
                 = Chain.handler_run L (mkJobEvent 0 (Repo evt)) repos w).
  { intros Hlt. unfold Chain.handler_run. simpl Repo. simpl Index.
    apply Z.ltb_lt in Hlt. rewrite Hlt. reflexivity. }
  split; [exact Hneg|]. split.
  - intros Hlt raw raw0 Hraw Hdec Hraw0 Hdec0.
    pose proof (handler_unfold L raw w) as E. cbv zeta in E.
    pose proof (handler_unfold L raw0 w) as E0. cbv zeta in E0.
    rewrite (handler_event_decoded L w Hraw Hdec) in E.
    rewrite (handler_event_decoded L w Hraw0 Hdec0) in E0.
    rewrite E, E0. cbn [res after events].
    destruct (res (Chain.loadRepoList L w)) as [l|err]; [|reflexivity].
    assert (Hl : Chain.handler_run L evt l (after (Chain.loadRepoList L w))
                 = Chain.handler_run L (mkJobEvent 0 (Repo evt)) l
                     (after (Chain.loadRepoList L w))).
    { unfold Chain.handler_run. simpl Repo. simpl Index.
      apply Z.ltb_lt in Hlt. rewrite Hlt. reflexivity. }
    rewrite Hl. reflexivity.
  - intros Hge. unfold Chain.handler_run.
    destruct repos as [|r repos]; [reflexivity|].
    change (List.length (r :: repos) =? 0)%nat with false. cbv iota.
    rewrite Hblank. change (negb (isEmpty "")) with false. cbv iota.
    assert (Hpos : (Index evt <? 0)%Z = false).
    { apply Z.ltb_ge. simpl List.length in Hge. lia. }
    rewrite Hpos.
    assert (Hn : (Index evt >=? Z.of_nat (List.length (r :: repos)))%Z = true).
    { apply Z.geb_le. lia. }
    rewrite Hn. reflexivity.
Qed.

Lemma index_is_clamped_witness :
  let w := Demo.world Demo.chainEnv Demo.noFault Demo.emptyEcr in
  let repos := ["cgr.dev/g/app"; "cgr.dev/g/web"; "cgr.dev/g/api"] in
  (TrimSpace Demo.lib (Repo (mkJobEvent (-5) "")) = "" /\
   (Index (mkJobEvent (-5) "") < 0)%Z /\
   Chain.handler_run Demo.lib (mkJobEvent (-5) "") repos w
   = Chain.handler_run Demo.lib (mkJobEvent 0 "") repos w) /\
  (TrimSpace Demo.lib (Repo (mkJobEvent 3 "")) = "" /\
   (Index (mkJobEvent 3 "") >= Z.of_nat (List.length repos))%Z /\
   Chain.handler_run Demo.lib (mkJobEvent 3 "") repos w
   = mkOut (Ok tt) w [EvLog (LogNothingToDo 3 3)]).
Proof.
  intros w repos. split.
  - split; [reflexivity|]. split; [reflexivity|].
    apply (index_is_clamped Demo.lib (mkJobEvent (-5) "") repos w eq_refl).
    reflexivity.
  - split; [reflexivity|]. split; [simpl; lia|].
    apply (index_is_clamped Demo.lib (mkJobEvent 3 "") repos w eq_refl).
    simpl; lia.
Defined.

Ltac unfold_services :=
  unfold config_LoadDefaultConfig, ssm_GetParameter, sts_GetCallerIdentity,
    ecr_GetAuthorizationToken, ecr_DescribeRepositories, ecr_CreateRepository,
    ecr_BatchGetImage, ecr_DescribeImages, lambda_Invoke, remote_List,
    remote_Get, Descriptor_Image, Descriptor_ImageIndex, remote_Write,
    remote_WriteIndex.

Ltac unfold_mirror :=
  unfold Chain.mirrorSingleRepo, Chain.mirrorSingleRepo_auth,
    Chain.mirrorSingleRepo_dest, Chain.mirrorSingleRepo_ensure,
    Chain.mirrorSingleRepo_tags, Chain.mirrorSingleRepo_tag,
    Chain.mirrorSingleRepo_copy.

Lemma mirrorSingleRepo_no_invoke (L : GoLib) (srcRepo : string) :
  only notInvoke (Chain.mirrorSingleRepo L srcRepo).
Proof. unfold_mirror. unfold_services. repeat only_step. Qed.

Lemma loadRepoList_no_invoke (L : GoLib) :
  only notInvoke (Chain.loadRepoList L).
Proof.
  unfold Chain.loadRepoList, Chain.loadReposFromSSM, Chain.fallbackRepoList.
  unfold_services. repeat only_step.
Qed.

Lemma handler_event_no_invoke (L : GoLib) (raw : string) :
  only notInvoke (Chain.handler_event L raw).
Proof.
  unfold Chain.handler_event, Chain.parseJobEvent. repeat only_step.
Qed.

Lemma dispatched_none (evs : list Event) :
  forallb notInvoke evs = true -> Chain.dispatched evs = [].
Proof.
  induction evs as [|ev evs IH]; simpl; [reflexivity|].
  intros H. apply andb_prop in H. destruct H as [Hev H].
  rewrite (IH H). destruct ev as [c f|l]; [|reflexivity].
  destruct c; try reflexivity. discriminate.
Qed.

(** The single-shot branch of [handler_run]. *)
Lemma handler_run_explicit (L : GoLib) (evt : JobEvent) (repos : list string)
    (w : World) :
  TrimSpace L (Repo evt) <> "" ->
  repos <> [] ->
  let r := TrimSpace L (Repo evt) in
  let m := Chain.mirrorSingleRepo L r w in
  Chain.handler_run L evt repos w
  = mkOut (match res m with
           | Ok _ => Ok tt
           | Err e => Err (Errorf_w ("mirror explicit repo " ++ Quote L r) e)
           end)
          (after m)
          (EvLog (LogProcessingExplicit r) :: events m ++
           match res m with
           | Ok _ => [EvLog LogDoneExplicit]
           | Err _ => []
           end)%list.
Proof.
  intros Hr Hrepos. cbv zeta. unfold Chain.handler_run.
  destruct repos as [|x repos]; [congruence|].
  change (List.length (x :: repos) =? 0)%nat with false. cbv iota.
  assert (Hne : negb (isEmpty (TrimSpace L (Repo evt))) = true).
  { unfold isEmpty. destruct (String.eqb_spec (TrimSpace L (Repo evt)) "");
      [contradiction | reflexivity]. }
  rewrite Hne. unfold bind, wrapping, log; cbn -[Chain.mirrorSingleRepo].
  destruct (res (Chain.mirrorSingleRepo L (TrimSpace L (Repo evt)) w));
    cbn; rewrite ?app_nil_r; reflexivity.
Qed.

(** C3, as amended. An invocation whose Job Descriptor names a repository
    (its repo field is not blank: not empty once trimmed of surrounding
    white space) never dispatches a continuation, whatever list is
    resolved. When the list resolves and is not empty, the invocation
    processes exactly the trimmed repository and terminates; when it
    resolves to the empty list, the invocation terminates successfully
    without processing the repository. *)
Theorem explicit_repo_never_chains (L : GoLib) (raw : string) (evt : JobEvent)
    (w : World) :
  raw <> "" ->
  json_Unmarshal_JobEvent L raw = Ok evt ->
  TrimSpace L (Repo evt) <> "" ->
  let r := TrimSpace L (Repo evt) in
  let load := Chain.loadRepoList L w in
  let o := Chain.handler L raw w in
  forallb notInvoke (events o) = true /\
  Chain.dispatched (events o) = [] /\
  (forall repos,
      res load = Ok repos -> repos <> [] ->
      let m := Chain.mirrorSingleRepo L r (after load) in
      events o = (events load ++ EvLog (LogProcessingExplicit r) :: events m ++
                  match res m with
                  | Ok _ => [EvLog LogDoneExplicit]
                  | Err _ => []
                  end)%list /\
      isOk (res o) = isOk (res m) /\ after o = after m) /\
  (res load = Ok [] ->
   o = mkOut (Ok tt) (after load) (events load ++ [EvLog LogNoRepositories])%list).
Proof.
  intros Hraw Hdec Hr. cbv zeta.
  pose proof (handler_unfold L raw w) as E. cbv zeta in E.
  rewrite (handler_event_decoded L w Hraw Hdec) in E. cbn [res after events] in E.
  pose proof (loadRepoList_no_invoke L w) as Hl.
  remember (Chain.loadRepoList L w) as load eqn:Eload.
  remember (Chain.handler L raw w) as o eqn:Eo.
  assert (Hm : forallb notInvoke
                 (events (Chain.mirrorSingleRepo L (TrimSpace L (Repo evt))
                            (after load))) = true)
    by apply mirrorSingleRepo_no_invoke.
  assert (Hno : forallb notInvoke (events o) = true).
  { rewrite E.
    destruct (res load) as [repos|err]; cbn [events app]; [|exact Hl].
    rewrite forallb_app, Hl. cbn [andb].
    destruct repos as [|x repos]; [reflexivity|].
    rewrite handler_run_explicit by (assumption || discriminate).
    cbn [events forallb]. rewrite forallb_app, Hm.
    destruct (res (Chain.mirrorSingleRepo L (TrimSpace L (Repo evt)) (after load)));
      reflexivity. }
  split; [exact Hno|]. split; [apply dispatched_none, Hno|]. split.
  - intros repos Hrepos Hne. rewrite E, Hrepos. cbn [res after events app].
    rewrite handler_run_explicit by assumption.
    cbn [res after events].
    split; [reflexivity|]. split; [|reflexivity].
    destruct (res (Chain.mirrorSingleRepo L (TrimSpace L (Repo evt)) (after load)));
      reflexivity.
  - intros Hrepos. rewrite E, Hrepos. reflexivity.
Qed.

Lemma explicit_repo_never_chains_witness :
  let w := Demo.world Demo.chainEnv Demo.noFault Demo.emptyEcr in
  Demo.explicitPayload <> "" /\
  json_Unmarshal_JobEvent Demo.lib Demo.explicitPayload
  = Ok (mkJobEvent 0 "cgr.dev/g/app") /\
  TrimSpace Demo.lib (Repo (mkJobEvent 0 "cgr.dev/g/app")) <> "" /\
  Chain.dispatched (events (Chain.handler Demo.lib Demo.explicitPayload w)) = [].
Proof.
  intros w.
  assert (H1 : Demo.explicitPayload <> "") by discriminate.
  assert (H3 : TrimSpace Demo.lib (Repo (mkJobEvent 0 "cgr.dev/g/app")) <> "")
    by discriminate.
  split; [exact H1|]. split; [reflexivity|]. split; [exact H3|].
  exact (proj1 (proj2 (explicit_repo_never_chains Demo.lib w H1 eq_refl H3))).
Defined.

(** C3 as stated fails on an empty list: the repository the Job Descriptor
    names is not processed, the invocation only logs that there is nothing
    to process. *)
Lemma explicit_repo_ignored_on_empty_list :
  let w := Demo.world Demo.emptyListEnv Demo.noFault Demo.emptyEcr in
  json_Unmarshal_JobEvent Demo.lib Demo.explicitPayload
  = Ok (mkJobEvent 0 "cgr.dev/g/app") /\
  res (Chain.loadRepoList Demo.lib w) = Ok [] /\
  Chain.handler Demo.lib Demo.explicitPayload w
  = mkOut (Ok tt) w [EvLog LogNoRepositories].
Proof. repeat split. Qed.

(* ------------------------------------------------------------------ *)
(** ** What reads an environment variable *)

Section Blind.
Variable key : string.

Lemma blind_ret {A} (a : A) : blind key (ret a).
Proof. intros w v. reflexivity. Qed.

Lemma blind_fail {A} (e : error) : blind key (@fail A e).
Proof. intros w v. reflexivity. Qed.

Lemma blind_lift {A} (r : result A) : blind key (lift r).
Proof. intros w v. reflexivity. Qed.

Lemma blind_log (l : LogLine) : blind key (log l).
Proof. intros w v. reflexivity. Qed.

Lemma blind_Getenv (k : string) : String.eqb k key = false -> blind key (Getenv k).
Proof. intros H w v. unfold Getenv, mapAfter; simpl. rewrite H. reflexivity. Qed.

Lemma blind_call {A} (c : Call) (answer : World -> result A * EcrState) :
  (forall w v, answer (setenv key v w) = answer w) -> blind key (call c answer).
Proof.
  intros Ha w v. unfold call, mapAfter. rewrite Ha. simpl.
  destruct (fault (dep w) (clock w) c); [reflexivity|].
  destruct (answer w); reflexivity.
Qed.

Lemma blind_query {A} (c : Call) (answer : World -> result A) :
  (forall w v, answer (setenv key v w) = answer w) -> blind key (query c answer).
Proof. intros Ha. apply blind_call. intros w v. rewrite Ha. reflexivity. Qed.

Lemma blind_bind {A B} (m : M A) (k : A -> M B) :
  blind key m -> (forall a, blind key (k a)) -> blind key (bind m k).
Proof.
  intros Hm Hk w v. unfold bind. cbv zeta. rewrite !Hm.
  cbn [mapAfter res after events].
  destruct (res (m w)) as [a|e]; [|reflexivity].
  rewrite Hk. reflexivity.
Qed.

Lemma blind_attempt {A} (m : M A) : blind key m -> blind key (attempt m).
Proof. intros Hm w v. unfold attempt. rewrite Hm. reflexivity. Qed.

Lemma blind_wrapping {A} (prefix : string) (m : M A) :
  blind key m -> blind key (wrapping prefix m).
Proof. intros Hm w v. unfold wrapping. rewrite Hm. reflexivity. Qed.

Lemma blind_forEach {A} (xs : list A) (body : A -> M unit) :
  (forall x, blind key (body x)) -> blind key (forEach xs body).
Proof.
  intros Hb. induction xs as [|x xs IH]; simpl.
  - apply blind_ret.
  - apply blind_bind; [apply Hb | intros _; exact IH].
Qed.

End Blind.

Ltac blind_step :=
  match goal with
  | |- blind _ (bind _ _) => apply blind_bind; [|intros]
  | |- blind _ (attempt _) => apply blind_attempt
  | |- blind _ (wrapping _ _) => apply blind_wrapping
  | |- blind _ (forEach _ _) => apply blind_forEach; intros
  | |- blind _ (ret _) => apply blind_ret
  | |- blind _ (fail _) => apply blind_fail
  | |- blind _ (lift _) => apply blind_lift
  | |- blind _ (log _) => apply blind_log
  | |- blind _ (Getenv _) => apply blind_Getenv; reflexivity
  | |- blind _ (call _ _) => apply blind_call; intros; reflexivity
  | |- blind _ (query _ _) => apply blind_query; intros; reflexivity
  | |- blind _ (match ?x with _ => _ end) => destruct x
  | |- blind _ (let _ := _ in _) => cbv zeta
  end.

Lemma loadRepoList_blind (L : GoLib) : blind "START_INDEX" (Chain.loadRepoList L).
Proof.
  unfold Chain.loadRepoList, Chain.loadReposFromSSM, Chain.fallbackRepoList.
  unfold_services. repeat blind_step.
Qed.

Lemma mirrorSingleRepo_blind (L : GoLib) (srcRepo : string) :
  blind "START_INDEX" (Chain.mirrorSingleRepo L srcRepo).
Proof. unfold_mirror. unfold_services. repeat blind_step. Qed.

Lemma invokeSelfAsync_blind (L : GoLib) (ev : JobEvent) :
  blind "START_INDEX" (Chain.invokeSelfAsync L ev).
Proof. unfold Chain.invokeSelfAsync. unfold_services. repeat blind_step. Qed.

Lemma handler_run_blind (L : GoLib) (evt : JobEvent) (repos : list string) :
  blind "START_INDEX" (Chain.handler_run L evt repos).
Proof.
  unfold Chain.handler_run.
  repeat first [ apply mirrorSingleRepo_blind
               | apply invokeSelfAsync_blind
               | blind_step ].
Qed.

(** With a payload, the event of the invocation does not depend on the
    world at all. *)
Lemma handler_event_payload (L : GoLib) (raw : string) (w : World) :
  raw <> "" ->
  Chain.handler_event L raw w
  = match json_Unmarshal_JobEvent L raw with
    | Ok evt => mkOut (Ok evt) w []
    | Err err => mkOut (Ok (mkJobEvent 0 "")) w [EvLog (LogEventParseFailed err)]
    end.
Proof.
  intros Hraw. destruct (json_Unmarshal_JobEvent L raw) eqn:E.
  - apply handler_event_decoded; assumption.
  - apply handler_event_undecoded; assumption.
Qed.

Lemma handler_blind (L : GoLib) (raw : string) :
  raw <> "" -> blind "START_INDEX" (Chain.handler L raw).
Proof.
  intros Hraw. unfold Chain.handler.
  apply blind_bind.
  - intros w v. rewrite !handler_event_payload by assumption.
    destruct (json_Unmarshal_JobEvent L raw); reflexivity.
  - intros evt. apply blind_bind.
    + apply blind_wrapping, loadRepoList_blind.
    + intros repos. apply handler_run_blind.
Qed.

(** Without a payload, START_INDEX gives the index. *)
Lemma handler_event_no_payload (L : GoLib) (w : World) :
  Chain.handler_event L "" w
  = mkOut (Ok (mkJobEvent
                 (let s := TrimSpace L (environ (dep w) "START_INDEX") in
                  if isEmpty s then 0%Z
                  else match Atoi L s with Ok n => n | Err _ => 0%Z end) ""))
          w [].
Proof. reflexivity. Qed.

(** C10. An invocation whose payload is not empty and is not valid JSON
    for a Job Descriptor runs as the indexed job of index 0 (after a
    warning), and START_INDEX is not consulted: whatever its value, an
    invocation with a payload, valid or not, does the same. START_INDEX
    gives the index only when the payload is empty. *)
Theorem undecodable_payload_runs_index_zero (L : GoLib) (raw : string) (w : World) :
  raw <> "" ->
  (forall err,
      json_Unmarshal_JobEvent L raw = Err err ->
      Chain.handler_event L raw w
      = mkOut (Ok (mkJobEvent 0 "")) w [EvLog (LogEventParseFailed err)] /\
      forall raw0,
        raw0 <> "" -> json_Unmarshal_JobEvent L raw0 = Ok (mkJobEvent 0 "") ->
        let o := Chain.handler L raw w in
        let o0 := Chain.handler L raw0 w in
        res o = res o0 /\ after o = after o0 /\
        events o = EvLog (LogEventParseFailed err) :: events o0) /\
  (forall value,
      Chain.handler L raw (setenv "START_INDEX" value w)
      = mapAfter (setenv "START_INDEX" value) (Chain.handler L raw w)) /\
  (forall value n,
      TrimSpace L value <> "" -> Atoi L (TrimSpace L value) = Ok n ->
      Chain.handler_event L "" (setenv "START_INDEX" value w)
      = mkOut (Ok (mkJobEvent n "")) (setenv "START_INDEX" value w) []).
Proof.
  intros Hraw. split; [|split].
  - intros err Hdec. split; [apply handler_event_undecoded; assumption|].
    intros raw0 Hraw0 Hdec0. cbv zeta.
    pose proof (handler_unfold L raw w) as E. cbv zeta in E.
    pose proof (handler_unfold L raw0 w) as E0. cbv zeta in E0.
    rewrite (handler_event_undecoded L w Hraw Hdec) in E.
    rewrite (handler_event_decoded L w Hraw0 Hdec0) in E0.
    cbn [res after events] in E, E0. rewrite E, E0.
    destruct (res (Chain.loadRepoList L w)); cbn [res after events app];
      repeat split.
  - intros value. apply handler_blind, Hraw.
  - intros value n Hne Hn. rewrite handler_event_no_payload.
    cbn [setenv dep environ]. cbv zeta.
    change (String.eqb "START_INDEX" "START_INDEX") with true. cbv iota.
    unfold isEmpty. destruct (String.eqb_spec (TrimSpace L value) "");
      [contradiction|].
    rewrite Hn. reflexivity.
Qed.

Lemma undecodable_payload_runs_index_zero_witness :
  let w := Demo.world Demo.chainEnv Demo.noFault Demo.emptyEcr in
  "garbage" <> "" /\
  json_Unmarshal_JobEvent Demo.lib "garbage" = Err Demo.invalidJSON /\
  Chain.handler_event Demo.lib "garbage" w
  = mkOut (Ok (mkJobEvent 0 "")) w [EvLog (LogEventParseFailed Demo.invalidJSON)] /\
  Chain.handler Demo.lib "garbage" (setenv "START_INDEX" "2" w)
  = mapAfter (setenv "START_INDEX" "2") (Chain.handler Demo.lib "garbage" w).
Proof.
  intros w.
  assert (H : "garbage" <> "") by discriminate.
  destruct (undecodable_payload_runs_index_zero Demo.lib w H) as (A & B & C).
  split; [exact H|]. split; [reflexivity|].
  split; [exact (proj1 (A Demo.invalidJSON eq_refl)) | exact (B "2")].
Defined.

(* ------------------------------------------------------------------ *)
(** ** Events that end a run *)

Section Fatal.
Variable f : Event -> bool.

Lemma not_in_only (evs pre post : list Event) (ev : Event) :
  forallb (fun e => negb (f e)) evs = true ->
  evs = (pre ++ ev :: post)%list -> f ev = true -> False.
Proof.
  intros Hall -> Hev. rewrite forallb_app in Hall.
  apply andb_prop in Hall. destruct Hall as [_ Hall]. simpl in Hall.
  rewrite Hev in Hall. discriminate.
Qed.

Lemma fatal_of_only {A} (m : M A) :
  only (fun e => negb (f e)) m -> fatal f m.
Proof.
  intros Hm w pre ev post E Hev. exfalso.
  eapply not_in_only; [apply (Hm w) | exact E | exact Hev].
Qed.

Lemma fatal_call {A} (c : Call) (answer : World -> result A * EcrState) :
  f (EvCall c None) = false -> fatal f (call c answer).
Proof.
  intros Hc w pre ev post E Hev. rewrite call_events in E.
  destruct pre as [|x pre]; simpl in E.
  - inversion E; subst. split; [reflexivity|].
    destruct (res (call c answer w)); [|reflexivity].
    simpl in Hev. congruence.
  - inversion E. destruct pre; discriminate.
Qed.

Lemma fatal_bind {A B} (m : M A) (k : A -> M B) :
  fatal f m -> (forall a, fatal f (k a)) -> fatal f (bind m k).
Proof.
  intros Hm Hk w pre ev post E Hev. unfold bind in *.
  destruct (res (m w)) as [a|e] eqn:R; simpl in *.
  - apply app_eq_app in E. destruct E as [l [[E1 E2]|[E1 E2]]].
    + destruct l as [|x l]; simpl in E2.
      * apply (Hk a (after (m w)) [] ev post); [symmetry; exact E2 | exact Hev].
      * inversion E2; subst x post.
        destruct (Hm w pre ev l E1 Hev) as [_ Hr]. rewrite R in Hr. discriminate.
    + apply (Hk a (after (m w)) l ev post); [exact E2 | exact Hev].
  - destruct (Hm w pre ev post E Hev) as [Hp _]. split; [exact Hp | reflexivity].
Qed.

Lemma fatal_wrapping {A} (prefix : string) (m : M A) :
  fatal f m -> fatal f (wrapping prefix m).
Proof.
  intros Hm w pre ev post E Hev. rewrite wrapping_isOk.
  apply (Hm w pre ev post); assumption.
Qed.

Lemma fatal_forEach {A} (xs : list A) (body : A -> M unit) :
  (forall x, fatal f (body x)) -> fatal f (forEach xs body).
Proof.
  intros Hb. induction xs as [|x xs IH]; simpl.
  - apply fatal_of_only, only_ret.
  - apply fatal_bind; [apply Hb | intros _; exact IH].
Qed.

End Fatal.

(** One step of a proof of [fatal f m]; what is left is a part of [m] in
    which no event satisfies [f]. *)
Ltac fatal_step :=
  match goal with
  | |- fatal _ (bind _ _) => apply fatal_bind; [|intros]
  | |- fatal _ (wrapping _ _) => apply fatal_wrapping
  | |- fatal _ (forEach _ _) => apply fatal_forEach; intros
  | |- fatal _ (match ?x with _ => _ end) => destruct x
  | |- fatal _ (let _ := _ in _) => cbv zeta
  | |- fatal _ (call _ _) => apply fatal_call; reflexivity
  | |- fatal _ (query _ _) => apply fatal_call; reflexivity
  | |- fatal _ _ => apply fatal_of_only; repeat only_step
  end.

Lemma mirrorSingleRepo_fatal_get (L : GoLib) (srcRepo : string) :
  fatal isFailedGet (Chain.mirrorSingleRepo L srcRepo).
Proof. unfold_mirror. unfold_services. repeat fatal_step. Qed.

Lemma invokeSelfAsync_no_get (L : GoLib) (ev : JobEvent) :
  only (fun e => negb (isFailedGet e)) (Chain.invokeSelfAsync L ev).
Proof. unfold Chain.invokeSelfAsync. unfold_services. repeat only_step. Qed.

Lemma loadRepoList_no_get (L : GoLib) :
  only (fun e => negb (isFailedGet e)) (Chain.loadRepoList L).
Proof.
  unfold Chain.loadRepoList, Chain.loadReposFromSSM, Chain.fallbackRepoList.
  unfold_services. repeat only_step.
Qed.

Lemma handler_event_no_get (L : GoLib) (raw : string) :
  only (fun e => negb (isFailedGet e)) (Chain.handler_event L raw).
Proof. unfold Chain.handler_event, Chain.parseJobEvent. repeat only_step. Qed.

Lemma handler_fatal_get (L : GoLib) (raw : string) :
  fatal isFailedGet (Chain.handler L raw).
Proof.
  unfold Chain.handler.
  apply fatal_bind; [apply fatal_of_only, handler_event_no_get|]. intros evt.
  apply fatal_bind; [apply fatal_wrapping, fatal_of_only, loadRepoList_no_get|].
  intros repos. unfold Chain.handler_run.
  repeat first [ apply mirrorSingleRepo_fatal_get
               | apply fatal_of_only, invokeSelfAsync_no_get
               | fatal_step ].
Qed.

(** The indexed branch of [handler_run]: the repository at the index is
    mirrored, then the next index is dispatched or completion is logged. *)
Lemma handler_run_indexed (L : GoLib) (evt : JobEvent) (repos : list string)
    (w : World) :
  TrimSpace L (Repo evt) = "" ->
  let count := List.length repos in
  let index := if (Index evt <? 0)%Z then 0%Z else Index evt in
  (index < Z.of_nat count)%Z ->
  let current := nth (Z.to_nat index) repos "" in
  let started := EvLog (LogProcessingRepo (index + 1) count current) in
  let m := Chain.mirrorSingleRepo L current w in
  let i := Chain.invokeSelfAsync L (mkJobEvent (index + 1) "") (after m) in
  Chain.handler_run L evt repos w
  = match res m with
    | Err e =>
        mkOut (Err (Errorf_w ("mirror " ++ Quote L current) e)) (after m)
              (started :: events m)
    | Ok _ =>
        if (index + 1 <? Z.of_nat count)%Z then
          match res i with
          | Ok _ =>
              mkOut (Ok tt) (after i)
                    (started :: events m ++ events i
                     ++ [EvLog (LogQueuedNext (index + 1))])%list
          | Err e =>
              mkOut (Err (Errorf_w ("invoke self for index=" ++ Itoa L (index + 1)) e))
                    (after i) (started :: events m ++ events i)%list
          end
        else
          mkOut (Ok tt) (after m)
                (started :: events m ++ [EvLog (LogCompletedAll count)])%list
    end.
Proof.
  intros Hblank count index Hlt. cbv zeta. unfold Chain.handler_run.
  fold count. fold index.
  assert (Hc : (count =? 0)%nat = false).
  { apply Nat.eqb_neq. intros Hz. subst index.
    destruct (Index evt <? 0)%Z eqn:Hneg; [lia|].
    apply Z.ltb_ge in Hneg. lia. }
  rewrite Hc, Hblank. change (negb (isEmpty "")) with false. cbv iota.
  assert (Hge : (index >=? Z.of_nat count)%Z = false).
  { destruct (index >=? Z.of_nat count)%Z eqn:G; [|reflexivity].
    apply Z.geb_le in G. lia. }
  rewrite Hge. unfold bind, wrapping, log; cbn [res after events app].
  destruct (res (Chain.mirrorSingleRepo L _ w)); cbn [res after events app];
    [|reflexivity].
  destruct (index + 1 <? Z.of_nat count)%Z; cbn [res after events app];
    [|reflexivity].
  destruct (res (Chain.invokeSelfAsync L _ _)); cbn [res after events app];
    rewrite ?app_nil_r; reflexivity.
Qed.

(** The other branches of [handler_run] do one thing: they log a line. *)
Lemma handler_run_idle (L : GoLib) (evt : JobEvent) (repos : list string)
    (w : World) :
  TrimSpace L (Repo evt) = "" ->
  let index := if (Index evt <? 0)%Z then 0%Z else Index evt in
  (index >= Z.of_nat (List.length repos))%Z ->
  exists l, Chain.handler_run L evt repos w = mkOut (Ok tt) w [EvLog l].
Proof.
  intros Hblank index Hge. unfold Chain.handler_run.
  destruct (List.length repos =? 0)%nat; [eexists; reflexivity|].
  rewrite Hblank. change (negb (isEmpty "")) with false. cbv iota.
  fold index.
  assert (H : (index >=? Z.of_nat (List.length repos))%Z = true)
    by (apply Z.geb_le; lia).
  rewrite H. eexists; reflexivity.
Qed.

Lemma existsb_split (f : Event -> bool) (evs : list Event) :
  existsb f evs = true ->
  exists pre ev post, evs = (pre ++ ev :: post)%list /\ f ev = true.
Proof.
  intros H. apply existsb_exists in H. destruct H as (ev & Hin & Hev).
  apply in_split in Hin. destruct Hin as (pre & post & ->).
  exists pre, ev, post. split; [reflexivity | exact Hev].
Qed.

Lemma endsRun_failed {A} (f : Event -> bool) (o : Out A) :
  endsRun f o -> existsb f (events o) = true -> isOk (res o) = false.
Proof.
  intros He Hex. apply existsb_split in Hex.
  destruct Hex as (pre & ev & post & E & Hev).
  exact (proj2 (He pre ev post E Hev)).
Qed.

Lemma existsb_none (f : Event -> bool) (evs : list Event) :
  forallb (fun e => negb (f e)) evs = true -> existsb f evs = false.
Proof.
  induction evs as [|ev evs IH]; simpl; [reflexivity|].
  intros H. apply andb_prop in H. destruct H as [Hev H].
  apply negb_true_iff in Hev. rewrite Hev, (IH H). reflexivity.
Qed.

(** An invocation in which a fetch of a source descriptor failed called
    for no continuation. *)
Lemma handler_failed_get_no_invoke (L : GoLib) (raw : string) (w : World) :
  existsb isFailedGet (events (Chain.handler L raw w)) = true ->
  forallb notInvoke (events (Chain.handler L raw w)) = true.
Proof.
  pose proof (handler_unfold L raw w) as E. cbv zeta in E. rewrite E. clear E.
  pose proof (handler_event_no_invoke L raw w) as Ie.
  pose proof (existsb_none _ _ (handler_event_no_get L raw w)) as Ge.
  remember (Chain.handler_event L raw w) as ev eqn:Eev. clear Eev.
  destruct (res ev) as [evt|err]; cbn [events]; [|intros _; exact Ie].
  pose proof (loadRepoList_no_invoke L (after ev)) as Il.
  pose proof (existsb_none _ _ (loadRepoList_no_get L (after ev))) as Gl.
  remember (Chain.loadRepoList L (after ev)) as load eqn:Eload. clear Eload.
  destruct (res load) as [repos|err]; cbn [events].
  2:{ intros _. rewrite forallb_app, Ie, Il. reflexivity. }
  rewrite !existsb_app, !forallb_app, Ie, Il, Ge, Gl. cbn [orb andb].
  destruct (String.eqb_spec (TrimSpace L (Repo evt)) "") as [Hblank|Hr].
  - set (index := if (Index evt <? 0)%Z then 0%Z else Index evt).
    destruct (Z_lt_ge_dec index (Z.of_nat (List.length repos))) as [Hlt|Hge].
    + rewrite (handler_run_indexed L evt repos (after load) Hblank Hlt).
      fold index.
      pose proof (mirrorSingleRepo_no_invoke L
                    (nth (Z.to_nat index) repos "") (after load)) as Im.
      pose proof (mirrorSingleRepo_fatal_get L
                    (nth (Z.to_nat index) repos "") (after load)) as Fm.
      remember (Chain.mirrorSingleRepo L (nth (Z.to_nat index) repos "") (after load))
        as m eqn:Em. clear Em.
      destruct (res m) as [u|e] eqn:Rm; cbn [events].
      * pose proof (existsb_none _ _
                      (invokeSelfAsync_no_get L (mkJobEvent (index + 1) "") (after m)))
          as Gi.
        assert (Gm : existsb isFailedGet (events m) = false).
        { destruct (existsb isFailedGet (events m)) eqn:X; [|reflexivity].
          pose proof (endsRun_failed Fm X) as Hr. rewrite Rm in Hr. discriminate. }
        intros Hex. exfalso.
        destruct (index + 1 <? Z.of_nat (List.length repos))%Z.
        -- destruct (res (Chain.invokeSelfAsync L _ (after m))); cbn [events] in Hex;
             simpl existsb in Hex; rewrite !existsb_app, Gm, Gi in Hex;
             discriminate.
        -- cbn [events] in Hex. simpl existsb in Hex.
           rewrite existsb_app, Gm in Hex. discriminate.
      * intros _. simpl forallb. exact Im.
    + destruct (handler_run_idle L evt repos (after load) Hblank Hge) as [l ->].
      intros _. reflexivity.
  - destruct repos as [|x repos]; [intros _; reflexivity|].
    rewrite handler_run_explicit by (assumption || discriminate).
    pose proof (mirrorSingleRepo_no_invoke L (TrimSpace L (Repo evt)) (after load))
      as Im.
    intros _. cbn [events forallb]. rewrite forallb_app, Im.
    destruct (res (Chain.mirrorSingleRepo L _ (after load))); reflexivity.
Qed.

Lemma handler_copy_logs (L : GoLib) (src dst : string) (kc : Keychain) (w : World) :
  exists rest,
    events (FullSync.handler_copy L src dst kc w) = EvLog (LogCopy src dst) :: rest.
Proof.
  unfold FullSync.handler_copy.
  match goal with
  | |- context [events (bind ?m ?k w)] =>
      destruct (bind_events_prefix m k w) as [rest ->]
  end.
  exists rest. reflexivity.
Qed.

(** The loop over the tags of the full-sync handler goes on after every
    tag. *)
Lemma forEach_handler_tag (L : GoLib) (fullSrcRepo dstHost dstRepo : string)
    (kc : Keychain) (tag : string) (tags : list string) (w : World) :
  let body := FullSync.handler_tag L fullSrcRepo dstHost dstRepo kc in
  events (forEach (tag :: tags) body w)
  = (events (body tag w) ++ events (forEach tags body (after (body tag w))))%list.
Proof.
  cbv zeta. simpl forEach. unfold bind at 1.
  rewrite handler_tag_Ok. reflexivity.
Qed.


Ltac in_list := vm_compute; repeat (first [left; reflexivity | right]).



(* ------------------------------------------------------------------ *)
(** ** The destination repository *)

Lemma ecr_DescribeRepositories_events (repo : string) (w : World) :
  events (ecr_DescribeRepositories repo w)
  = [EvCall (CDescribeRepositories repo) (errOf (res (ecr_DescribeRepositories repo w)))].
Proof. apply call_events. Qed.

Lemma ecr_CreateRepository_events (repo : string) (scan : bool) (w : World) :
  events (ecr_CreateRepository repo scan w)
  = [EvCall (CCreateRepository repo scan)
            (errOf (res (ecr_CreateRepository repo scan w)))].
Proof. apply call_events. Qed.

(** [mirrorSingleRepo_ensure], case by case. *)
Lemma mirrorSingleRepo_ensure_run (dstRepoName : string) (w : World) :
  let d := ecr_DescribeRepositories dstRepoName w in
  let c := ecr_CreateRepository dstRepoName true (after d) in
  Chain.mirrorSingleRepo_ensure dstRepoName w
  = match res d with
    | Ok _ =>
        mkOut (Ok tt) (after d) [EvCall (CDescribeRepositories dstRepoName) None]
    | Err err =>
        if errors_As err RepositoryNotFoundException then
          match res c with
          | Ok _ =>
              mkOut (Ok tt) (after c)
                    [EvCall (CDescribeRepositories dstRepoName) (Some err);
                     EvCall (CCreateRepository dstRepoName true) None;
                     EvLog (LogCreatedRepo dstRepoName)]
          | Err cerr =>
              mkOut (Err (Errorf_w ("create ECR repo " ++ dstRepoName) cerr))
                    (after c)
                    [EvCall (CDescribeRepositories dstRepoName) (Some err);
                     EvCall (CCreateRepository dstRepoName true) (Some cerr)]
          end
        else
          mkOut (Err (Errorf_w ("describe ECR repo " ++ dstRepoName) err)) (after d)
                [EvCall (CDescribeRepositories dstRepoName) (Some err)]
    end.
Proof.
  cbv zeta. unfold Chain.mirrorSingleRepo_ensure, bind, attempt, wrapping, log.
  cbn [res after events].
  rewrite ecr_DescribeRepositories_events.
  destruct (res (ecr_DescribeRepositories dstRepoName w)) as [u|err];
    cbn [res after events errOf app]; [reflexivity|].
  destruct (errors_As err RepositoryNotFoundException);
    cbn [res after events errOf app]; [|reflexivity].
  rewrite ecr_CreateRepository_events.
  destruct (res (ecr_CreateRepository dstRepoName true _));
    cbn [res after events errOf app]; reflexivity.
Qed.

Lemma shape_setup (m : M unit) :
  only isSetup m -> forall w, ensuresThenTags (m w).
Proof. intros Hm w. left. apply Hm. Qed.

Lemma shape_bind {A} (m : M A) (k : A -> M unit) :
  only isSetup m -> (forall a w, ensuresThenTags (k a w)) ->
  forall w, ensuresThenTags (bind m k w).
Proof.
  intros Hm Hk w. unfold bind.
  destruct (res (m w)) as [a|e]; [|left; apply Hm].
  destruct (Hk a (after (m w))) as [Hs|(pre & n & w1 & tg & Hp & Ht & He & Hf)].
  - left. cbn [events]. rewrite forallb_app, Hm, Hs. reflexivity.
  - right. exists (events (m w) ++ pre)%list, n, w1, tg. cbv zeta.
    split; [rewrite forallb_app, Hm, Hp; reflexivity|].
    split; [exact Ht|]. split.
    + cbn [events]. rewrite He, app_assoc. reflexivity.
    + exact Hf.
Qed.

Lemma shape_core (dstRepoName : string) (tags : M unit) :
  only isTagPhase tags ->
  forall w, ensuresThenTags (bind (Chain.mirrorSingleRepo_ensure dstRepoName)
                                  (fun _ => tags) w).
Proof.
  intros Ht w. right. exists [], dstRepoName, w.
  unfold bind. destruct (res (Chain.mirrorSingleRepo_ensure dstRepoName w)) eqn:R.
  - exists (events (tags (after (Chain.mirrorSingleRepo_ensure dstRepoName w)))).
    cbv zeta. repeat split; try reflexivity; try apply Ht; discriminate.
  - exists []. cbv zeta. cbn [events app res isOk]. rewrite app_nil_r.
    repeat split; reflexivity.
Qed.

Lemma mirrorSingleRepo_tags_phase (L : GoLib)
    (srcRepo ecrEndpoint dstRepoName : string) (srcAuth dstAuth : Basic) :
  only isTagPhase
       (Chain.mirrorSingleRepo_tags L srcRepo ecrEndpoint dstRepoName srcAuth dstAuth).
Proof.
  unfold Chain.mirrorSingleRepo_tags, Chain.mirrorSingleRepo_tag,
    Chain.mirrorSingleRepo_copy.
  unfold_services. repeat only_step.
Qed.

Ltac shape_step :=
  match goal with
  | |- forall w, ensuresThenTags (bind (Chain.mirrorSingleRepo_ensure _) _ w) =>
      apply shape_core, mirrorSingleRepo_tags_phase
  | |- forall w, ensuresThenTags (bind _ _ w) =>
      apply shape_bind;
      [ unfold Chain.mirrorSingleRepo_auth, Chain.mirrorSingleRepo_dest;
        unfold_services; repeat only_step
      | intros ? ]
  | |- forall w, ensuresThenTags ((match ?x with _ => _ end) w) => destruct x
  | |- forall w, ensuresThenTags ((let _ := _ in _) w) => cbv zeta
  | |- forall w, ensuresThenTags (_ w) => apply shape_setup; repeat only_step
  end.

Lemma mirrorSingleRepo_shape (L : GoLib) (srcRepo : string) (w : World) :
  ensuresThenTags (Chain.mirrorSingleRepo L srcRepo w).
Proof.
  revert w. unfold Chain.mirrorSingleRepo.
  repeat shape_step.
Qed.

Lemma creations_app (evs evs' : list Event) :
  creations (evs ++ evs') = (creations evs ++ creations evs')%list.
Proof. unfold creations. apply filter_app. Qed.

Lemma creations_setup (evs : list Event) :
  forallb isSetup evs = true -> creations evs = [].
Proof.
  unfold creations. induction evs as [|ev evs IH]; simpl; [reflexivity|].
  intros H. apply andb_prop in H. destruct H as [Hev H].
  unfold isSetup in Hev. destruct (isCreate ev); [|apply IH, H].
  rewrite andb_false_r in Hev. discriminate.
Qed.

Lemma creations_tags (evs : list Event) :
  forallb isTagPhase evs = true -> creations evs = [].
Proof.
  unfold creations. induction evs as [|ev evs IH]; simpl; [reflexivity|].
  intros H. apply andb_prop in H. destruct H as [Hev H].
  unfold isTagPhase in Hev. destruct (isCreate ev); [|apply IH, H].
  rewrite andb_false_r in Hev. discriminate.
Qed.

Lemma setup_not_describe (evs : list Event) (ev : Event) :
  forallb isSetup evs = true -> In ev evs -> isDescribe ev = false.
Proof.
  intros H Hin. rewrite forallb_forall in H. specialize (H ev Hin).
  unfold isSetup in H. destruct (isDescribe ev); [discriminate | reflexivity].
Qed.

Lemma tags_not_describe (evs : list Event) (ev : Event) :
  forallb isTagPhase evs = true -> In ev evs -> isDescribe ev = false.
Proof.
  intros H Hin. rewrite forallb_forall in H. specialize (H ev Hin).
  unfold isTagPhase in H. destruct (isDescribe ev); [discriminate | reflexivity].
Qed.

Lemma setup_no_tag_processing (evs : list Event) :
  forallb isSetup evs = true ->
  forallb (fun ev => negb (isTagProcessing ev)) evs = true.
Proof.
  induction evs as [|ev evs IH]; simpl; [reflexivity|].
  intros H. apply andb_prop in H. destruct H as [Hev H].
  rewrite (IH H). unfold isSetup in Hev.
  apply andb_prop in Hev. destruct Hev as [_ Hev]. rewrite Hev. reflexivity.
Qed.

(** The trace of a pass of [mirrorSingleRepo]: the setup; then the
    existence check, a creation call when the answer is "not found", and
    nothing more when one of them is fatal; then the tags. *)
Lemma mirrorSingleRepo_trace (L : GoLib) (srcRepo : string) (w : World) :
  let o := Chain.mirrorSingleRepo L srcRepo w in
  forallb isSetup (events o) = true \/
  exists pre n tg,
    forallb isSetup pre = true /\ forallb isTagPhase tg = true /\
    (events o = (pre ++ [EvCall (CDescribeRepositories n) None] ++ tg)%list \/
     (exists err,
         errors_As err RepositoryNotFoundException = true /\
         events o = (pre ++ [EvCall (CDescribeRepositories n) (Some err);
                             EvCall (CCreateRepository n true) None;
                             EvLog (LogCreatedRepo n)] ++ tg)%list) \/
     (exists err cerr,
         errors_As err RepositoryNotFoundException = true /\
         events o = (pre ++ [EvCall (CDescribeRepositories n) (Some err);
                             EvCall (CCreateRepository n true) (Some cerr)])%list /\
         isOk (res o) = false) \/
     (exists err,
         errors_As err RepositoryNotFoundException = false /\
         events o = (pre ++ [EvCall (CDescribeRepositories n) (Some err)])%list /\
         isOk (res o) = false)).
Proof.
  cbv zeta.
  destruct (mirrorSingleRepo_shape L srcRepo w)
    as [Hs|(pre & n & w1 & tg & Hp & Ht & He & Hf)]; [left; exact Hs|].
  right. exists pre, n, tg. split; [exact Hp|]. split; [exact Ht|].
  cbv zeta in He, Hf. rewrite mirrorSingleRepo_ensure_run in He, Hf.
  cbv zeta in He, Hf.
  destruct (res (ecr_DescribeRepositories n w1)) as [u|err];
    cbn [events res] in He, Hf.
  - left. exact He.
  - destruct (errors_As err RepositoryNotFoundException) eqn:As;
      cbn [events res] in He, Hf.
    + destruct (res (ecr_CreateRepository n true _)) as [u|cerr];
        cbn [events res] in He, Hf.
      * right. left. exists err. split; [exact As | exact He].
      * right. right. left. exists err, cerr.
        destruct (Hf eq_refl) as [-> Hr]. rewrite app_nil_r in He.
        split; [exact As|]. split; [exact He | exact Hr].
    + right. right. right. exists err.
      destruct (Hf eq_refl) as [-> Hr]. rewrite app_nil_r in He.
      split; [exact As|]. split; [exact He | exact Hr].
Qed.

Lemma mirrorSingleRepo_ensure_fatal (dstRepoName : string) :
  fatal isEnsureFailure (Chain.mirrorSingleRepo_ensure dstRepoName).
Proof.
  intros w pre ev post E Hev. rewrite mirrorSingleRepo_ensure_run in *.
  cbv zeta in *.
  destruct (res (ecr_DescribeRepositories dstRepoName w)) as [u|err].
  - cbn [events res] in *.
    destruct pre as [|x pre]; inversion E; subst; [discriminate|].
    destruct pre; discriminate.
  - destruct (errors_As err RepositoryNotFoundException) eqn:As.
    + destruct (res (ecr_CreateRepository dstRepoName true _)) as [u|cerr];
        cbn [events res] in *.
      * destruct pre as [|x0 [|x1 [|x2 pre]]]; inversion E; subst;
          try discriminate; simpl in Hev; try congruence.
        -- rewrite As in Hev. discriminate.
        -- destruct pre; discriminate.
      * destruct pre as [|x0 [|x1 pre]]; inversion E; subst.
        -- simpl in Hev. rewrite As in Hev. discriminate.
        -- split; reflexivity.
        -- destruct pre; discriminate.
    + cbn [events res] in *.
      destruct pre as [|x pre]; inversion E; subst; [split; reflexivity|].
      destruct pre; discriminate.
Qed.

Lemma mirrorSingleRepo_tags_no_ensure (L : GoLib)
    (srcRepo ecrEndpoint dstRepoName : string) (srcAuth dstAuth : Basic) :
  only (fun ev => negb (isEnsureFailure ev))
       (Chain.mirrorSingleRepo_tags L srcRepo ecrEndpoint dstRepoName srcAuth dstAuth).
Proof.
  unfold Chain.mirrorSingleRepo_tags, Chain.mirrorSingleRepo_tag,
    Chain.mirrorSingleRepo_copy.
  unfold_services. repeat only_step.
Qed.

Lemma mirrorSingleRepo_fatal_ensure (L : GoLib) (srcRepo : string) :
  fatal isEnsureFailure (Chain.mirrorSingleRepo L srcRepo).
Proof.
  unfold Chain.mirrorSingleRepo, Chain.mirrorSingleRepo_auth,
    Chain.mirrorSingleRepo_dest. unfold_services.
  repeat first [ apply mirrorSingleRepo_ensure_fatal
               | apply fatal_of_only, mirrorSingleRepo_tags_no_ensure
               | fatal_step ].
Qed.

(** [ensureECRRepo] (full-sync), case by case. *)
Lemma ensureECRRepo_run (repo : string) (w : World) :
  let d := ecr_DescribeRepositories repo w in
  let c := ecr_CreateRepository repo true (after d) in
  FullSync.ensureECRRepo repo w
  = match res d with
    | Ok _ => mkOut (Ok tt) (after d) [EvCall (CDescribeRepositories repo) None]
    | Err err =>
        mkOut (match res c with
               | Ok _ => Ok tt
               | Err cerr =>
                   if strings.Contains (Error cerr) RepositoryAlreadyExistsException
                   then Ok tt else Err cerr
               end)
              (after c)
              [EvCall (CDescribeRepositories repo) (Some err);
               EvCall (CCreateRepository repo true) (errOf (res c))]
    end.
Proof.
  cbv zeta. unfold FullSync.ensureECRRepo, bind, attempt.
  cbn [res after events].
  rewrite ecr_DescribeRepositories_events.
  destruct (res (ecr_DescribeRepositories repo w)) as [u|err];
    cbn [res after events errOf app]; [reflexivity|].
  rewrite ecr_CreateRepository_events.
  destruct (res (ecr_CreateRepository repo true _)) as [u|cerr];
    cbn [res after events errOf app]; [reflexivity|].
  destruct (strings.Contains (Error cerr) RepositoryAlreadyExistsException);
    reflexivity.
Qed.

(** When the repository cannot be ensured, the full-sync handler logs it
    and leaves the repository: none of its tags is processed. *)
Lemma handler_repo_not_ensured (L : GoLib)
    (srcRegistry dstPrefix dstHost : string) (kc : Keychain) (repoPath : string)
    (w : World) (tag : string) (tags : list string) (err : error) :
  let list := FullSync.crane_ListTags L (srcRegistry ++ "/" ++ repoPath) kc w in
  let dstRepo := if negb (isEmpty dstPrefix)
                 then path_Join L dstPrefix repoPath else repoPath in
  let en := FullSync.ensureECRRepo dstRepo (after list) in
  res list = Ok (tag :: tags) ->
  res en = Err err ->
  FullSync.handler_repo L srcRegistry dstPrefix dstHost kc repoPath w
  = mkOut (Ok tt) (after en)
          (events list ++ events en ++ [EvLog (LogEnsureFailed dstRepo err)])%list.
Proof.
  cbv zeta. intros Hl He. unfold FullSync.handler_repo, bind, attempt, log.
  cbn [res after events]. rewrite Hl. cbn [res after events].
  rewrite He. reflexivity.
Qed.

Ltac in_trace H :=
  apply in_app_or in H; destruct H as [H|H];
  [|apply in_app_or in H; destruct H as [H|H]].




(* ------------------------------------------------------------------ *)
(** ** Chaining *)

Lemma dispatched_app (evs evs' : list Event) :
  Chain.dispatched (evs ++ evs') = (Chain.dispatched evs ++ Chain.dispatched evs')%list.
Proof. unfold Chain.dispatched. apply flat_map_app. Qed.

Lemma config_LoadDefaultConfig_events (w : World) :
  events (config_LoadDefaultConfig w)
  = [EvCall CLoadDefaultConfig (errOf (res (config_LoadDefaultConfig w)))].
Proof. apply call_events. Qed.

Lemma lambda_Invoke_events (fn payload : string) (w : World) :
  events (lambda_Invoke fn payload w)
  = [EvCall (CInvoke fn payload) (errOf (res (lambda_Invoke fn payload w)))].
Proof. apply call_events. Qed.

(** [invokeSelfAsync]: when it succeeds it made one call to [Invoke], for
    this very function, with the event as payload; when it fails no
    invocation was accepted. *)
Lemma invokeSelfAsync_run (L : GoLib) (ev : JobEvent) (w : World) :
  let o := Chain.invokeSelfAsync L ev w in
  (res o = Ok tt ->
   exists payload,
     json_Marshal_JobEvent L ev = Ok payload /\
     environ (dep w) "AWS_LAMBDA_FUNCTION_NAME" <> "" /\
     events o = [EvCall CLoadDefaultConfig None;
                 EvCall (CInvoke (environ (dep w) "AWS_LAMBDA_FUNCTION_NAME") payload)
                        None]) /\
  (isOk (res o) = false -> Chain.dispatched (events o) = []) /\
  (List.length (filter isInvoke (events o)) <= 1)%nat.
Proof.
  cbv zeta. unfold Chain.invokeSelfAsync, bind, Getenv, lift.
  cbn [res after events].
  rewrite config_LoadDefaultConfig_events.
  pose proof (steady_call CLoadDefaultConfig (fun w0 => (Ok tt, ecr w0)) w) as Hd.
  change (call CLoadDefaultConfig (fun w0 => (Ok tt, ecr w0)))
    with config_LoadDefaultConfig in Hd.
  destruct (res (config_LoadDefaultConfig w)) as [u|e];
    cbn [res after events errOf app].
  2:{ split; [discriminate|]. split; [reflexivity | simpl; lia]. }
  rewrite Hd.
  destruct (String.eqb_spec (environ (dep w) "AWS_LAMBDA_FUNCTION_NAME") "")
    as [Hfn|Hfn]; unfold isEmpty.
  - rewrite Hfn. cbn [String.eqb res after events app fail].
    split; [discriminate|]. split; [reflexivity | simpl; lia].
  - destruct (String.eqb (environ (dep w) "AWS_LAMBDA_FUNCTION_NAME") "") eqn:Efn.
    { apply String.eqb_eq in Efn. contradiction. }
    cbn [res after events app].
    destruct (json_Marshal_JobEvent L ev) as [payload|e];
      cbn [res after events app].
    2:{ split; [discriminate|]. split; [reflexivity | simpl; lia]. }
    rewrite lambda_Invoke_events.
    destruct (res (lambda_Invoke _ payload _)) as [[]|e];
      cbn [res after events errOf app].
    + split; [|split; [discriminate | simpl; lia]].
      intros _. exists payload. repeat split. exact Hfn.
    + split; [discriminate|]. split; [reflexivity | simpl; lia].
Qed.

Lemma stable_ret {A} (a : A) : stable (ret a).
Proof. intros w w' x x' _ H H'. inversion H. inversion H'. congruence. Qed.

Lemma stable_fail {A} (e : error) : stable (@fail A e).
Proof. intros w w' x x' _ H. discriminate. Qed.

Lemma stable_Getenv (k : string) : stable (Getenv k).
Proof.
  intros w w' x x' Hd H H'. unfold Getenv in *. simpl in *.
  rewrite Hd in H. congruence.
Qed.

Lemma stable_log (l : LogLine) : stable (log l).
Proof. intros w w' [] [] _ _ _. reflexivity. Qed.

Lemma stable_query {A} (c : Call) (answer : World -> result A) :
  (forall w w', dep w = dep w' -> answer w = answer w') ->
  stable (query c answer).
Proof.
  intros Ha w w' x x' Hd. unfold query, call.
  destruct (fault (dep w) (clock w) c); [discriminate|].
  destruct (fault (dep w') (clock w') c); [intros _; discriminate|].
  simpl. rewrite (Ha w w' Hd). congruence.
Qed.

Lemma stable_bind {A B} (m : M A) (k : A -> M B) :
  steady m -> stable m -> (forall a, stable (k a)) -> stable (bind m k).
Proof.
  intros Sm Hm Hk w w' b b' Hd. unfold bind.
  destruct (res (m w)) as [a|e] eqn:R; [|discriminate].
  destruct (res (m w')) as [a'|e'] eqn:R'; [|intros _; discriminate].
  simpl. assert (a = a') as <- by (apply (Hm w w'); assumption).
  apply (Hk a). rewrite !Sm. exact Hd.
Qed.

Lemma stable_wrapping {A} (prefix : string) (m : M A) :
  stable m -> stable (wrapping prefix m).
Proof.
  intros Hm w w' a a' Hd H H'.
  apply wrapping_Ok in H. apply wrapping_Ok in H'.
  apply (Hm w w'); assumption.
Qed.

Lemma loadReposFromSSM_steady (L : GoLib) (name : string) :
  steady (Chain.loadReposFromSSM L name).
Proof. unfold Chain.loadReposFromSSM. unfold_services. repeat steady_step. Qed.

Lemma loadRepoList_steady (L : GoLib) : steady (Chain.loadRepoList L).
Proof.
  unfold Chain.loadRepoList, Chain.fallbackRepoList.
  repeat first [apply loadReposFromSSM_steady | steady_step].
Qed.

Ltac stable_step :=
  match goal with
  | |- stable (bind _ _) =>
      apply stable_bind; [unfold_services; repeat steady_step | | intros]
  | |- stable (wrapping _ _) => apply stable_wrapping
  | |- stable (ret _) => apply stable_ret
  | |- stable (fail _) => apply stable_fail
  | |- stable (Getenv _) => apply stable_Getenv
  | |- stable (log _) => apply stable_log
  | |- stable (query _ _) =>
      apply stable_query; intros ? ? Hdep; rewrite ?Hdep; reflexivity
  | |- stable (match ?x with _ => _ end) => destruct x
  | |- stable (let _ := _ in _) => cbv zeta
  end.

(** The list [loadRepoList] resolves is the same in every invocation of a
    deployment. *)
Lemma loadRepoList_stable (L : GoLib) : stable (Chain.loadRepoList L).
Proof.
  unfold Chain.loadRepoList, Chain.loadReposFromSSM, Chain.fallbackRepoList.
  unfold config_LoadDefaultConfig, ssm_GetParameter.
  repeat stable_step.
Qed.

Lemma mirrorSingleRepo_steady (L : GoLib) (srcRepo : string) :
  steady (Chain.mirrorSingleRepo L srcRepo).
Proof. unfold_mirror. unfold_services. repeat steady_step. Qed.

Lemma invokeSelfAsync_steady (L : GoLib) (ev : JobEvent) :
  steady (Chain.invokeSelfAsync L ev).
Proof. unfold Chain.invokeSelfAsync. unfold_services. repeat steady_step. Qed.

Lemma handler_steady (L : GoLib) (raw : string) : steady (Chain.handler L raw).
Proof.
  unfold Chain.handler, Chain.handler_event, Chain.parseJobEvent,
    Chain.handler_run.
  repeat first [ apply loadRepoList_steady
               | apply mirrorSingleRepo_steady
               | apply invokeSelfAsync_steady
               | steady_step ].
Qed.

(** An indexed invocation whose mirror pass succeeded: it dispatches the
    next index, or it reports that the sweep is complete. *)
Lemma handler_run_chains (L : GoLib) (evt : JobEvent) (repos : list string)
    (w : World) :
  TrimSpace L (Repo evt) = "" ->
  let count := List.length repos in
  let index := if (Index evt <? 0)%Z then 0%Z else Index evt in
  (index < Z.of_nat count)%Z ->
  let current := nth (Z.to_nat index) repos "" in
  let m := Chain.mirrorSingleRepo L current w in
  let i := Chain.invokeSelfAsync L (mkJobEvent (index + 1) "") (after m) in
  let o := Chain.handler_run L evt repos w in
  res m = Ok tt ->
  In (EvLog (LogProcessingRepo (index + 1) count current)) (events o) /\
  ((index + 1 < Z.of_nat count)%Z ->
   (res i = Ok tt ->
    res o = Ok tt /\
    In (EvLog (LogQueuedNext (index + 1))) (events o) /\
    exists payload,
      json_Marshal_JobEvent L (mkJobEvent (index + 1) "") = Ok payload /\
      Chain.dispatched (events o) = [payload] /\
      filter isInvoke (events o)
      = [EvCall (CInvoke (environ (dep w) "AWS_LAMBDA_FUNCTION_NAME") payload) None]) /\
   (isOk (res i) = false ->
    isOk (res o) = false /\ Chain.dispatched (events o) = [])) /\
  ((index + 1 = Z.of_nat count)%Z ->
   res o = Ok tt /\ filter isInvoke (events o) = [] /\
   Chain.dispatched (events o) = [] /\
   In (EvLog (LogCompletedAll count)) (events o)).
Proof.
  intros Hblank count index Hlt current m i o Hm. subst o.
  rewrite (handler_run_indexed L evt repos w Hblank Hlt).
  fold count. fold index. fold current. fold m. fold i.
  rewrite Hm.
  pose proof (mirrorSingleRepo_no_invoke L current w) as Nm. fold m in Nm.
  assert (Fm : filter isInvoke (events m) = []).
  { clear -Nm. induction (events m) as [|ev evs IH]; simpl in *; [reflexivity|].
    apply andb_prop in Nm. destruct Nm as [Hev Nm]. unfold notInvoke in Hev.
    apply negb_true_iff in Hev. rewrite Hev. apply IH, Nm. }
  pose proof (dispatched_none _ Nm) as Dm.
  split.
  { destruct (index + 1 <? Z.of_nat count)%Z; [destruct (res i)|]; left; reflexivity. }
  split.
  - intros Hnext. apply Z.ltb_lt in Hnext. rewrite Hnext.
    destruct (invokeSelfAsync_run L (mkJobEvent (index + 1) "") (after m))
      as (Hok & Hfail & _). fold i in Hok, Hfail.
    split.
    + intros Hi. rewrite Hi. cbn [res events].
      destruct (Hok Hi) as (payload & Hp & Hfn & Hev).
      split; [reflexivity|]. split.
      { right. apply in_or_app. right. apply in_or_app. right. left. reflexivity. }
      exists payload. split; [exact Hp|].
      pose proof (mirrorSingleRepo_steady L current w) as Sm. fold m in Sm.
      rewrite Sm in Hev. rewrite Hev.
      split.
      * change (EvLog ?l :: ?r) with ([EvLog l] ++ r)%list.
        rewrite !dispatched_app, Dm. reflexivity.
      * change (EvLog ?l :: ?r) with ([EvLog l] ++ r)%list.
        rewrite !filter_app, Fm. reflexivity.
    + intros Hi. destruct (res i) as [u|e]; [discriminate|]. cbn [res events].
      split; [reflexivity|].
      change (EvLog ?l :: ?r) with ([EvLog l] ++ r)%list.
      rewrite !dispatched_app, Dm, (Hfail eq_refl). reflexivity.
  - intros Hlast.
    assert (Hn : (index + 1 <? Z.of_nat count)%Z = false) by (apply Z.ltb_ge; lia).
    rewrite Hn. cbn [res events]. split; [reflexivity|].
    change (EvLog ?l :: ?r) with ([EvLog l] ++ r)%list.
    rewrite !filter_app, !dispatched_app, Fm, Dm.
    split; [reflexivity|]. split; [reflexivity|].
    apply in_or_app. right. apply in_or_app. right. left. reflexivity.
Qed.

(** A failure-free invocation for the index [i] of the list. *)
Lemma handler_at_index (L : GoLib) (raw : string) (w : World) (i : Z)
    (repos : list string) :
  TrimSpace L "" = "" ->
  raw <> "" -> json_Unmarshal_JobEvent L raw = Ok (mkJobEvent i "") ->
  (0 <= i < Z.of_nat (List.length repos))%Z ->
  res (Chain.loadRepoList L w) = Ok repos ->
  let o := Chain.handler L raw w in
  res o = Ok tt ->
  In (EvLog (LogProcessingRepo (i + 1) (List.length repos)
               (nth (Z.to_nat i) repos ""))) (events o) /\
  ((i + 1 < Z.of_nat (List.length repos))%Z ->
   exists payload,
     json_Marshal_JobEvent L (mkJobEvent (i + 1) "") = Ok payload /\
     Chain.dispatched (events o) = [payload]) /\
  ((i + 1 = Z.of_nat (List.length repos))%Z ->
   Chain.dispatched (events o) = [] /\
   In (EvLog (LogCompletedAll (List.length repos))) (events o)).
Proof.
  intros Hlaw Hraw Hdec Hi Hload o Ho. subst o.
  pose proof (handler_unfold L raw w) as E. cbv zeta in E.
  rewrite (handler_event_decoded L w Hraw Hdec) in E.
  cbn [res after events app] in E. rewrite Hload in E.
  rewrite E in Ho |- *. cbn [res events] in Ho |- *. clear E.
  pose proof (dispatched_none _ (loadRepoList_no_invoke L w)) as Dl.
  remember (after (Chain.loadRepoList L w)) as w1 eqn:Ew1.
  assert (Hblank : TrimSpace L (Repo (mkJobEvent i "")) = "") by exact Hlaw.
  assert (Hidx : (if (Index (mkJobEvent i "") <? 0)%Z then 0%Z
                  else Index (mkJobEvent i "")) = i).
  { cbn [Index]. destruct (i <? 0)%Z eqn:N; [apply Z.ltb_lt in N; lia | reflexivity]. }
  assert (Hlt : ((if (Index (mkJobEvent i "") <? 0)%Z then 0%Z
                  else Index (mkJobEvent i ""))
                 < Z.of_nat (List.length repos))%Z) by (rewrite Hidx; lia).
  assert (Hm : res (Chain.mirrorSingleRepo L (nth (Z.to_nat i) repos "") w1) = Ok tt).
  { rewrite (handler_run_indexed L (mkJobEvent i "") repos w1 Hblank Hlt) in Ho.
    rewrite Hidx in Ho.
    destruct (res (Chain.mirrorSingleRepo L (nth (Z.to_nat i) repos "") w1))
      as [[]|e]; [reflexivity | discriminate]. }
  pose proof (handler_run_chains L (mkJobEvent i "") repos w1 Hblank Hlt) as C.
  cbv zeta in C. rewrite Hidx in C. specialize (C Hm).
  destruct C as (Cstart & Cnext & Clast).
  split; [apply in_or_app; right; exact Cstart|].
  split.
  - intros Hnext. destruct (Cnext Hnext) as [Cok Cfail].
    destruct (res (Chain.invokeSelfAsync L (mkJobEvent (i + 1) "")
                     (after (Chain.mirrorSingleRepo L (nth (Z.to_nat i) repos "") w1))))
      as [[]|e] eqn:Ri.
    + destruct (Cok eq_refl) as (_ & _ & payload & Hp & Hd & _).
      exists payload. split; [exact Hp|].
      rewrite dispatched_app, Dl, Hd. reflexivity.
    + destruct (Cfail eq_refl) as [Hr _]. rewrite Ho in Hr. discriminate.
  - intros Hlast. destruct (Clast Hlast) as (_ & _ & Hd & Hc).
    split; [rewrite dispatched_app, Dl, Hd; reflexivity|].
    apply in_or_app. right. exact Hc.
Qed.

(** The sweep from an index: one invocation per remaining repository. *)
Lemma sweep_from (L : GoLib) (w0 : World) (repos : list string) :
  TrimSpace L "" = "" ->
  res (Chain.loadRepoList L w0) = Ok repos ->
  (forall n p,
      (0 < n < Z.of_nat (List.length repos))%Z ->
      json_Marshal_JobEvent L (mkJobEvent n "") = Ok p ->
      p <> "" /\ json_Unmarshal_JobEvent L p = Ok (mkJobEvent n "")) ->
  forall (fuel : nat) (i : Z) (raw : string) (w : World),
    dep w = dep w0 ->
    (0 <= i < Z.of_nat (List.length repos))%Z ->
    raw <> "" -> json_Unmarshal_JobEvent L raw = Ok (mkJobEvent i "") ->
    (Z.of_nat (List.length repos) - i <= Z.of_nat fuel)%Z ->
    (forall o, In o (Chain.sweep L fuel raw w) -> res o = Ok tt) ->
    Z.of_nat (List.length (Chain.sweep L fuel raw w))
    = (Z.of_nat (List.length repos) - i)%Z /\
    forall (k : nat) (o : Out unit),
      nth_error (Chain.sweep L fuel raw w) k = Some o ->
      In (EvLog (LogProcessingRepo (i + Z.of_nat k + 1) (List.length repos)
                   (nth (Z.to_nat (i + Z.of_nat k)) repos ""))) (events o) /\
      (forall p, In p (Chain.dispatched (events o)) ->
                 (i + Z.of_nat k + 1 < Z.of_nat (List.length repos))%Z /\
                 json_Unmarshal_JobEvent L p
                 = Ok (mkJobEvent (i + Z.of_nat k + 1) "")) /\
      ((i + Z.of_nat k + 1 = Z.of_nat (List.length repos))%Z ->
       Chain.dispatched (events o) = [] /\
       In (EvLog (LogCompletedAll (List.length repos))) (events o)).
Proof.
  intros Hlaw Hload0 Hjson.
  induction fuel as [|fuel IH]; intros i raw w Hdep Hi Hraw Hdec Hfuel Hfree.
  { simpl in Hfuel. lia. }
  cbn [Chain.sweep] in *. cbv zeta in *.
  set (o := Chain.handler L raw w) in *.
  assert (Ho : res o = Ok tt) by (apply Hfree; left; reflexivity).
  assert (Hload : res (Chain.loadRepoList L w) = Ok repos).
  { pose proof (handler_unfold L raw w) as E. cbv zeta in E.
    rewrite (handler_event_decoded L w Hraw Hdec) in E.
    cbn [res after events app] in E. fold o in E. rewrite E in Ho.
    destruct (res (Chain.loadRepoList L w)) as [l|e] eqn:R; [|discriminate].
    f_equal. exact (loadRepoList_stable L w w0 Hdep R Hload0). }
  destruct (@handler_at_index L raw w i repos Hlaw Hraw Hdec Hi Hload Ho)
    as (Hstart & Hnext & Hlast).
  fold o in Hstart, Hnext, Hlast.
  destruct (Z_lt_ge_dec (i + 1) (Z.of_nat (List.length repos))) as [Hlt|Hge].
  - destruct (Hnext Hlt) as (payload & Hp & Hd).
    destruct (Hjson (i + 1)%Z payload ltac:(lia) Hp) as [Hpne Hpdec].
    rewrite Hd in *.
    assert (Hdep' : dep (after o) = dep w0)
      by (unfold o; rewrite handler_steady; exact Hdep).
    destruct (IH (i + 1)%Z payload (after o) Hdep' ltac:(lia) Hpne Hpdec ltac:(lia))
      as [Hlen Hnth].
    { intros o' Hin. apply Hfree. right. exact Hin. }
    split.
    + cbn [List.length]. lia.
    + intros [|k] o' Hk; cbn [nth_error] in Hk.
      * inversion Hk; subst o'. rewrite Z.add_0_r.
        split; [exact Hstart|]. split.
        -- intros p Hin. rewrite Hd in Hin. destruct Hin as [<-|[]].
           split; [lia | exact Hpdec].
        -- intros Heq. lia.
      * destruct (Hnth k o' Hk) as (A & B & C).
        replace (i + Z.of_nat (S k))%Z with (i + 1 + Z.of_nat k)%Z by lia.
        split; [exact A|]. split; [exact B | exact C].
  - assert (Heq : (i + 1 = Z.of_nat (List.length repos))%Z) by lia.
    destruct (Hlast Heq) as [Hd Hc]. rewrite Hd in *.
    split.
    + cbn [List.length]. lia.
    + intros [|k] o' Hk; cbn [nth_error] in Hk.
      * inversion Hk; subst o'. rewrite Z.add_0_r.
        split; [exact Hstart|]. split.
        -- intros p Hin. rewrite Hd in Hin. destruct Hin.
        -- intros _. split; [exact Hd | exact Hc].
      * destruct k; discriminate.
Qed.

(** C2, as amended. An indexed invocation that successfully mirrors the
    repository at index i of a resolved list of length N calls for the
    continuation {index: i+1} when i+1 < N: when that dispatch succeeds,
    exactly one call to Invoke was made, for this function and with that
    Job Descriptor as payload, and the invocation terminates successfully;
    when the dispatch fails, no continuation is dispatched and the
    invocation terminates with an error. When i+1 = N the invocation reports
    that the sweep is complete and terminates successfully without calling
    Invoke. Hence a failure-free sweep from index 0 over a list of length
    N >= 1 comprises exactly N invocations, the k-th for the k-th
    repository, the last one reporting completion, and every index that is
    dispatched is below N. *)
Theorem chain_dispatches_next_index (L : GoLib) :
  (forall (evt : JobEvent) (repos : list string) (w : World),
      TrimSpace L (Repo evt) = "" ->
      let count := List.length repos in
      let index := if (Index evt <? 0)%Z then 0%Z else Index evt in
      (index < Z.of_nat count)%Z ->
      let current := nth (Z.to_nat index) repos "" in
      let m := Chain.mirrorSingleRepo L current w in
      let i := Chain.invokeSelfAsync L (mkJobEvent (index + 1) "") (after m) in
      let o := Chain.handler_run L evt repos w in
      res m = Ok tt ->
      In (EvLog (LogProcessingRepo (index + 1) count current)) (events o) /\
      ((index + 1 < Z.of_nat count)%Z ->
       (res i = Ok tt ->
        res o = Ok tt /\
        In (EvLog (LogQueuedNext (index + 1))) (events o) /\
        exists payload,
          json_Marshal_JobEvent L (mkJobEvent (index + 1) "") = Ok payload /\
          Chain.dispatched (events o) = [payload] /\
          filter isInvoke (events o)
          = [EvCall (CInvoke (environ (dep w) "AWS_LAMBDA_FUNCTION_NAME") payload)
                    None]) /\
       (isOk (res i) = false ->
        isOk (res o) = false /\ Chain.dispatched (events o) = [])) /\
      ((index + 1 = Z.of_nat count)%Z ->
       res o = Ok tt /\ filter isInvoke (events o) = [] /\
       Chain.dispatched (events o) = [] /\
       In (EvLog (LogCompletedAll count)) (events o))) /\
  (forall (w : World) (raw : string) (repos : list string) (fuel : nat),
      TrimSpace L "" = "" ->
      res (Chain.loadRepoList L w) = Ok repos ->
      repos <> [] ->
      raw <> "" -> json_Unmarshal_JobEvent L raw = Ok (mkJobEvent 0 "") ->
      (forall n p,
          (0 < n < Z.of_nat (List.length repos))%Z ->
          json_Marshal_JobEvent L (mkJobEvent n "") = Ok p ->
          p <> "" /\ json_Unmarshal_JobEvent L p = Ok (mkJobEvent n "")) ->
      (List.length repos <= fuel)%nat ->
      (forall o, In o (Chain.sweep L fuel raw w) -> res o = Ok tt) ->
      List.length (Chain.sweep L fuel raw w) = List.length repos /\
      forall (k : nat) (o : Out unit),
        nth_error (Chain.sweep L fuel raw w) k = Some o ->
        In (EvLog (LogProcessingRepo (Z.of_nat k + 1) (List.length repos)
                     (nth k repos ""))) (events o) /\
        (forall p, In p (Chain.dispatched (events o)) ->
                   (k + 1 < List.length repos)%nat /\
                   json_Unmarshal_JobEvent L p
                   = Ok (mkJobEvent (Z.of_nat k + 1) "")) /\
        ((k + 1 = List.length repos)%nat ->
         Chain.dispatched (events o) = [] /\
         In (EvLog (LogCompletedAll (List.length repos))) (events o))).
Proof.
  split.
  - intros evt repos w Hblank count index Hlt current m i o Hm.
    apply (handler_run_chains L evt repos w Hblank Hlt Hm).
  - intros w raw repos fuel Hlaw Hload Hne Hraw Hdec Hjson Hfuel Hfree.
    assert (Hpos : (0 < List.length repos)%nat).
    { destruct repos; [congruence | simpl; lia]. }
    destruct (@sweep_from L w repos Hlaw Hload Hjson fuel 0%Z raw w eq_refl
                ltac:(lia) Hraw Hdec ltac:(lia) Hfree) as [Hlen Hnth].
    split; [lia|].
    intros k o Hk. destruct (Hnth k o Hk) as (A & B & C).
    rewrite Z.add_0_l in A, B, C. rewrite Nat2Z.id in A.
    split; [exact A|]. split.
    + intros p Hin. destruct (B p Hin) as [B1 B2]. split; [lia | exact B2].
    + intros Heq. apply C. lia.
Qed.

Lemma chain_dispatches_next_index_witness :
  let w := Demo.world Demo.chainEnv Demo.noFault Demo.emptyEcr in
  let repos := ["cgr.dev/g/app"; "cgr.dev/g/web"; "cgr.dev/g/api"] in
  (TrimSpace Demo.lib "" = "" /\
   res (Chain.loadRepoList Demo.lib w) = Ok repos /\
   json_Unmarshal_JobEvent Demo.lib "{}" = Ok (mkJobEvent 0 "") /\
   (forall o, In o (Chain.sweep Demo.lib 5 "{}" w) -> res o = Ok tt) /\
   List.length (Chain.sweep Demo.lib 5 "{}" w) = 3%nat) /\
  (res (Chain.mirrorSingleRepo Demo.lib "cgr.dev/g/api" w) = Ok tt /\
   res (Chain.handler_run Demo.lib (mkJobEvent 2 "") repos w) = Ok tt /\
   Chain.dispatched (events (Chain.handler_run Demo.lib (mkJobEvent 2 "") repos w))
   = []).
Proof.
  intros w repos.
  destruct (chain_dispatches_next_index Demo.lib) as [Hone Hsweep].
  split.
  - assert (Hfree : forall o, In o (Chain.sweep Demo.lib 5 "{}" w) -> res o = Ok tt).
    { intros o Hin. vm_compute in Hin.
      destruct Hin as [<-|[<-|[<-|[]]]]; reflexivity. }
    split; [reflexivity|]. split; [reflexivity|]. split; [reflexivity|].
    split; [exact Hfree|].
    refine (proj1 (Hsweep w "{}" repos 5%nat eq_refl eq_refl _ _ eq_refl _ _ Hfree)).
    + discriminate.
    + discriminate.
    + intros n p Hn Hp. simpl in Hn.
      assert (Hcases : n = 1%Z \/ n = 2%Z) by lia.
      destruct Hcases as [-> | ->]; vm_compute in Hp; inversion Hp; subst p;
        split; [discriminate | reflexivity | discriminate | reflexivity].
    + simpl. lia.
  - assert (Hm : res (Chain.mirrorSingleRepo Demo.lib "cgr.dev/g/api" w) = Ok tt)
      by reflexivity.
    split; [exact Hm|].
    destruct (Hone (mkJobEvent 2 "") repos w eq_refl ltac:(simpl; lia) Hm)
      as (_ & _ & Hlast).
    destruct (Hlast eq_refl) as (Hr & _ & Hd & _).
    split; [exact Hr | exact Hd].
Defined.

(** C2 as stated fails when the dispatch fails: the repository at index 0
    of three is mirrored, the call to Invoke is refused, and the invocation
    terminates with an error, no continuation dispatched. *)
Lemma failed_dispatch_fails_the_invocation :
  let o := Chain.handler Demo.lib "{}"
             (Demo.world Demo.chainEnv Demo.invokeDenied Demo.emptyEcr) in
  In (EvLog (LogProcessingRepo 1 3 "cgr.dev/g/app")) (events o) /\
  In (EvLog (LogMirrored "cgr.dev/g/app" 2)) (events o) /\
  isOk (res o) = false /\
  Chain.dispatched (events o) = [].
Proof.
  cbv zeta. split; [in_list|]. split; [in_list|]. split; reflexivity.
Qed.

(* ------------------------------------------------------------------ *)
(** ** Mirroring twice *)

Lemma keepsImages_ret {A} (a : A) : keepsImages (ret a).
Proof. intros w. reflexivity. Qed.

Lemma keepsImages_fail {A} (e : error) : keepsImages (@fail A e).
Proof. intros w. reflexivity. Qed.

Lemma keepsImages_lift {A} (r : result A) : keepsImages (lift r).
Proof. intros w. reflexivity. Qed.

Lemma keepsImages_Getenv (k : string) : keepsImages (Getenv k).
Proof. intros w. reflexivity. Qed.

Lemma keepsImages_log (l : LogLine) : keepsImages (log l).
Proof. intros w. reflexivity. Qed.

Lemma keepsImages_call {A} (c : Call) (answer : World -> result A * EcrState) :
  (forall w, images (snd (answer w)) = images (ecr w)) ->
  keepsImages (call c answer).
Proof.
  intros Ha w. unfold call. specialize (Ha w).
  destruct (fault (dep w) (clock w) c); [reflexivity|].
  destruct (answer w); exact Ha.
Qed.

Lemma keepsImages_query {A} (c : Call) (answer : World -> result A) :
  keepsImages (query c answer).
Proof. apply keepsImages_call. intros w. reflexivity. Qed.

Lemma keepsImages_bind {A B} (m : M A) (k : A -> M B) :
  keepsImages m -> (forall a, keepsImages (k a)) -> keepsImages (bind m k).
Proof.
  intros Hm Hk w. unfold bind.
  destruct (res (m w)) as [a|e]; simpl.
  - rewrite Hk. apply Hm.
  - apply Hm.
Qed.

Lemma keepsImages_attempt {A} (m : M A) : keepsImages m -> keepsImages (attempt m).
Proof. intros Hm w. apply Hm. Qed.

Lemma keepsImages_wrapping {A} (prefix : string) (m : M A) :
  keepsImages m -> keepsImages (wrapping prefix m).
Proof. intros Hm w. apply Hm. Qed.

Ltac keepsImages_step :=
  match goal with
  | |- keepsImages (bind _ _) => apply keepsImages_bind; [|intros]
  | |- keepsImages (attempt _) => apply keepsImages_attempt
  | |- keepsImages (wrapping _ _) => apply keepsImages_wrapping
  | |- keepsImages (ret _) => apply keepsImages_ret
  | |- keepsImages (fail _) => apply keepsImages_fail
  | |- keepsImages (lift _) => apply keepsImages_lift
  | |- keepsImages (Getenv _) => apply keepsImages_Getenv
  | |- keepsImages (log _) => apply keepsImages_log
  | |- keepsImages (query _ _) => apply keepsImages_query
  | |- keepsImages (call _ _) =>
      apply keepsImages_call; intros w;
      match goal with
      | |- context [if ?b then _ else _] => destruct b
      | _ => idtac
      end; reflexivity
  | |- keepsImages (match ?x with _ => _ end) => destruct x
  | |- keepsImages (let _ := _ in _) => cbv zeta
  end.

Lemma mirrorSingleRepo_auth_keepsImages (L : GoLib) :
  keepsImages (Chain.mirrorSingleRepo_auth L).
Proof. unfold Chain.mirrorSingleRepo_auth. unfold_services. repeat keepsImages_step. Qed.

Lemma mirrorSingleRepo_dest_keepsImages (L : GoLib) (srcRepo : string) :
  keepsImages (Chain.mirrorSingleRepo_dest L srcRepo).
Proof. unfold Chain.mirrorSingleRepo_dest. repeat keepsImages_step. Qed.

Lemma mirrorSingleRepo_ensure_keepsImages (dstRepoName : string) :
  keepsImages (Chain.mirrorSingleRepo_ensure dstRepoName).
Proof.
  unfold Chain.mirrorSingleRepo_ensure. unfold_services. repeat keepsImages_step.
Qed.

Lemma mirrorSingleRepo_auth_steady (L : GoLib) : steady (Chain.mirrorSingleRepo_auth L).
Proof. unfold Chain.mirrorSingleRepo_auth. unfold_services. repeat steady_step. Qed.

Lemma mirrorSingleRepo_dest_steady (L : GoLib) (srcRepo : string) :
  steady (Chain.mirrorSingleRepo_dest L srcRepo).
Proof. unfold Chain.mirrorSingleRepo_dest. repeat steady_step. Qed.

Lemma mirrorSingleRepo_ensure_steady (dstRepoName : string) :
  steady (Chain.mirrorSingleRepo_ensure dstRepoName).
Proof.
  unfold Chain.mirrorSingleRepo_ensure. unfold_services. repeat steady_step.
Qed.

Lemma mirrorSingleRepo_tag_steady (L : GoLib)
    (srcRepo ecrEndpoint dstRepoName : string) (srcAuth dstAuth : Basic)
    (tag : string) :
  steady (Chain.mirrorSingleRepo_tag L srcRepo ecrEndpoint dstRepoName
            srcAuth dstAuth tag).
Proof.
  unfold Chain.mirrorSingleRepo_tag, Chain.mirrorSingleRepo_copy.
  unfold_services. repeat steady_step.
Qed.

Lemma stable_lift {A} (r : result A) : stable (lift r).
Proof. intros w w' a a' _ H H'. simpl in *. congruence. Qed.

Lemma mirrorSingleRepo_auth_stable (L : GoLib) : stable (Chain.mirrorSingleRepo_auth L).
Proof.
  unfold Chain.mirrorSingleRepo_auth.
  unfold config_LoadDefaultConfig, ecr_GetAuthorizationToken.
  repeat first [apply stable_lift | stable_step].
Qed.

Lemma mirrorSingleRepo_dest_stable (L : GoLib) (srcRepo : string) :
  stable (Chain.mirrorSingleRepo_dest L srcRepo).
Proof. unfold Chain.mirrorSingleRepo_dest. repeat stable_step. Qed.

(** The answers of the source and of the destination, when they answer. *)
Lemma remote_Get_Ok (ref : Reference) (auth : Basic) (w : World) (desc : Descriptor) :
  res (remote_Get ref auth w) = Ok desc -> src_manifest (dep w) ref = Some desc.
Proof.
  unfold remote_Get, query, call.
  destruct (fault (dep w) (clock w) (CGet ref auth)); [discriminate|].
  destruct (src_manifest (dep w) ref); simpl; congruence.
Qed.

Lemma remote_List_Ok (repo : Repository) (auth : Basic) (w : World)
    (tags : list string) :
  res (remote_List repo auth w) = Ok tags -> tags = src_tags (dep w) repo.
Proof.
  unfold remote_List, query, call.
  destruct (fault (dep w) (clock w) (CList repo auth)); [discriminate|].
  simpl. congruence.
Qed.

Lemma ecr_BatchGetImage_Ok (repo tag : string) (w : World) (out : BatchGetImageOutput) :
  res (ecr_BatchGetImage repo tag w) = Ok out ->
  destDigest (Ok out) = lookupImage (images (ecr w)) repo tag.
Proof.
  unfold ecr_BatchGetImage, query, call, recordedDigest.
  destruct (fault (dep w) (clock w) (CBatchGetImage repo tag)); [discriminate|].
  destruct (hasRepository (ecr w) repo); [|discriminate].
  destruct (lookupImage (images (ecr w)) repo tag); simpl; intros H;
    inversion H; reflexivity.
Qed.

Lemma lookupImage_put (imgs : list (string * string * string))
    (repo tag digest repo' tag' : string) :
  lookupImage ((repo, tag, digest) :: imgs) repo' tag'
  = if String.eqb repo repo' && String.eqb tag tag' then Some digest
    else lookupImage imgs repo' tag'.
Proof. reflexivity. Qed.

(** A copy that succeeded recorded the digest of the source under the
    reference of the destination. *)
Lemma mirrorSingleRepo_copy_Ok (src dst : string) (dstRef : Reference)
    (desc : Descriptor) (dstAuth : Basic) (w : World) :
  res (Chain.mirrorSingleRepo_copy src dst dstRef desc dstAuth w) = Ok tt ->
  images (ecr (after (Chain.mirrorSingleRepo_copy src dst dstRef desc dstAuth w)))
  = (RepositoryStr (RefContext dstRef), Identifier dstRef, Hash_String (Digest desc))
    :: images (ecr w).
Proof.
  unfold Chain.mirrorSingleRepo_copy, Descriptor_Image, Descriptor_ImageIndex,
    remote_Write, remote_WriteIndex, bind, wrapping, log, query, call.
  destruct (IsIndex (MediaType desc)); cbn [res after events].
  - destruct (fault (dep w) (clock w) (CImageIndex desc));
      cbn [res after events dep clock ecr fst snd]; [discriminate|].
    destruct (fault (dep w) (S (clock w)) (CWriteIndex dstRef desc dstAuth));
      cbn [res after events dep clock ecr]; [discriminate|].
    intros _. reflexivity.
  - destruct (fault (dep w) (clock w) (CImage desc));
      cbn [res after events dep clock ecr fst snd]; [discriminate|].
    destruct (fault (dep w) (S (clock w)) (CWrite dstRef desc dstAuth));
      cbn [res after events dep clock ecr]; [discriminate|].
    intros _. reflexivity.
Qed.

(** The step of a tag, case by case. *)
Lemma mirrorSingleRepo_tag_run (L : GoLib) (w : World)
    (srcRepo ecrEndpoint dstRepoName : string) (srcAuth dstAuth : Basic)
    (tag : string) :
  let src := srcRepo ++ ":" ++ tag in
  let dst := ecrEndpoint ++ "/" ++ dstRepoName ++ ":" ++ tag in
  Chain.mirrorSingleRepo_tag L srcRepo ecrEndpoint dstRepoName srcAuth dstAuth tag w
  = match name_ParseReference L src with
    | Err e => mkOut (Err (Errorf_w ("parse src ref " ++ src) e)) w []
    | Ok srcRef =>
        match name_ParseReference L dst with
        | Err e => mkOut (Err (Errorf_w ("parse dst ref " ++ dst) e)) w []
        | Ok dstRef =>
            let get := remote_Get srcRef srcAuth w in
            match res get with
            | Err e => mkOut (Err (Errorf_w ("get " ++ src) e)) (after get) (events get)
            | Ok desc =>
                let lookup := ecr_BatchGetImage dstRepoName tag (after get) in
                let copy := Chain.mirrorSingleRepo_copy src dst dstRef desc dstAuth
                              (after lookup) in
                if Chain.alreadyPresent (res lookup) (Hash_String (Digest desc))
                then mkOut (Ok tt) (after lookup)
                           (events get ++ events lookup ++
                            [EvLog (LogSkipping srcRepo tag (Hash_String (Digest desc)))])%list
                else mkOut (res copy) (after copy)
                           (events get ++ events lookup ++ events copy)%list
            end
        end
    end.
Proof.
  cbv zeta.
  destruct (name_ParseReference L (srcRepo ++ ":" ++ tag)) as [srcRef|e] eqn:Hs.
  2:{ unfold Chain.mirrorSingleRepo_tag. rewrite Hs. reflexivity. }
  destruct (name_ParseReference L (ecrEndpoint ++ "/" ++ dstRepoName ++ ":" ++ tag))
    as [dstRef|e] eqn:Hd.
  2:{ unfold Chain.mirrorSingleRepo_tag. rewrite Hs, Hd. reflexivity. }
  destruct (res (remote_Get srcRef srcAuth w)) as [desc|e] eqn:Hg.
  - apply (mirrorSingleRepo_tag_fetched L w _ _ _ _ dstAuth _ Hs Hd Hg).
  - unfold Chain.mirrorSingleRepo_tag. rewrite Hs, Hd.
    unfold bind, wrapping, lift; cbn [res after events app]. rewrite Hg.
    reflexivity.
Qed.

Section Twice.

Variable L : GoLib.
Variables srcRepo ecrEndpoint dstRepoName : string.
Variables srcAuth dstAuth : Basic.
Hypothesis Hparse : destinationNamesParse L ecrEndpoint.

Local Abbreviation step :=
  (Chain.mirrorSingleRepo_tag L srcRepo ecrEndpoint dstRepoName srcAuth dstAuth).

(** First run: a step that succeeds leaves its tag mirrored, and leaves
    mirrored the tags that were. *)
Lemma tag_step_mirrors (tag : string) (w : World) :
  res (step tag w) = Ok tt ->
  mirrored L (dep w) srcRepo dstRepoName (images (ecr (after (step tag w)))) tag /\
  forall t,
    mirrored L (dep w) srcRepo dstRepoName (images (ecr w)) t ->
    mirrored L (dep w) srcRepo dstRepoName (images (ecr (after (step tag w)))) t.
Proof.
  rewrite mirrorSingleRepo_tag_run. cbv zeta.
  destruct (name_ParseReference L (srcRepo ++ ":" ++ tag)) as [srcRef|e] eqn:Hs;
    [|discriminate].
  destruct (name_ParseReference L (ecrEndpoint ++ "/" ++ dstRepoName ++ ":" ++ tag))
    as [dstRef|e] eqn:Hd; [|discriminate].
  destruct (res (remote_Get srcRef srcAuth w)) as [desc|e] eqn:Hg; [|discriminate].
  pose proof (remote_Get_Ok _ _ _ Hg) as Hm.
  assert (Ew1 : ecr (after (remote_Get srcRef srcAuth w)) = ecr w)
    by (unfold remote_Get; apply query_ecr).
  assert (Ew2 : ecr (after (ecr_BatchGetImage dstRepoName tag
                              (after (remote_Get srcRef srcAuth w)))) = ecr w)
    by (unfold ecr_BatchGetImage; rewrite query_ecr; exact Ew1).
  destruct (Chain.alreadyPresent _ _) eqn:Hp; cbn [res after].
  - intros _. rewrite Ew2. split; [|intros t Ht; exact Ht].
    intros srcRef' Hs'. rewrite Hs in Hs'. inversion Hs'; subst srcRef'.
    exists desc. split; [exact Hm|].
    apply alreadyPresent_iff in Hp.
    destruct (res (ecr_BatchGetImage dstRepoName tag
                     (after (remote_Get srcRef srcAuth w)))) as [out|e] eqn:Hl;
      [|discriminate].
    rewrite (ecr_BatchGetImage_Ok _ _ _ Hl), Ew1 in Hp. exact Hp.
  - intros Hc. rewrite (mirrorSingleRepo_copy_Ok _ _ _ _ _ _ Hc), Ew2.
    destruct (Hparse _ _ Hd) as [-> ->].
    split.
    + intros srcRef' Hs'. rewrite Hs in Hs'. inversion Hs'; subst srcRef'.
      exists desc. split; [exact Hm|].
      rewrite lookupImage_put, !String.eqb_refl. reflexivity.
    + intros t Ht srcRef' Hs'. destruct (Ht srcRef' Hs') as (desc' & Hm' & Hl').
      exists desc'. split; [exact Hm'|].
      rewrite lookupImage_put, String.eqb_refl. cbn [andb].
      destruct (String.eqb_spec tag t) as [<-|Hne]; [|exact Hl'].
      rewrite Hs in Hs'. inversion Hs'; subst srcRef'.
      rewrite Hm in Hm'. inversion Hm'. reflexivity.
Qed.

(** First run: a loop that succeeds leaves all its tags mirrored. *)
Lemma tags_loop_mirrors (tags : list string) (w : World) :
  res (forEach tags step w) = Ok tt ->
  (forall t,
      mirrored L (dep w) srcRepo dstRepoName (images (ecr w)) t ->
      mirrored L (dep w) srcRepo dstRepoName
               (images (ecr (after (forEach tags step w)))) t) /\
  forall t,
    In t tags ->
    mirrored L (dep w) srcRepo dstRepoName
             (images (ecr (after (forEach tags step w)))) t.
Proof.
  revert w. induction tags as [|tag tags IH]; intros w; cbn [forEach].
  - intros _. split; [intros t Ht; exact Ht | intros t []].
  - unfold bind. destruct (res (step tag w)) as [[]|e] eqn:Hstep; [|discriminate].
    cbn [res after]. intros Hrest.
    destruct (tag_step_mirrors tag w Hstep) as [Hnew Hkeep].
    assert (Hdep : dep (after (step tag w)) = dep w)
      by apply mirrorSingleRepo_tag_steady.
    destruct (IH (after (step tag w)) Hrest) as [IHkeep IHnew].
    rewrite Hdep in IHkeep, IHnew.
    split.
    + intros t Ht. apply IHkeep, Hkeep, Ht.
    + intros t [<-|Hin]; [apply IHkeep, Hnew | apply IHnew, Hin].
Qed.

End Twice.

Lemma remote_Get_events (ref : Reference) (auth : Basic) (w : World) :
  events (remote_Get ref auth w)
  = [EvCall (CGet ref auth) (errOf (res (remote_Get ref auth w)))].
Proof. apply call_events. Qed.

Lemma ecr_BatchGetImage_events (repo tag : string) (w : World) :
  events (ecr_BatchGetImage repo tag w)
  = [EvCall (CBatchGetImage repo tag) (errOf (res (ecr_BatchGetImage repo tag w)))].
Proof. apply call_events. Qed.

Lemma noTransfer_app (evs evs' : list Event) :
  noTransfer evs -> noTransfer evs' -> noTransfer (evs ++ evs').
Proof.
  unfold noTransfer. intros H H'. rewrite forallb_app, H, H'. reflexivity.
Qed.

Lemma allSkipped_app (srcRepo : string) (evs evs' : list Event) :
  allSkipped srcRepo evs -> allSkipped srcRepo evs' ->
  allSkipped srcRepo (evs ++ evs').
Proof.
  intros H H' repo tag outcome Hin. apply in_app_or in Hin.
  destruct Hin as [Hin|Hin].
  - destruct (H repo tag outcome Hin) as [d Hd]. exists d.
    apply in_or_app. left. exact Hd.
  - destruct (H' repo tag outcome Hin) as [d Hd]. exists d.
    apply in_or_app. right. exact Hd.
Qed.

(** Events among which there is no lookup *)
Lemma allSkipped_none (srcRepo : string) (evs : list Event) :
  forallb (fun ev => match ev with
                     | EvCall (CBatchGetImage _ _) _ => false
                     | _ => true
                     end) evs = true ->
  allSkipped srcRepo evs.
Proof.
  intros H repo tag outcome Hin. rewrite forallb_forall in H.
  specialize (H _ Hin). discriminate.
Qed.

Section Again.

Variable L : GoLib.
Variables srcRepo ecrEndpoint dstRepoName : string.
Variables srcAuth dstAuth : Basic.

Local Abbreviation step :=
  (Chain.mirrorSingleRepo_tag L srcRepo ecrEndpoint dstRepoName srcAuth dstAuth).

(** Second run: the step of a mirrored tag whose lookup is answered skips
    the tag. *)
Lemma tag_step_skips (tag : string) (w : World) :
  mirrored L (dep w) srcRepo dstRepoName (images (ecr w)) tag ->
  existsb isFailedLookup (events (step tag w)) = false ->
  images (ecr (after (step tag w))) = images (ecr w) /\
  noTransfer (events (step tag w)) /\
  allSkipped srcRepo (events (step tag w)).
Proof.
  intros Hmir. rewrite mirrorSingleRepo_tag_run. cbv zeta.
  destruct (name_ParseReference L (srcRepo ++ ":" ++ tag)) as [srcRef|e] eqn:Hs.
  2:{ intros _. repeat split. intros repo t outcome []. }
  destruct (name_ParseReference L (ecrEndpoint ++ "/" ++ dstRepoName ++ ":" ++ tag))
    as [dstRef|e] eqn:Hd.
  2:{ intros _. repeat split. intros repo t outcome []. }
  assert (Ew1 : ecr (after (remote_Get srcRef srcAuth w)) = ecr w)
    by (unfold remote_Get; apply query_ecr).
  destruct (res (remote_Get srcRef srcAuth w)) as [desc|e] eqn:Hg.
  2:{ intros _. cbn [after events]. rewrite Ew1, remote_Get_events.
      repeat split. intros repo t outcome [H|[]]. discriminate. }
  pose proof (remote_Get_Ok _ _ _ Hg) as Hm.
  destruct (Hmir srcRef Hs) as (desc' & Hm' & Hl').
  rewrite Hm in Hm'. inversion Hm'; subst desc'. clear Hm'.
  assert (Ew2 : ecr (after (ecr_BatchGetImage dstRepoName tag
                              (after (remote_Get srcRef srcAuth w)))) = ecr w)
    by (unfold ecr_BatchGetImage; rewrite query_ecr; exact Ew1).
  rewrite remote_Get_events, ecr_BatchGetImage_events.
  destruct (res (ecr_BatchGetImage dstRepoName tag
                   (after (remote_Get srcRef srcAuth w)))) as [out|e] eqn:Hl.
  - pose proof (ecr_BatchGetImage_Ok _ _ _ Hl) as Hans.
    rewrite Ew1, Hl' in Hans. apply alreadyPresent_iff in Hans.
    rewrite Hans. cbn [after events errOf]. intros _.
    rewrite Ew2. split; [reflexivity|]. split; [reflexivity|].
    intros repo t outcome Hin. exists (Hash_String (Digest desc)).
    cbn [app] in *.
    destruct Hin as [H|[H|[H|[]]]]; inversion H; subst.
    right. right. left. reflexivity.
  - cbn [Chain.alreadyPresent errOf]. cbn [events app].
    intros Hno. simpl in Hno. discriminate.
Qed.

(** Second run: the loop over mirrored tags skips every tag it reaches. *)
Lemma tags_loop_skips (tags : list string) (w : World) :
  (forall t, In t tags ->
             mirrored L (dep w) srcRepo dstRepoName (images (ecr w)) t) ->
  existsb isFailedLookup (events (forEach tags step w)) = false ->
  images (ecr (after (forEach tags step w))) = images (ecr w) /\
  noTransfer (events (forEach tags step w)) /\
  allSkipped srcRepo (events (forEach tags step w)).
Proof.
  revert w. induction tags as [|tag tags IH]; intros w Hmir; cbn [forEach].
  - intros _. repeat split. intros repo t outcome [].
  - unfold bind.
    destruct (res (step tag w)) as [[]|e] eqn:Hstep; cbn [res after events].
    + rewrite existsb_app. intros Hno. apply orb_false_iff in Hno.
      destruct Hno as [Hno1 Hno2].
      destruct (@tag_step_skips tag w (Hmir tag (or_introl eq_refl)) Hno1)
        as (Himg & Hnt & Hsk).
      assert (Hdep : dep (after (step tag w)) = dep w)
        by apply mirrorSingleRepo_tag_steady.
      destruct (IH (after (step tag w))) as (Himg' & Hnt' & Hsk').
      { intros t Hin. rewrite Hdep, Himg. apply Hmir. right. exact Hin. }
      { exact Hno2. }
      split; [rewrite Himg'; exact Himg|].
      split; [apply noTransfer_app; assumption | apply allSkipped_app; assumption].
    + intros Hno.
      destruct (@tag_step_skips tag w (Hmir tag (or_introl eq_refl)) Hno)
        as (Himg & Hnt & Hsk).
      split; [exact Himg|]. split; assumption.
Qed.

End Again.

Section TwiceTags.

Variable L : GoLib.
Variables srcRepo ecrEndpoint dstRepoName : string.
Variables srcAuth dstAuth : Basic.
Hypothesis Hparse : destinationNamesParse L ecrEndpoint.

Local Abbreviation step :=
  (Chain.mirrorSingleRepo_tag L srcRepo ecrEndpoint dstRepoName srcAuth dstAuth).

Local Abbreviation loop tags :=
  (bind (forEach tags step)
        (fun _ => log (LogMirrored srcRepo (List.length tags)))).

Lemma loop_twice (tags : list string) (wa wb : World) :
  dep wa = dep wb ->
  res (loop tags wa) = Ok tt ->
  images (ecr wb) = images (ecr (after (loop tags wa))) ->
  existsb isFailedLookup (events (loop tags wb)) = false ->
  noTransfer (events (loop tags wb)) /\ allSkipped srcRepo (events (loop tags wb)).
Proof.
  intros Hdep. unfold bind.
  destruct (res (forEach tags step wa)) as [[]|e] eqn:Ra; [|discriminate].
  cbn [res after events log]. intros _ Himg.
  destruct (@tags_loop_mirrors L srcRepo ecrEndpoint dstRepoName srcAuth dstAuth
              Hparse tags wa Ra) as [_ Hall].
  rewrite Hdep, <- Himg in Hall.
  destruct (res (forEach tags step wb)) as [[]|e] eqn:Rb; cbn [res after events log].
  - rewrite existsb_app. intros Hno. apply orb_false_iff in Hno.
    destruct Hno as [Hno _].
    destruct (@tags_loop_skips L srcRepo ecrEndpoint dstRepoName srcAuth dstAuth
                tags wb Hall Hno) as (_ & Hnt & Hsk).
    split.
    + apply noTransfer_app; [exact Hnt | reflexivity].
    + apply allSkipped_app; [exact Hsk | apply allSkipped_none; reflexivity].
  - intros Hno.
    destruct (@tags_loop_skips L srcRepo ecrEndpoint dstRepoName srcAuth dstAuth
                tags wb Hall Hno) as (_ & Hnt & Hsk).
    split; assumption.
Qed.

Local Abbreviation tagsM :=
  (Chain.mirrorSingleRepo_tags L srcRepo ecrEndpoint dstRepoName srcAuth dstAuth).

Lemma remote_List_events (repo : Repository) (auth : Basic) (w : World) :
  events (remote_List repo auth w)
  = [EvCall (CList repo auth) (errOf (res (remote_List repo auth w)))].
Proof. apply call_events. Qed.

Lemma remote_List_ecr (repo : Repository) (auth : Basic) (w : World) :
  ecr (after (remote_List repo auth w)) = ecr w.
Proof. unfold remote_List. apply query_ecr. Qed.

Lemma remote_List_dep (repo : Repository) (auth : Basic) (w : World) :
  dep (after (remote_List repo auth w)) = dep w.
Proof. unfold remote_List, query. apply steady_call. Qed.

(** The tags phase, case by case. *)
Lemma mirrorSingleRepo_tags_run (w : World) :
  tagsM w
  = if EqualFold L (environ (dep w) "COPY_ALL_TAGS") "true" then
      match name_NewRepository L srcRepo with
      | Err e => mkOut (Err (Errorf_w "parse src repository" e)) w []
      | Ok repoRef =>
          let l := remote_List repoRef srcAuth w in
          match res l with
          | Err e =>
              mkOut (Err (Errorf_w ("list tags for " ++ srcRepo) e)) (after l) (events l)
          | Ok [] =>
              mkOut (Ok tt) (after l) (events l ++ [EvLog (LogNoTags srcRepo)])%list
          | Ok (t :: ts) =>
              let r := loop (t :: ts) (after l) in
              mkOut (res r) (after r) (events l ++ events r)%list
          end
      end
    else
      let r := loop ["latest"] w in
      mkOut (res r) (after r) (events r).
Proof.
  unfold Chain.mirrorSingleRepo_tags.
  erewrite bind_Ok by reflexivity.
  change (after (Getenv "COPY_ALL_TAGS" w)) with w.
  change (events (Getenv "COPY_ALL_TAGS" w)) with (@nil Event).
  cbv zeta. cbn [app].
  destruct (EqualFold L (environ (dep w) "COPY_ALL_TAGS") "true");
    [|reflexivity].
  destruct (name_NewRepository L srcRepo) as [repoRef|e].
  2:{ erewrite bind_Err by reflexivity. reflexivity. }
  erewrite bind_Ok by reflexivity.
  change (after (wrapping "parse src repository" (lift (Ok repoRef)) w)) with w.
  change (events (wrapping "parse src repository" (lift (Ok repoRef)) w))
    with (@nil Event).
  cbn [app].
  destruct (res (remote_List repoRef srcAuth w)) as [tags|e] eqn:R.
  - erewrite bind_Ok by (unfold wrapping; cbn [res]; rewrite R; reflexivity).
    change (after (wrapping ("list tags for " ++ srcRepo)
                            (remote_List repoRef srcAuth) w))
      with (after (remote_List repoRef srcAuth w)).
    change (events (wrapping ("list tags for " ++ srcRepo)
                             (remote_List repoRef srcAuth) w))
      with (events (remote_List repoRef srcAuth w)).
    destruct tags as [|t ts]; reflexivity.
  - erewrite bind_Err by (unfold wrapping; cbn [res]; rewrite R; reflexivity).
    reflexivity.
Qed.

(** The tags phase, twice: when the first run succeeded and the second run
    starts from the images the first one left, the second run skips every
    tag whose lookup is answered. *)
Lemma tags_twice (wa wb : World) :
  dep wa = dep wb ->
  res (tagsM wa) = Ok tt ->
  images (ecr wb) = images (ecr (after (tagsM wa))) ->
  existsb isFailedLookup (events (tagsM wb)) = false ->
  noTransfer (events (tagsM wb)) /\ allSkipped srcRepo (events (tagsM wb)).
Proof.
  intros Hdep. rewrite !mirrorSingleRepo_tags_run. rewrite Hdep.
  destruct (EqualFold L (environ (dep wb) "COPY_ALL_TAGS") "true").
  - destruct (name_NewRepository L srcRepo) as [repoRef|e]; [|discriminate].
    cbv zeta. rewrite !remote_List_events.
    destruct (res (remote_List repoRef srcAuth wa)) as [tagsa|e] eqn:Ra;
      [|discriminate].
    apply remote_List_Ok in Ra.
    destruct (res (remote_List repoRef srcAuth wb)) as [tagsb|e] eqn:Rb.
    2:{ intros _ _ _. cbn [events errOf]. split; [reflexivity|].
        intros repo t outcome [H|[]]. discriminate. }
    apply remote_List_Ok in Rb. rewrite Hdep in Ra. subst tagsa tagsb.
    destruct (src_tags (dep wb) repoRef) as [|t ts]; cbn [res after events errOf].
    + intros _ _ _. split; [reflexivity|].
      intros repo t outcome [H|[H|[]]]; discriminate.
    + intros R1 Himg Hno.
      change ([?x] ++ ?r)%list with (x :: r) in Hno. simpl existsb in Hno.
      destruct (@loop_twice (t :: ts) (after (remote_List repoRef srcAuth wa))
                  (after (remote_List repoRef srcAuth wb)))
        as [Hnt Hsk]; try assumption.
      * rewrite !remote_List_dep. exact Hdep.
      * rewrite remote_List_ecr. exact Himg.
      * split.
        -- apply noTransfer_app; [reflexivity | exact Hnt].
        -- apply allSkipped_app; [|exact Hsk].
           apply allSkipped_none. reflexivity.
  - cbv zeta. cbn [res after events]. intros R1 Himg Hno.
    apply (@loop_twice ["latest"] wa wb Hdep R1 Himg Hno).
Qed.

End TwiceTags.

(** ** Two passes over the same repository *)

Lemma mirrorSingleRepo_auth_beforeTags (L : GoLib) :
  only beforeTags (Chain.mirrorSingleRepo_auth L).
Proof. unfold Chain.mirrorSingleRepo_auth. unfold_services. repeat only_step. Qed.

Lemma mirrorSingleRepo_dest_beforeTags (L : GoLib) (srcRepo : string) :
  only beforeTags (Chain.mirrorSingleRepo_dest L srcRepo).
Proof. unfold Chain.mirrorSingleRepo_dest. repeat only_step. Qed.

Lemma mirrorSingleRepo_ensure_beforeTags (dstRepoName : string) :
  only beforeTags (Chain.mirrorSingleRepo_ensure dstRepoName).
Proof.
  unfold Chain.mirrorSingleRepo_ensure. unfold_services. repeat only_step.
Qed.

Lemma beforeTags_noTransfer (evs : list Event) :
  forallb beforeTags evs = true -> noTransfer evs.
Proof.
  unfold noTransfer. intros H. rewrite forallb_forall in *.
  intros ev Hin. specialize (H ev Hin).
  destruct ev as [[] ?|[]]; try discriminate; reflexivity.
Qed.

Lemma beforeTags_allSkipped (srcRepo : string) (evs : list Event) :
  forallb beforeTags evs = true -> allSkipped srcRepo evs.
Proof.
  intros H repo tag outcome Hin. rewrite forallb_forall in H.
  specialize (H _ Hin). discriminate.
Qed.

(** A pass of [mirrorSingleRepo], phase by phase. *)
Lemma mirrorSingleRepo_run (L : GoLib) (srcRepo : string) (w : World) :
  Chain.mirrorSingleRepo L srcRepo w
  = if EqualFold L (environ (dep w) "MIRROR_DRY_RUN") "true" then
      mkOut (Ok tt) w [EvLog (LogDryRun srcRepo)]
    else
      let a := Chain.mirrorSingleRepo_auth L w in
      match res a with
      | Err e => mkOut (Err e) (after a) (events a)
      | Ok (srcAuth, dstAuth, ecrEndpoint) =>
          let d := Chain.mirrorSingleRepo_dest L srcRepo (after a) in
          match res d with
          | Err e => mkOut (Err e) (after d) (events a ++ events d)%list
          | Ok dstRepoName =>
              let en := Chain.mirrorSingleRepo_ensure dstRepoName (after d) in
              match res en with
              | Err e =>
                  mkOut (Err e) (after en) (events a ++ events d ++ events en)%list
              | Ok _ =>
                  let t := Chain.mirrorSingleRepo_tags L srcRepo ecrEndpoint
                             dstRepoName srcAuth dstAuth (after en) in
                  mkOut (res t) (after t)
                        (events a ++ events d ++ events en ++ events t)%list
              end
          end
      end.
Proof.
  unfold Chain.mirrorSingleRepo.
  erewrite bind_Ok by reflexivity.
  change (after (Getenv "MIRROR_DRY_RUN" w)) with w.
  change (events (Getenv "MIRROR_DRY_RUN" w)) with (@nil Event).
  cbn [app].
  destruct (EqualFold L (environ (dep w) "MIRROR_DRY_RUN") "true");
    [reflexivity|].
  cbv zeta.
  destruct (res (Chain.mirrorSingleRepo_auth L w)) as [[[sa da] ep]|e] eqn:Ra.
  2:{ erewrite bind_Err by exact Ra. reflexivity. }
  erewrite bind_Ok by exact Ra. cbv beta iota.
  destruct (res (Chain.mirrorSingleRepo_dest L srcRepo
                   (after (Chain.mirrorSingleRepo_auth L w)))) as [name|e] eqn:Rd.
  2:{ erewrite bind_Err by exact Rd. reflexivity. }
  erewrite bind_Ok by exact Rd.
  destruct (res (Chain.mirrorSingleRepo_ensure name
                   (after (Chain.mirrorSingleRepo_dest L srcRepo
                             (after (Chain.mirrorSingleRepo_auth L w))))))
    as [[]|e] eqn:Re.
  2:{ erewrite bind_Err by exact Re. reflexivity. }
  erewrite bind_Ok by exact Re. reflexivity.
Qed.

(** Two passes from worlds of the same deployment, the second one starting
    from the images the first one left. *)
Lemma mirrorSingleRepo_twice (L : GoLib) (srcRepo : string) (wa wb : World) :
  dep wa = dep wb ->
  (forall srcAuth dstAuth ecrEndpoint,
      res (Chain.mirrorSingleRepo_auth L wa) = Ok (srcAuth, dstAuth, ecrEndpoint) ->
      destinationNamesParse L ecrEndpoint) ->
  res (Chain.mirrorSingleRepo L srcRepo wa) = Ok tt ->
  images (ecr wb) = images (ecr (after (Chain.mirrorSingleRepo L srcRepo wa))) ->
  existsb isFailedLookup (events (Chain.mirrorSingleRepo L srcRepo wb)) = false ->
  noTransfer (events (Chain.mirrorSingleRepo L srcRepo wb)) /\
  allSkipped srcRepo (events (Chain.mirrorSingleRepo L srcRepo wb)).
Proof.
  intros Hdep Hparse. rewrite !mirrorSingleRepo_run. rewrite Hdep.
  destruct (EqualFold L (environ (dep wb) "MIRROR_DRY_RUN") "true").
  { intros _ _ _. split; [reflexivity|].
    apply beforeTags_allSkipped. reflexivity. }
  cbv zeta.
  pose proof (mirrorSingleRepo_auth_beforeTags L wb) as Qa.
  pose proof (mirrorSingleRepo_auth_steady L wa) as Sa.
  pose proof (mirrorSingleRepo_auth_steady L wb) as Sb.
  pose proof (mirrorSingleRepo_auth_keepsImages L wa) as Ka.
  pose proof (mirrorSingleRepo_auth_keepsImages L wb) as Kb.
  destruct (res (Chain.mirrorSingleRepo_auth L wa)) as [[[sa da] ep]|e] eqn:Ra;
    [|discriminate].
  specialize (Hparse sa da ep eq_refl).
  destruct (res (Chain.mirrorSingleRepo_auth L wb)) as [[[sa' da'] ep']|e] eqn:Rb.
  2:{ intros _ _ _. cbn [events]. split;
        [apply beforeTags_noTransfer | apply beforeTags_allSkipped]; exact Qa. }
  assert (E : (sa, da, ep) = (sa', da', ep'))
    by exact (@mirrorSingleRepo_auth_stable L wa wb _ _ Hdep Ra Rb).
  injection E as <- <- <-.
  remember (after (Chain.mirrorSingleRepo_auth L wa)) as wa1 eqn:Ewa1.
  remember (after (Chain.mirrorSingleRepo_auth L wb)) as wb1 eqn:Ewb1.
  assert (Hdep1 : dep wa1 = dep wb1) by congruence.
  pose proof (mirrorSingleRepo_dest_beforeTags L srcRepo wb1) as Qd.
  pose proof (mirrorSingleRepo_dest_steady L srcRepo wa1) as Sda.
  pose proof (mirrorSingleRepo_dest_steady L srcRepo wb1) as Sdb.
  pose proof (mirrorSingleRepo_dest_keepsImages L srcRepo wa1) as Kda.
  pose proof (mirrorSingleRepo_dest_keepsImages L srcRepo wb1) as Kdb.
  destruct (res (Chain.mirrorSingleRepo_dest L srcRepo wa1)) as [name|e] eqn:Rda;
    [|discriminate].
  destruct (res (Chain.mirrorSingleRepo_dest L srcRepo wb1)) as [name'|e] eqn:Rdb.
  2:{ intros _ _ _. cbn [events]. split.
      - apply noTransfer_app; apply beforeTags_noTransfer; assumption.
      - apply allSkipped_app; apply beforeTags_allSkipped; assumption. }
  assert (E : name = name')
    by exact (@mirrorSingleRepo_dest_stable L srcRepo wa1 wb1 _ _ Hdep1 Rda Rdb).
  subst name'.
  remember (after (Chain.mirrorSingleRepo_dest L srcRepo wa1)) as wa2 eqn:Ewa2.
  remember (after (Chain.mirrorSingleRepo_dest L srcRepo wb1)) as wb2 eqn:Ewb2.
  assert (Hdep2 : dep wa2 = dep wb2) by congruence.
  pose proof (mirrorSingleRepo_ensure_beforeTags name wb2) as Qe.
  pose proof (mirrorSingleRepo_ensure_steady name wa2) as Sea.
  pose proof (mirrorSingleRepo_ensure_steady name wb2) as Seb.
  pose proof (mirrorSingleRepo_ensure_keepsImages name wa2) as Kea.
  pose proof (mirrorSingleRepo_ensure_keepsImages name wb2) as Keb.
  destruct (res (Chain.mirrorSingleRepo_ensure name wa2)) as [[]|e] eqn:Rea;
    [|discriminate].
  destruct (res (Chain.mirrorSingleRepo_ensure name wb2)) as [[]|e] eqn:Reb.
  2:{ intros _ _ _. cbn [events]. split.
      - apply noTransfer_app; [|apply noTransfer_app];
          apply beforeTags_noTransfer; assumption.
      - apply allSkipped_app; [|apply allSkipped_app];
          apply beforeTags_allSkipped; assumption. }
  remember (after (Chain.mirrorSingleRepo_ensure name wa2)) as wa3 eqn:Ewa3.
  remember (after (Chain.mirrorSingleRepo_ensure name wb2)) as wb3 eqn:Ewb3.
  assert (Hdep3 : dep wa3 = dep wb3) by congruence.
  cbn [res after events]. intros Rt Himg Hno.
  rewrite !existsb_app in Hno.
  apply orb_false_iff in Hno as [_ Hno].
  apply orb_false_iff in Hno as [_ Hno].
  apply orb_false_iff in Hno as [_ Hno].
  assert (Himg3 : images (ecr wb3)
                  = images (ecr (after (Chain.mirrorSingleRepo_tags L srcRepo ep
                                          name sa da wa3)))) by congruence.
  destruct (@tags_twice L srcRepo ep name sa da Hparse wa3 wb3 Hdep3 Rt Himg3 Hno)
    as [Hnt Hsk].
  split.
  - apply noTransfer_app; [|apply noTransfer_app; [|apply noTransfer_app]];
      solve [apply beforeTags_noTransfer; assumption | exact Hnt].
  - apply allSkipped_app; [|apply allSkipped_app; [|apply allSkipped_app]];
      solve [apply beforeTags_allSkipped; assumption | exact Hsk].
Qed.

Lemma noTransfer_transfers (evs : list Event) :
  noTransfer evs -> transfers evs = [].
Proof.
  unfold noTransfer, transfers. induction evs as [|ev evs IH]; [reflexivity|].
  simpl. intros H. apply andb_true_iff in H as [H1 H2].
  apply andb_true_iff in H1 as [_ H1].
  destruct (isWrite ev); [discriminate|]. apply IH, H2.
Qed.

(** The stand-in for [name.ParseReference] reads the names of the
    destination back. *)
Lemma hasByte_app (c : ascii) (a b : string) :
  Demo.hasByte c (a ++ b) = Demo.hasByte c a || Demo.hasByte c b.
Proof.
  induction a as [|h a IH]; simpl; [reflexivity|].
  rewrite IH, orb_assoc. reflexivity.
Qed.

Lemma splitFirst_app (c : ascii) (a b : string) :
  Demo.hasByte c a = false ->
  Demo.splitFirst c (a ++ b)
  = match Demo.splitFirst c b with
    | Some (x, y) => Some (a ++ x, y)
    | None => None
    end.
Proof.
  induction a as [|h a IH]; simpl; intros H.
  - destruct (Demo.splitFirst c b) as [[x y]|]; reflexivity.
  - apply orb_false_iff in H as [H1 H2]. rewrite H1, (IH H2).
    destruct (Demo.splitFirst c b) as [[x y]|]; reflexivity.
Qed.

Lemma splitFirst_sep (c : ascii) (a b x y : string) :
  Demo.splitFirst c (a ++ String c b) = Some (x, y) ->
  Demo.hasByte c y = false ->
  x = a /\ y = b.
Proof.
  revert x. induction a as [|h a IH]; simpl; intros x.
  - rewrite Ascii.eqb_refl. intros [= <- <-] _. split; reflexivity.
  - destruct (Ascii.eqb h c) eqn:E.
    + intros [= <- <-] Hy. rewrite hasByte_app in Hy. simpl in Hy.
      rewrite Ascii.eqb_refl, orb_true_r in Hy. discriminate.
    + destruct (Demo.splitFirst c (a ++ String c b)) as [[x' y']|] eqn:E2;
        [|discriminate].
      intros [= <- <-] Hy. destruct (IH _ eq_refl Hy) as [-> ->].
      split; reflexivity.
Qed.

Lemma demo_destination_names_parse :
  destinationNamesParse Demo.lib Demo.endpoint.
Proof.
  intros repo tag ref.
  change (name_ParseReference Demo.lib) with Demo.name_ParseReference.
  unfold Demo.name_ParseReference.
  rewrite splitFirst_app by reflexivity.
  change ("/" ++ repo ++ ":" ++ tag) with (String "/" (repo ++ String ":" tag)).
  cbn [Demo.splitFirst].
  change (Ascii.eqb "/" ":") with false. cbv iota.
  destruct (Demo.splitFirst ":" (repo ++ String ":" tag)) as [[x y]|] eqn:E;
    [|discriminate].
  destruct (isEmpty y || Demo.hasByte "/" y); [discriminate|].
  destruct (Demo.name_NewRepository (Demo.endpoint ++ String "/" x))
    as [r|e] eqn:N; [|discriminate].
  destruct (Demo.hasByte ":" y) eqn:Hy; [discriminate|].
  intros [= <-]. cbn [RefContext Identifier].
  destruct (splitFirst_sep _ _ _ E Hy) as [-> ->].
  split; [|reflexivity].
  unfold Demo.name_NewRepository in N.
  destruct (Demo.hasByte ":" (Demo.endpoint ++ String "/" repo)); [discriminate|].
  rewrite splitFirst_app in N by reflexivity.
  cbn [Demo.splitFirst] in N.
  change (Ascii.eqb "/" "/") with true in N. cbv iota in N.
  destruct (isEmpty (Demo.endpoint ++ "") || isEmpty repo); [discriminate|].
  injection N as <-. reflexivity.
Qed.




(* ------------------------------------------------------------------ *)
(** * More of the two programs *)

(** ** The destination only grows *)

Lemma extends_refl (s : EcrState) : extends s s.
Proof. exists [], []. split; reflexivity. Qed.

Lemma extends_trans (s1 s2 s3 : EcrState) :
  extends s1 s2 -> extends s2 s3 -> extends s1 s3.
Proof.
  intros (rs & ims & Hr & Hi) (rs' & ims' & Hr' & Hi').
  exists (rs' ++ rs)%list, (ims' ++ ims)%list.
  rewrite Hr', Hi', Hr, Hi, !app_assoc. split; reflexivity.
Qed.

Lemma extends_addRepository (s : EcrState) (repo : string) :
  extends s (addRepository s repo).
Proof. exists [repo], []. split; reflexivity. Qed.

Lemma extends_pushed (s : EcrState) (ref : Reference) (desc : Descriptor) :
  extends s (pushed s ref desc).
Proof. eexists [], [_]. split; reflexivity. Qed.

Lemma grows_ret {A} (a : A) : grows (ret a).
Proof. intros w. apply extends_refl. Qed.

Lemma grows_fail {A} (e : error) : grows (@fail A e).
Proof. intros w. apply extends_refl. Qed.

Lemma grows_lift {A} (r : result A) : grows (lift r).
Proof. intros w. apply extends_refl. Qed.

Lemma grows_Getenv (k : string) : grows (Getenv k).
Proof. intros w. apply extends_refl. Qed.

Lemma grows_log (l : LogLine) : grows (log l).
Proof. intros w. apply extends_refl. Qed.

Lemma grows_Region : grows FullSync.Region.
Proof. intros w. apply extends_refl. Qed.

Lemma grows_call {A} (c : Call) (answer : World -> result A * EcrState) :
  (forall w, extends (ecr w) (snd (answer w))) -> grows (call c answer).
Proof.
  intros H w. unfold call.
  destruct (fault (dep w) (clock w) c); [apply extends_refl|].
  specialize (H w). destruct (answer w) as [r s]. exact H.
Qed.

Lemma grows_query {A} (c : Call) (answer : World -> result A) :
  grows (query c answer).
Proof. apply grows_call. intros w. apply extends_refl. Qed.

Lemma grows_bind {A B} (m : M A) (k : A -> M B) :
  grows m -> (forall a, grows (k a)) -> grows (bind m k).
Proof.
  intros Hm Hk w. unfold bind.
  destruct (res (m w)) as [a|e]; cbn [after].
  - exact (extends_trans (Hm w) (Hk a (after (m w)))).
  - apply Hm.
Qed.

Lemma grows_attempt {A} (m : M A) : grows m -> grows (attempt m).
Proof. intros Hm w. apply Hm. Qed.

Lemma grows_wrapping {A} (prefix : string) (m : M A) :
  grows m -> grows (wrapping prefix m).
Proof. intros Hm w. apply Hm. Qed.

Lemma grows_forEach {A} (xs : list A) (body : A -> M unit) :
  (forall x, grows (body x)) -> grows (forEach xs body).
Proof.
  intros Hb. induction xs as [|x xs IH]; simpl.
  - apply grows_ret.
  - apply grows_bind; [apply Hb | intros _; exact IH].
Qed.

Ltac grows_step :=
  match goal with
  | |- grows (bind _ _) => apply grows_bind; [|intros]
  | |- grows (attempt _) => apply grows_attempt
  | |- grows (wrapping _ _) => apply grows_wrapping
  | |- grows (forEach _ _) => apply grows_forEach; intros
  | |- grows (ret _) => apply grows_ret
  | |- grows (fail _) => apply grows_fail
  | |- grows (lift _) => apply grows_lift
  | |- grows (Getenv _) => apply grows_Getenv
  | |- grows (log _) => apply grows_log
  | |- grows FullSync.Region => apply grows_Region
  | |- grows (query _ _) => apply grows_query
  | |- grows (call _ _) =>
      apply grows_call; intros ?;
      repeat match goal with
             | |- context [if ?b then _ else _] => destruct b
             | |- context [match ?x with _ => _ end] => destruct x
             end;
      first [ apply extends_refl | apply extends_addRepository
            | apply extends_pushed ]
  | |- grows (match ?x with _ => _ end) => destruct x
  | |- grows (let _ := _ in _) => cbv zeta
  end.

Ltac unfold_fullsync :=
  unfold FullSync.handler, FullSync.handler_repo, FullSync.handler_tag,
    FullSync.handler_copy, FullSync.ecrTagDigest, FullSync.copyImage,
    FullSync.ecrPassword, FullSync.ensureECRRepo, FullSync.mustEnv,
    FullSync.crane_Catalog, FullSync.crane_ListTags, FullSync.crane_Digest,
    FullSync.crane_Copy.

Lemma mirrorSingleRepo_grows (L : GoLib) (srcRepo : string) :
  grows (Chain.mirrorSingleRepo L srcRepo).
Proof. unfold_mirror. unfold_services. repeat grows_step. Qed.

Lemma loadRepoList_grows (L : GoLib) : grows (Chain.loadRepoList L).
Proof.
  unfold Chain.loadRepoList, Chain.loadReposFromSSM, Chain.fallbackRepoList.
  unfold_services. repeat grows_step.
Qed.

Lemma invokeSelfAsync_grows (L : GoLib) (ev : JobEvent) :
  grows (Chain.invokeSelfAsync L ev).
Proof. unfold Chain.invokeSelfAsync. unfold_services. repeat grows_step. Qed.

Lemma chain_handler_grows (L : GoLib) (raw : string) : grows (Chain.handler L raw).
Proof.
  unfold Chain.handler, Chain.handler_event, Chain.parseJobEvent,
    Chain.handler_run.
  repeat first [ apply loadRepoList_grows
               | apply mirrorSingleRepo_grows
               | apply invokeSelfAsync_grows
               | grows_step ].
Qed.

Lemma fullsync_handler_grows (L : GoLib) : grows (FullSync.handler L).
Proof. unfold_fullsync. unfold_services. repeat grows_step. Qed.


(** ** One repository for each invocation *)

Lemma atMost_none {A} (P : Event -> bool) (m : M A) :
  only (fun ev => negb (P ev)) m -> atMost 0 P m.
Proof.
  intros H w. specialize (H w).
  induction (events (m w)) as [|ev evs IH]; simpl in *; [lia|].
  apply andb_prop in H. destruct H as [Hev H].
  destruct (P ev); [discriminate | apply IH, H].
Qed.

Lemma atMost_more {A} (a b : nat) (P : Event -> bool) (m : M A) :
  atMost a P m -> (a <= b)%nat -> atMost b P m.
Proof. intros H Hab w. specialize (H w). lia. Qed.

Lemma atMost_bind {A B} (a b : nat) (P : Event -> bool) (m : M A) (k : A -> M B) :
  atMost a P m -> (forall x, atMost b P (k x)) -> atMost (a + b) P (bind m k).
Proof.
  intros Hm Hk w. unfold bind. specialize (Hm w).
  destruct (res (m w)) as [x|e]; cbn [events].
  - rewrite filter_app, length_app. specialize (Hk x (after (m w))). lia.
  - lia.
Qed.

Lemma atMost_wrapping {A} (n : nat) (P : Event -> bool) (prefix : string) (m : M A) :
  atMost n P m -> atMost n P (wrapping prefix m).
Proof. intros Hm w. apply Hm. Qed.

Lemma mirrorSingleRepo_ensure_atMost (P : Event -> bool) (dstRepoName : string) :
  (forall l, P (EvLog l) = false) ->
  (forall r f, P (EvCall (CDescribeRepositories r) f) = true ->
               forall r' s f', P (EvCall (CCreateRepository r' s) f') = false) ->
  atMost 1 P (Chain.mirrorSingleRepo_ensure dstRepoName).
Proof.
  intros Hlog Hone w. rewrite mirrorSingleRepo_ensure_run. cbv zeta.
  destruct (res (ecr_DescribeRepositories dstRepoName w)) as [u|err];
    cbn [events filter].
  - destruct (P _); simpl; lia.
  - destruct (errors_As err RepositoryNotFoundException).
    + destruct (res (ecr_CreateRepository dstRepoName true _)) as [u|cerr];
        cbn [events filter]; rewrite ?Hlog;
        destruct (P (EvCall (CDescribeRepositories dstRepoName) (Some err))) eqn:D;
        try rewrite (Hone _ _ D); simpl;
        try destruct (P (EvCall (CCreateRepository dstRepoName true) _));
        simpl; lia.
    + cbn [events filter]. destruct (P _); simpl; lia.
Qed.

Ltac hush :=
  unfold Chain.handler_event, Chain.parseJobEvent, Chain.loadRepoList,
    Chain.loadReposFromSSM, Chain.fallbackRepoList, Chain.invokeSelfAsync,
    Chain.mirrorSingleRepo_auth, Chain.mirrorSingleRepo_dest,
    Chain.mirrorSingleRepo_tags, Chain.mirrorSingleRepo_tag,
    Chain.mirrorSingleRepo_copy;
  unfold_services; repeat only_step.

Ltac quiet := apply atMost_none; hush.

(** [handler_run] mirrors once and dispatches once. *)
Lemma handler_run_atMost (L : GoLib) (a b : nat) (P : Event -> bool)
    (evt : JobEvent) (repos : list string) :
  (forall l, P (EvLog l) = false) ->
  (forall r, atMost a P (Chain.mirrorSingleRepo L r)) ->
  (forall ev, atMost b P (Chain.invokeSelfAsync L ev)) ->
  atMost (a + b) P (Chain.handler_run L evt repos).
Proof.
  intros Hlog Hm Hi.
  assert (Hl : forall l n, atMost n P (log l)).
  { intros l n w. simpl. rewrite Hlog. simpl. lia. }
  unfold Chain.handler_run. cbv zeta.
  destruct (List.length repos =? 0)%nat; [apply Hl|].
  destruct (negb (isEmpty (TrimSpace L (Repo evt)))).
  - apply (atMost_bind (a:=0) (b:=a + b)); [apply Hl | intros _].
    apply (atMost_more (a := a + 0)); [|lia].
    apply atMost_bind; [apply atMost_wrapping, Hm | intros _; apply Hl].
  - destruct (_ >=? _)%Z; [apply Hl|].
    apply (atMost_bind (a:=0) (b:=a + b)); [apply Hl | intros _].
    apply atMost_bind; [apply atMost_wrapping, Hm | intros _].
    destruct (_ <? _)%Z; [|apply Hl].
    apply (atMost_more (a := b + 0)); [|lia].
    apply atMost_bind; [apply atMost_wrapping, Hi | intros _; apply Hl].
Qed.

Lemma handler_atMost (L : GoLib) (n : nat) (P : Event -> bool) (raw : string) :
  only (fun ev => negb (P ev)) (Chain.handler_event L raw) ->
  only (fun ev => negb (P ev)) (Chain.loadRepoList L) ->
  (forall evt repos, atMost n P (Chain.handler_run L evt repos)) ->
  atMost n P (Chain.handler L raw).
Proof.
  intros He Hl Hr. unfold Chain.handler.
  apply (atMost_bind (a:=0) (b:=n)); [apply atMost_none, He | intros evt].
  apply (atMost_bind (a:=0) (b:=n)); [|intros repos; apply Hr].
  apply atMost_wrapping, atMost_none, Hl.
Qed.

(** A pass makes one existence check and one creation call at most. *)
Lemma mirrorSingleRepo_atMost_ensure (L : GoLib) (P : Event -> bool) (srcRepo : string) :
  (forall l, P (EvLog l) = false) ->
  (forall r f, P (EvCall (CDescribeRepositories r) f) = true ->
               forall r' s f', P (EvCall (CCreateRepository r' s) f') = false) ->
  only (fun ev => negb (P ev)) (Chain.mirrorSingleRepo_auth L) ->
  (forall e n sa da,
      only (fun ev => negb (P ev))
           (Chain.mirrorSingleRepo_tags L srcRepo e n sa da)) ->
  atMost 1 P (Chain.mirrorSingleRepo L srcRepo).
Proof.
  intros Hlog Hone Ha Ht. unfold Chain.mirrorSingleRepo.
  apply (atMost_bind (a:=0) (b:=1)); [apply atMost_none, only_Getenv | intros dry].
  destruct (EqualFold L dry "true").
  { intros w. simpl. rewrite Hlog. simpl. lia. }
  apply (atMost_bind (a:=0) (b:=1)); [apply atMost_none, Ha | intros [[sa da] ep]].
  apply (atMost_bind (a:=0) (b:=1)); [|intros name].
  { apply atMost_none. unfold Chain.mirrorSingleRepo_dest. repeat only_step. }
  apply (atMost_bind (a:=1) (b:=0));
    [apply mirrorSingleRepo_ensure_atMost; assumption | intros _].
  apply atMost_none, Ht.
Qed.

Lemma mirrorSingleRepo_atMost_list (L : GoLib) (srcRepo : string) :
  atMost 1 isList (Chain.mirrorSingleRepo L srcRepo).
Proof.
  unfold Chain.mirrorSingleRepo.
  apply (atMost_bind (a:=0) (b:=1)); [apply atMost_none, only_Getenv | intros dry].
  destruct (EqualFold L dry "true"); [apply (atMost_more (a := 0)); [quiet | lia]|].
  apply (atMost_bind (a:=0) (b:=1)); [quiet | intros [[sa da] ep]].
  apply (atMost_bind (a:=0) (b:=1)); [quiet | intros name].
  apply (atMost_bind (a:=0) (b:=1)); [|intros _].
  { apply atMost_none. unfold Chain.mirrorSingleRepo_ensure. unfold_services.
    repeat only_step. }
  unfold Chain.mirrorSingleRepo_tags.
  apply (atMost_bind (a:=0) (b:=1)); [apply atMost_none, only_Getenv | intros c].
  cbv zeta. destruct (EqualFold L c "true").
  - apply (atMost_bind (a:=0) (b:=1)); [quiet | intros repoRef].
    apply (atMost_bind (a:=1) (b:=0)); [|intros tags].
    + apply atMost_wrapping. intros w. rewrite remote_List_events. simpl. lia.
    + destruct tags; quiet.
  - apply (atMost_more (a := 0)); [quiet | lia].
Qed.

(** X2. One invocation of the chained handler works on one repository at
    most and dispatches one continuation at most: whatever the payload and
    whatever fails, it makes at most one existence check and at most one
    creation call at the destination, lists the tags of at most one source
    repository, and calls Invoke at most once. *)
Theorem one_repository_per_invocation (L : GoLib) (raw : string) (w : World) :
  let evs := events (Chain.handler L raw w) in
  (List.length (filter isDescribe evs) <= 1)%nat /\
  (List.length (filter isCreate evs) <= 1)%nat /\
  (List.length (filter isList evs) <= 1)%nat /\
  (List.length (filter isInvoke evs) <= 1)%nat.
Proof.
  cbv zeta. repeat split.
  - apply (@handler_atMost L 1 isDescribe raw); [hush | hush | intros evt repos].
    apply (@handler_run_atMost L 1 0); [reflexivity | intros r | intros ev; quiet].
    apply mirrorSingleRepo_atMost_ensure;
      [reflexivity | intros; reflexivity | hush | intros; hush].
  - apply (@handler_atMost L 1 isCreate raw); [hush | hush | intros evt repos].
    apply (@handler_run_atMost L 1 0); [reflexivity | intros r | intros ev; quiet].
    apply mirrorSingleRepo_atMost_ensure;
      [reflexivity | intros; discriminate | hush | intros; hush].
  - apply (@handler_atMost L 1 isList raw); [hush | hush | intros evt repos].
    apply (@handler_run_atMost L 1 0); [reflexivity | intros r | intros ev; quiet].
    apply mirrorSingleRepo_atMost_list.
  - apply (@handler_atMost L 1 isInvoke raw); [hush | hush | intros evt repos].
    apply (@handler_run_atMost L 0 1); [reflexivity | intros r | intros ev].
    + apply atMost_none, mirrorSingleRepo_no_invoke.
    + intros w'. apply invokeSelfAsync_run.
Qed.

(** ** Dry run *)

Lemma keepsEcr_ret {A} (a : A) : keepsEcr (ret a).
Proof. intros w. reflexivity. Qed.

Lemma keepsEcr_fail {A} (e : error) : keepsEcr (@fail A e).
Proof. intros w. reflexivity. Qed.

Lemma keepsEcr_lift {A} (r : result A) : keepsEcr (lift r).
Proof. intros w. reflexivity. Qed.

Lemma keepsEcr_Getenv (k : string) : keepsEcr (Getenv k).
Proof. intros w. reflexivity. Qed.

Lemma keepsEcr_log (l : LogLine) : keepsEcr (log l).
Proof. intros w. reflexivity. Qed.

Lemma keepsEcr_query {A} (c : Call) (answer : World -> result A) :
  keepsEcr (query c answer).
Proof. intros w. apply query_ecr. Qed.

Lemma keepsEcr_bind {A B} (m : M A) (k : A -> M B) :
  keepsEcr m -> (forall a, keepsEcr (k a)) -> keepsEcr (bind m k).
Proof.
  intros Hm Hk w. unfold bind.
  destruct (res (m w)) as [a|e]; cbn [after].
  - rewrite Hk. apply Hm.
  - apply Hm.
Qed.

Lemma keepsEcr_attempt {A} (m : M A) : keepsEcr m -> keepsEcr (attempt m).
Proof. intros Hm w. apply Hm. Qed.

Lemma keepsEcr_wrapping {A} (prefix : string) (m : M A) :
  keepsEcr m -> keepsEcr (wrapping prefix m).
Proof. intros Hm w. apply Hm. Qed.

Ltac keepsEcr_step :=
  match goal with
  | |- keepsEcr (bind _ _) => apply keepsEcr_bind; [|intros]
  | |- keepsEcr (attempt _) => apply keepsEcr_attempt
  | |- keepsEcr (wrapping _ _) => apply keepsEcr_wrapping
  | |- keepsEcr (ret _) => apply keepsEcr_ret
  | |- keepsEcr (fail _) => apply keepsEcr_fail
  | |- keepsEcr (lift _) => apply keepsEcr_lift
  | |- keepsEcr (Getenv _) => apply keepsEcr_Getenv
  | |- keepsEcr (log _) => apply keepsEcr_log
  | |- keepsEcr (query _ _) => apply keepsEcr_query
  | |- keepsEcr (match ?x with _ => _ end) => destruct x
  | |- keepsEcr (let _ := _ in _) => cbv zeta
  end.

Lemma handler_event_keepsEcr (L : GoLib) (raw : string) :
  keepsEcr (Chain.handler_event L raw).
Proof.
  unfold Chain.handler_event, Chain.parseJobEvent. repeat keepsEcr_step.
Qed.

Lemma handler_event_steady (L : GoLib) (raw : string) :
  steady (Chain.handler_event L raw).
Proof.
  unfold Chain.handler_event, Chain.parseJobEvent. repeat steady_step.
Qed.

Lemma loadRepoList_keepsEcr (L : GoLib) : keepsEcr (Chain.loadRepoList L).
Proof.
  unfold Chain.loadRepoList, Chain.loadReposFromSSM, Chain.fallbackRepoList.
  unfold_services. repeat keepsEcr_step.
Qed.

Lemma invokeSelfAsync_keepsEcr (L : GoLib) (ev : JobEvent) :
  keepsEcr (Chain.invokeSelfAsync L ev).
Proof. unfold Chain.invokeSelfAsync. unfold_services. repeat keepsEcr_step. Qed.

Lemma handler_event_offRegistry (L : GoLib) (raw : string) :
  only offRegistry (Chain.handler_event L raw).
Proof. hush. Qed.

Lemma loadRepoList_offRegistry (L : GoLib) : only offRegistry (Chain.loadRepoList L).
Proof. hush. Qed.

Lemma invokeSelfAsync_offRegistry (L : GoLib) (ev : JobEvent) :
  only offRegistry (Chain.invokeSelfAsync L ev).
Proof. hush. Qed.

(** In dry-run mode a pass writes one line to the log and returns. *)
Lemma mirrorSingleRepo_dry (L : GoLib) (srcRepo : string) (w : World) :
  EqualFold L (environ (dep w) "MIRROR_DRY_RUN") "true" = true ->
  Chain.mirrorSingleRepo L srcRepo w = mkOut (Ok tt) w [EvLog (LogDryRun srcRepo)].
Proof. intros H. rewrite mirrorSingleRepo_run, H. reflexivity. Qed.

Lemma handler_run_dry (L : GoLib) (evt : JobEvent) (repos : list string) (w : World) :
  EqualFold L (environ (dep w) "MIRROR_DRY_RUN") "true" = true ->
  ecr (after (Chain.handler_run L evt repos w)) = ecr w /\
  forallb offRegistry (events (Chain.handler_run L evt repos w)) = true.
Proof.
  intros Hdry. unfold Chain.handler_run. cbv zeta.
  destruct (List.length repos =? 0)%nat; [split; reflexivity|].
  destruct (negb (isEmpty (TrimSpace L (Repo evt)))).
  - unfold bind, wrapping, log; cbn [res after events app].
    rewrite (mirrorSingleRepo_dry L _ w Hdry). split; reflexivity.
  - destruct (_ >=? _)%Z; [split; reflexivity|].
    unfold bind, wrapping, log; cbn [res after events app].
    rewrite (mirrorSingleRepo_dry L _ w Hdry). cbn [res after events app].
    destruct (_ <? _)%Z; cbn [res after events app]; [|split; reflexivity].
    pose proof (invokeSelfAsync_keepsEcr L
                  (mkJobEvent ((if (Index evt <? 0)%Z then 0%Z else Index evt) + 1) "")
                  w) as Hk.
    pose proof (invokeSelfAsync_offRegistry L
                  (mkJobEvent ((if (Index evt <? 0)%Z then 0%Z else Index evt) + 1) "")
                  w) as Ho.
    destruct (res (Chain.invokeSelfAsync L _ w)); cbn [res after events app forallb offRegistry].
    + split; [exact Hk|]. rewrite forallb_app, Ho. reflexivity.
    + split; [exact Hk | exact Ho].
Qed.

(** X3. In dry-run mode (MIRROR_DRY_RUN equal to "true" in any letter
    case) an invocation of the chained handler leaves the destination as
    it is and reaches neither registry: whatever the payload and whatever
    fails, every call it makes loads the configuration, reads the
    parameter store or invokes the function itself. *)
Theorem dry_run_reaches_no_registry (L : GoLib) (raw : string) (w : World) :
  EqualFold L (environ (dep w) "MIRROR_DRY_RUN") "true" = true ->
  ecr (after (Chain.handler L raw w)) = ecr w /\
  forallb offRegistry (events (Chain.handler L raw w)) = true.
Proof.
  intros Hdry. rewrite handler_unfold. cbv zeta.
  pose proof (handler_event_keepsEcr L raw w) as Ke.
  pose proof (handler_event_steady L raw w) as Se.
  pose proof (handler_event_offRegistry L raw w) as Oe.
  destruct (res (Chain.handler_event L raw w)) as [evt|e]; cbn [after events];
    [|split; assumption].
  remember (after (Chain.handler_event L raw w)) as w1 eqn:E1.
  pose proof (loadRepoList_keepsEcr L w1) as Kl.
  pose proof (loadRepoList_steady L w1) as Sl.
  pose proof (loadRepoList_offRegistry L w1) as Ol.
  destruct (res (Chain.loadRepoList L w1)) as [repos|e]; cbn [after events].
  - remember (after (Chain.loadRepoList L w1)) as w2 eqn:E2.
    assert (Hdry2 : EqualFold L (environ (dep w2) "MIRROR_DRY_RUN") "true" = true)
      by (rewrite Sl, Se; exact Hdry).
    destruct (handler_run_dry L evt repos w2 Hdry2) as [Kr Or].
    split; [congruence|]. rewrite !forallb_app, Oe, Ol, Or. reflexivity.
  - split; [congruence|]. rewrite forallb_app, Oe, Ol. reflexivity.
Qed.

Lemma dry_run_reaches_no_registry_witness :
  let w := Demo.world Demo.dryRunEnv Demo.noFault Demo.emptyEcr in
  (EqualFold Demo.lib (environ (dep w) "MIRROR_DRY_RUN") "true" = true /\
   Chain.dispatched (events (Chain.handler Demo.lib "" w)) <> []) /\
  (ecr (after (Chain.handler Demo.lib "" w)) = ecr w /\
   forallb offRegistry (events (Chain.handler Demo.lib "" w)) = true).
Proof.
  intros w. split.
  - split; [reflexivity | discriminate].
  - apply (@dry_run_reaches_no_registry Demo.lib "" w). reflexivity.
Defined.

(** ** What an invocation does comes from its one pass *)

(** The events of [handler_run] are those of one pass of
    [mirrorSingleRepo], log lines, and the calls of [invokeSelfAsync]. *)
Lemma handler_run_lifts (L : GoLib) (Q : Event -> bool) (evt : JobEvent)
    (repos : list string) (w : World) :
  (forall ev, offRegistry ev = true -> Q ev = true) ->
  (forall r, forallb Q (events (Chain.mirrorSingleRepo L r w)) = true) ->
  forallb Q (events (Chain.handler_run L evt repos w)) = true.
Proof.
  intros Hoff Hm.
  assert (Hlog : forall l, Q (EvLog l) = true) by (intros l; apply Hoff; reflexivity).
  unfold Chain.handler_run. cbv zeta.
  destruct (List.length repos =? 0)%nat; [simpl; rewrite Hlog; reflexivity|].
  destruct (negb (isEmpty (TrimSpace L (Repo evt)))).
  - unfold bind, wrapping, log; cbn [res after events app].
    specialize (Hm (TrimSpace L (Repo evt))).
    destruct (res (Chain.mirrorSingleRepo L _ w)); cbn [res after events app forallb];
      rewrite Hlog, ?forallb_app, Hm; simpl; rewrite ?Hlog; reflexivity.
  - destruct (_ >=? _)%Z; [simpl; rewrite Hlog; reflexivity|].
    unfold bind, wrapping, log; cbn [res after events app].
    match goal with
    | |- context [Chain.mirrorSingleRepo L ?r w] => specialize (Hm r)
    end.
    destruct (res (Chain.mirrorSingleRepo L _ w)); cbn [res after events app forallb];
      [|rewrite Hlog, Hm; reflexivity].
    match goal with
    | |- context [(?i + 1 <? ?n)%Z] => destruct (i + 1 <? n)%Z
    end; cbn [res after events app forallb].
    + match goal with
      | |- context [Chain.invokeSelfAsync L ?ev ?w'] =>
          pose proof (invokeSelfAsync_offRegistry L ev w') as Ho
      end.
      assert (Hi : forall evs, forallb offRegistry evs = true -> forallb Q evs = true).
      { intros evs H. rewrite forallb_forall in *. intros ev Hin.
        apply Hoff, H, Hin. }
      apply Hi in Ho.
      destruct (res (Chain.invokeSelfAsync L _ _)); cbn [res after events app forallb];
        rewrite Hlog, ?forallb_app, Hm, ?forallb_app, Ho; simpl;
        rewrite ?Hlog; reflexivity.
    + rewrite Hlog, forallb_app, Hm. simpl. rewrite Hlog. reflexivity.
Qed.

Lemma handler_lifts (L : GoLib) (Q : Event -> bool) (raw : string) (w : World) :
  (forall ev, offRegistry ev = true -> Q ev = true) ->
  (forall r w', dep w' = dep w ->
                forallb Q (events (Chain.mirrorSingleRepo L r w')) = true) ->
  forallb Q (events (Chain.handler L raw w)) = true.
Proof.
  intros Hoff Hm.
  assert (Hi : forall evs, forallb offRegistry evs = true -> forallb Q evs = true).
  { intros evs H. rewrite forallb_forall in *. intros ev Hin. apply Hoff, H, Hin. }
  rewrite handler_unfold. cbv zeta.
  pose proof (handler_event_steady L raw w) as Se.
  pose proof (Hi _ (handler_event_offRegistry L raw w)) as Oe.
  destruct (res (Chain.handler_event L raw w)) as [evt|e]; cbn [events];
    [|exact Oe].
  remember (after (Chain.handler_event L raw w)) as w1 eqn:E1.
  pose proof (loadRepoList_steady L w1) as Sl.
  pose proof (Hi _ (loadRepoList_offRegistry L w1)) as Ol.
  destruct (res (Chain.loadRepoList L w1)) as [repos|e]; cbn [events];
    rewrite !forallb_app, Oe, Ol; [|reflexivity].
  cbn [andb]. apply handler_run_lifts; [exact Hoff|].
  intros r. apply Hm. congruence.
Qed.

(** ** Credentials *)

Lemma Basic_eqb_refl (a : Basic) : Basic_eqb a a = true.
Proof. unfold Basic_eqb. rewrite !String.eqb_refl. reflexivity. Qed.

(** The credentials [mirrorSingleRepo] prepares. *)
Lemma mirrorSingleRepo_auth_Ok (L : GoLib) (w : World)
    (srcAuth dstAuth : Basic) (ecrEndpoint : string) :
  res (Chain.mirrorSingleRepo_auth L w) = Ok (srcAuth, dstAuth, ecrEndpoint) ->
  srcAuth = mkBasic (environ (dep w) "CGR_USERNAME") (environ (dep w) "CGR_PASSWORD") /\
  Username srcAuth <> "" /\ Password srcAuth <> "" /\
  Username dstAuth = "AWS".
Proof.
  unfold Chain.mirrorSingleRepo_auth.
  erewrite bind_Ok by reflexivity. cbn [res].
  erewrite bind_Ok by reflexivity. cbn [res].
  change (res (Getenv "CGR_USERNAME" w)) with (Ok (environ (dep w) "CGR_USERNAME")).
  unfold isEmpty.
  destruct (String.eqb_spec (environ (dep w) "CGR_USERNAME") "") as [Hu|Hu];
    [discriminate|].
  match goal with
  | |- context [String.eqb ?p ""] => destruct (String.eqb_spec p "") as [Hp|Hp]
  end; [discriminate|].
  cbn [orb]. cbv zeta.
  match goal with
  | |- res (bind ?m ?k ?w0) = _ -> _ =>
      destruct (res (m w0)) as [u|e] eqn:Rc;
      [erewrite bind_Ok by exact Rc | erewrite bind_Err by exact Rc; discriminate]
  end.
  cbn [res].
  match goal with
  | |- res (bind ?m ?k ?w0) = _ -> _ =>
      destruct (res (m w0)) as [ao|e] eqn:Ra;
      [erewrite bind_Ok by exact Ra | erewrite bind_Err by exact Ra; discriminate]
  end.
  cbn [res].
  destruct (AuthorizationData ao) as [|ad ads]; [discriminate|].
  match goal with
  | |- res (bind ?m ?k ?w0) = _ -> _ =>
      destruct (res (m w0)) as [dec|e] eqn:Rd;
      [erewrite bind_Ok by exact Rd | erewrite bind_Err by exact Rd; discriminate]
  end.
  cbn [res].
  destruct (strings.SplitN2 dec ":") as [|x [|pass [|? ?]]]; try discriminate.
  intros [= <- <- <-]. repeat split; assumption.
Qed.

Lemma mirrorSingleRepo_tags_presents (L : GoLib)
    (srcRepo ecrEndpoint dstRepoName : string) (srcAuth dstAuth : Basic) :
  Username dstAuth = "AWS" ->
  only (presents srcAuth)
       (Chain.mirrorSingleRepo_tags L srcRepo ecrEndpoint dstRepoName srcAuth dstAuth).
Proof.
  intros Hd.
  unfold Chain.mirrorSingleRepo_tags, Chain.mirrorSingleRepo_tag,
    Chain.mirrorSingleRepo_copy.
  unfold_services.
  repeat first
    [ only_step
    | apply only_query; intros; cbn [presents]; apply Basic_eqb_refl
    | apply only_call; intros; cbn [presents]; rewrite Hd; reflexivity ].
Qed.

Lemma mirrorSingleRepo_presents (L : GoLib) (srcRepo : string) (w : World) :
  forallb (presents (mkBasic (environ (dep w) "CGR_USERNAME")
                             (environ (dep w) "CGR_PASSWORD")))
          (events (Chain.mirrorSingleRepo L srcRepo w)) = true.
Proof.
  set (src := mkBasic _ _).
  rewrite mirrorSingleRepo_run.
  destruct (EqualFold L (environ (dep w) "MIRROR_DRY_RUN") "true"); [reflexivity|].
  cbv zeta.
  assert (Ha : only (presents src) (Chain.mirrorSingleRepo_auth L)) by hush.
  assert (Hd : only (presents src) (Chain.mirrorSingleRepo_dest L srcRepo)) by hush.
  assert (He : forall n, only (presents src) (Chain.mirrorSingleRepo_ensure n)).
  { intros n. unfold Chain.mirrorSingleRepo_ensure. unfold_services.
    repeat only_step. }
  destruct (res (Chain.mirrorSingleRepo_auth L w)) as [[[sa da] ep]|e] eqn:Ra;
    cbn [events]; [|apply Ha].
  destruct (mirrorSingleRepo_auth_Ok L w Ra) as (Hsa & _ & _ & Hda).
  destruct (res (Chain.mirrorSingleRepo_dest L srcRepo _)) as [name|e];
    [|cbn [events]; rewrite forallb_app, Ha, Hd; reflexivity].
  destruct (res (Chain.mirrorSingleRepo_ensure name _)) as [[]|e];
    cbn [events]; rewrite !forallb_app, Ha, Hd, He; [|reflexivity].
  cbn [andb]. subst sa. apply mirrorSingleRepo_tags_presents, Hda.
Qed.

(** X4. The credentials are never crossed: in an invocation of the chained
    handler, every read of the source registry (a listing of tags, a fetch
    of a manifest) presents the user and password of CGR_USERNAME and
    CGR_PASSWORD, and every write to the destination presents the user
    AWS. *)
Theorem registry_calls_present_their_own_credentials
    (L : GoLib) (raw : string) (w : World) :
  forallb (presents (mkBasic (environ (dep w) "CGR_USERNAME")
                             (environ (dep w) "CGR_PASSWORD")))
          (events (Chain.handler L raw w)) = true.
Proof.
  apply handler_lifts.
  - intros [c f|l] H; [destruct c; try discriminate|]; reflexivity.
  - intros r w' Hdep. rewrite <- Hdep. apply mirrorSingleRepo_presents.
Qed.

(** ** The tag latest *)

Lemma mirrorSingleRepo_latestOnly (L : GoLib) (srcRepo : string) (w : World) :
  EqualFold L (environ (dep w) "COPY_ALL_TAGS") "true" = false ->
  forallb latestOnly (events (Chain.mirrorSingleRepo L srcRepo w)) = true.
Proof.
  intros Hcopy. rewrite mirrorSingleRepo_run.
  destruct (EqualFold L (environ (dep w) "MIRROR_DRY_RUN") "true"); [reflexivity|].
  cbv zeta.
  assert (Ha : only latestOnly (Chain.mirrorSingleRepo_auth L)) by hush.
  assert (Hd : only latestOnly (Chain.mirrorSingleRepo_dest L srcRepo)) by hush.
  assert (He : forall n, only latestOnly (Chain.mirrorSingleRepo_ensure n)).
  { intros n. unfold Chain.mirrorSingleRepo_ensure. unfold_services.
    repeat only_step. }
  pose proof (mirrorSingleRepo_auth_steady L w) as Sa.
  destruct (res (Chain.mirrorSingleRepo_auth L w)) as [[[sa da] ep]|e];
    cbn [events]; [|apply Ha].
  remember (after (Chain.mirrorSingleRepo_auth L w)) as w1 eqn:E1.
  pose proof (mirrorSingleRepo_dest_steady L srcRepo w1) as Sd.
  destruct (res (Chain.mirrorSingleRepo_dest L srcRepo w1)) as [name|e];
    [|cbn [events]; rewrite forallb_app, Ha, Hd; reflexivity].
  remember (after (Chain.mirrorSingleRepo_dest L srcRepo w1)) as w2 eqn:E2.
  pose proof (mirrorSingleRepo_ensure_steady name w2) as Se.
  destruct (res (Chain.mirrorSingleRepo_ensure name w2)) as [[]|e];
    cbn [events]; rewrite !forallb_app, Ha, Hd, He; [|reflexivity].
  cbn [andb].
  remember (after (Chain.mirrorSingleRepo_ensure name w2)) as w3 eqn:E3.
  rewrite mirrorSingleRepo_tags_run.
  replace (environ (dep w3) "COPY_ALL_TAGS") with (environ (dep w) "COPY_ALL_TAGS")
    by congruence.
  rewrite Hcopy. cbv zeta. cbn [events].
  assert (Hl : only latestOnly
                 (bind (forEach ["latest"]
                          (Chain.mirrorSingleRepo_tag L srcRepo ep name sa da))
                       (fun _ => log (LogMirrored srcRepo (List.length ["latest"])))))
    by (cbn [forEach]; hush).
  apply Hl.
Qed.

(** X5. Unless COPY_ALL_TAGS is "true" (in any letter case), an invocation
    of the chained handler considers the tag latest and no other: it never
    lists the tags of a source repository, and every lookup of a digest at
    the destination is for the tag latest. *)
Theorem without_COPY_ALL_TAGS_only_latest (L : GoLib) (raw : string) (w : World) :
  EqualFold L (environ (dep w) "COPY_ALL_TAGS") "true" = false ->
  forallb latestOnly (events (Chain.handler L raw w)) = true.
Proof.
  intros Hcopy. apply handler_lifts.
  - intros [c f|l] H; [destruct c; try discriminate|]; reflexivity.
  - intros r w' Hdep. apply mirrorSingleRepo_latestOnly. rewrite Hdep. exact Hcopy.
Qed.

Lemma without_COPY_ALL_TAGS_only_latest_witness :
  let w := Demo.world Demo.latestEnv Demo.noFault Demo.emptyEcr in
  (EqualFold Demo.lib (environ (dep w) "COPY_ALL_TAGS") "true" = false /\
   In (EvCall (CBatchGetImage "g/web" "latest") None)
      (events (Chain.handler Demo.lib "" w))) /\
  forallb latestOnly (events (Chain.handler Demo.lib "" w)) = true.
Proof.
  intros w. split.
  - split; [reflexivity | vm_compute; tauto].
  - apply (@without_COPY_ALL_TAGS_only_latest Demo.lib "" w). reflexivity.
Defined.

(** ** The destination repository after a pass *)

Lemma extends_hasRepository (s s' : EcrState) (repo : string) :
  extends s s' -> hasRepository s repo = true -> hasRepository s' repo = true.
Proof.
  intros (rs & ims & Hr & _) H. unfold hasRepository in *.
  rewrite Hr, existsb_app, H. apply orb_true_r.
Qed.

Lemma ecr_DescribeRepositories_Ok (repo : string) (w : World) (u : unit) :
  res (ecr_DescribeRepositories repo w) = Ok u ->
  hasRepository (ecr (after (ecr_DescribeRepositories repo w))) repo = true.
Proof.
  unfold ecr_DescribeRepositories, query, call.
  destruct (fault (dep w) (clock w) (CDescribeRepositories repo)); [discriminate|].
  cbn [res after ecr].
  destruct (hasRepository (ecr w) repo); [reflexivity | discriminate].
Qed.

Lemma ecr_CreateRepository_Ok (repo : string) (scan : bool) (w : World) (u : unit) :
  res (ecr_CreateRepository repo scan w) = Ok u ->
  hasRepository (ecr (after (ecr_CreateRepository repo scan w))) repo = true.
Proof.
  unfold ecr_CreateRepository, call.
  destruct (fault (dep w) (clock w) (CCreateRepository repo scan)); [discriminate|].
  destruct (hasRepository (ecr w) repo); cbn [res after ecr]; [discriminate|].
  intros _. unfold hasRepository, addRepository. cbn [repositories existsb].
  rewrite String.eqb_refl. reflexivity.
Qed.

Lemma mirrorSingleRepo_ensure_Ok (dstRepoName : string) (w : World) :
  res (Chain.mirrorSingleRepo_ensure dstRepoName w) = Ok tt ->
  hasRepository (ecr (after (Chain.mirrorSingleRepo_ensure dstRepoName w)))
                dstRepoName = true.
Proof.
  rewrite mirrorSingleRepo_ensure_run. cbv zeta.
  destruct (res (ecr_DescribeRepositories dstRepoName w)) as [u|err] eqn:Rd.
  - intros _. cbn [after]. exact (ecr_DescribeRepositories_Ok _ _ Rd).
  - destruct (errors_As err RepositoryNotFoundException); [|discriminate].
    destruct (res (ecr_CreateRepository dstRepoName true _)) as [u|cerr] eqn:Rc;
      [|discriminate].
    intros _. cbn [after]. exact (ecr_CreateRepository_Ok _ _ _ Rc).
Qed.

Lemma mirrorSingleRepo_tags_grows (L : GoLib)
    (srcRepo ecrEndpoint dstRepoName : string) (srcAuth dstAuth : Basic) :
  grows (Chain.mirrorSingleRepo_tags L srcRepo ecrEndpoint dstRepoName srcAuth dstAuth).
Proof.
  unfold Chain.mirrorSingleRepo_tags, Chain.mirrorSingleRepo_tag,
    Chain.mirrorSingleRepo_copy.
  unfold_services. repeat grows_step.
Qed.

(** X6. A pass of [mirrorSingleRepo] that is not a dry run and returns
    without error leaves the destination repository in place: the
    repository whose name the pass computed from the source repository,
    SRC_REGISTRY and DST_PREFIX exists at the destination afterwards,
    also when the source repository has no tag to copy. *)
Theorem successful_pass_leaves_the_destination_repository
    (L : GoLib) (srcRepo dstRepoName : string) (w : World) :
  EqualFold L (environ (dep w) "MIRROR_DRY_RUN") "true" = false ->
  res (Chain.mirrorSingleRepo_dest L srcRepo w) = Ok dstRepoName ->
  res (Chain.mirrorSingleRepo L srcRepo w) = Ok tt ->
  hasRepository (ecr (after (Chain.mirrorSingleRepo L srcRepo w))) dstRepoName = true.
Proof.
  intros Hdry Hname. rewrite mirrorSingleRepo_run, Hdry. cbv zeta.
  pose proof (mirrorSingleRepo_auth_steady L w) as Sa.
  destruct (res (Chain.mirrorSingleRepo_auth L w)) as [[[sa da] ep]|e];
    [|discriminate].
  remember (after (Chain.mirrorSingleRepo_auth L w)) as w1 eqn:E1.
  destruct (res (Chain.mirrorSingleRepo_dest L srcRepo w1)) as [name|e] eqn:Rd;
    [|discriminate].
  assert (name = dstRepoName) as ->.
  { exact (@mirrorSingleRepo_dest_stable L srcRepo w1 w _ _ Sa Rd Hname). }
  remember (after (Chain.mirrorSingleRepo_dest L srcRepo w1)) as w2 eqn:E2.
  destruct (res (Chain.mirrorSingleRepo_ensure dstRepoName w2)) as [[]|e] eqn:Re;
    [|discriminate].
  cbn [res after]. intros _.
  eapply extends_hasRepository;
    [apply mirrorSingleRepo_tags_grows | apply mirrorSingleRepo_ensure_Ok, Re].
Qed.

Lemma successful_pass_leaves_the_destination_repository_witness :
  let w := Demo.world Demo.chainEnv Demo.noFault Demo.emptyEcr in
  hasRepository (ecr w) "g/app" = false /\
  hasRepository (ecr (after (Chain.mirrorSingleRepo Demo.lib "cgr.dev/g/app" w)))
                "g/app" = true.
Proof.
  intros w. split; [reflexivity|].
  apply (@successful_pass_leaves_the_destination_repository
           Demo.lib "cgr.dev/g/app" "g/app" w); reflexivity.
Defined.

(* ------------------------------------------------------------------ *)
(** ** The full-sync handler *)

Lemma succeeds_ret {A} (a : A) : succeeds (ret a).
Proof. intros w. reflexivity. Qed.

Lemma succeeds_log (l : LogLine) : succeeds (log l).
Proof. intros w. reflexivity. Qed.

Lemma succeeds_Getenv (k : string) : succeeds (Getenv k).
Proof. intros w. reflexivity. Qed.

Lemma succeeds_attempt {A} (m : M A) : succeeds (attempt m).
Proof. intros w. reflexivity. Qed.

Lemma succeeds_bind {A B} (m : M A) (k : A -> M B) :
  succeeds m -> (forall a, succeeds (k a)) -> succeeds (bind m k).
Proof.
  intros Hm Hk w. unfold bind. specialize (Hm w).
  destruct (res (m w)) as [a|e]; [|discriminate]. apply Hk.
Qed.

Lemma succeeds_forEach {A} (xs : list A) (body : A -> M unit) :
  (forall x, succeeds (body x)) -> succeeds (forEach xs body).
Proof.
  intros Hb. induction xs as [|x xs IH]; simpl.
  - apply succeeds_ret.
  - apply succeeds_bind; [apply Hb | intros _; exact IH].
Qed.

Ltac succeeds_step :=
  match goal with
  | |- succeeds (bind _ _) => apply succeeds_bind; [|intros]
  | |- succeeds (attempt _) => apply succeeds_attempt
  | |- succeeds (forEach _ _) => apply succeeds_forEach; intros
  | |- succeeds (ret _) => apply succeeds_ret
  | |- succeeds (Getenv _) => apply succeeds_Getenv
  | |- succeeds (log _) => apply succeeds_log
  | |- succeeds (match ?x with _ => _ end) => destruct x
  | |- succeeds (let _ := _ in _) => cbv zeta
  end.

(** The failures of a repository or of a tag are logged, not returned. *)
Lemma handler_repo_succeeds (L : GoLib) (srcRegistry dstPrefix dstHost : string)
    (kc : Keychain) (repoPath : string) :
  succeeds (FullSync.handler_repo L srcRegistry dstPrefix dstHost kc repoPath).
Proof.
  unfold FullSync.handler_repo, FullSync.handler_tag, FullSync.handler_copy.
  repeat succeeds_step.
Qed.

Lemma failsIn_succeeds {A} (P : Event -> bool) (m : M A) :
  succeeds m -> failsIn P m.
Proof. intros H w E. rewrite H in E. discriminate. Qed.

Lemma failsIn_only {A} (P : Event -> bool) (m : M A) :
  only P m -> failsIn P m.
Proof. intros H w _. apply H. Qed.

Lemma failsIn_bind {A B} (P : Event -> bool) (m : M A) (k : A -> M B) :
  only P m -> (forall a, failsIn P (k a)) -> failsIn P (bind m k).
Proof.
  intros Hm Hk w. unfold bind.
  destruct (res (m w)) as [a|e]; cbn [res events].
  - intros E. rewrite forallb_app, Hm. apply Hk, E.
  - intros _. apply Hm.
Qed.

Ltac hush_fullsync :=
  unfold FullSync.mustEnv, FullSync.ecrPassword, FullSync.crane_Catalog,
    FullSync.Region;
  unfold_services; repeat only_step.

Lemma only_Region (P : Event -> bool) : only P FullSync.Region.
Proof. intros w. reflexivity. Qed.

Lemma fullsync_handler_failsIn (L : GoLib) :
  failsIn (fun ev => negb (isRepositoryWork ev)) (FullSync.handler L).
Proof.
  unfold FullSync.handler.
  apply failsIn_bind; [apply only_Getenv | intros r].
  cbv zeta.
  apply failsIn_bind; [hush_fullsync | intros group].
  apply failsIn_bind; [hush_fullsync | intros cgrUser].
  apply failsIn_bind; [hush_fullsync | intros cgrPass].
  apply failsIn_bind; [apply only_Getenv | intros p].
  apply failsIn_bind; [hush_fullsync | intros _].
  apply failsIn_bind; [hush_fullsync | intros who].
  destruct (Account who) as [accountID|]; [|apply failsIn_only, only_fail].
  apply failsIn_bind; [apply only_Region | intros region].
  apply failsIn_bind; [hush_fullsync | intros ecrPass].
  apply failsIn_bind; [hush_fullsync | intros repos].
  apply failsIn_succeeds.
  repeat first [apply handler_repo_succeeds | succeeds_step].
Qed.

Lemma fullsync_handler_yields_ok (L : GoLib) :
  yields (fun s => s = "ok") (FullSync.handler L).
Proof. unfold FullSync.handler. repeat yields_step. reflexivity. Qed.

(** X7. The full-sync handler returns an error only from its setup. Once
    the catalog of the source registry is obtained the handler returns
    "ok", whatever fails for a repository or a tag (those failures are
    logged); and when it returns an error it has not started on the
    repositories: no tags listed, no call to the destination about a
    repository or an image, nothing copied. *)
Theorem fullsync_fails_only_in_setup (L : GoLib) (w : World) :
  let o := FullSync.handler L w in
  res o = Ok "ok" \/
  (isOk (res o) = false /\
   forallb (fun ev => negb (isRepositoryWork ev)) (events o) = true).
Proof.
  cbv zeta. destruct (res (FullSync.handler L w)) as [s|e] eqn:R.
  - left. f_equal. exact (@fullsync_handler_yields_ok L w s R).
  - right. split; [reflexivity|].
    apply fullsync_handler_failsIn. rewrite R. reflexivity.
Qed.

(** [mustEnv], case by case. *)
Lemma mustEnv_run (k : string) (w : World) :
  FullSync.mustEnv k w
  = if isEmpty (environ (dep w) k)
    then mkOut (Err (mkError ("missing required env: " ++ k) ["os.Exit"])) w
               [EvLog (LogMissingEnv k)]
    else mkOut (Ok (environ (dep w) k)) w [].
Proof.
  unfold FullSync.mustEnv, bind, Getenv, log, fail, ret. cbn [res after events app].
  destruct (isEmpty (environ (dep w) k)); reflexivity.
Qed.

(** X8. The full-sync handler stops at the first of GROUP_NAME,
    CGR_USERNAME and CGR_PASSWORD that is not set (or is empty): it logs
    that the variable is missing and ends there, before any call to AWS or
    to a registry, the world untouched. *)
Theorem fullsync_stops_at_the_first_missing_variable
    (L : GoLib) (w : World) (k : string) :
  find (fun k => isEmpty (environ (dep w) k))
       ["GROUP_NAME"; "CGR_USERNAME"; "CGR_PASSWORD"] = Some k ->
  FullSync.handler L w
  = mkOut (Err (mkError ("missing required env: " ++ k) ["os.Exit"])) w
          [EvLog (LogMissingEnv k)].
Proof.
  cbn [find]. intros Hk. unfold FullSync.handler.
  erewrite bind_Ok by reflexivity.
  change (after (Getenv "SRC_REGISTRY" w)) with w.
  change (events (Getenv "SRC_REGISTRY" w)) with (@nil Event).
  cbv zeta. cbn [app].
  pose proof (mustEnv_run "GROUP_NAME" w) as Hg.
  destruct (isEmpty (environ (dep w) "GROUP_NAME")).
  { injection Hk as <-. erewrite bind_Err by (rewrite Hg; reflexivity).
    rewrite Hg. reflexivity. }
  erewrite bind_Ok by (rewrite Hg; reflexivity). rewrite Hg. cbn [res after events app].
  pose proof (mustEnv_run "CGR_USERNAME" w) as Hu.
  destruct (isEmpty (environ (dep w) "CGR_USERNAME")).
  { injection Hk as <-. erewrite bind_Err by (rewrite Hu; reflexivity).
    rewrite Hu. reflexivity. }
  erewrite bind_Ok by (rewrite Hu; reflexivity). rewrite Hu. cbn [res after events app].
  pose proof (mustEnv_run "CGR_PASSWORD" w) as Hp.
  destruct (isEmpty (environ (dep w) "CGR_PASSWORD")); [|discriminate].
  injection Hk as <-. erewrite bind_Err by (rewrite Hp; reflexivity).
  rewrite Hp. reflexivity.
Qed.

Lemma fullsync_stops_at_the_first_missing_variable_witness :
  let w := Demo.world Demo.noPasswordEnv Demo.noFault Demo.emptyEcr in
  find (fun k => isEmpty (environ (dep w) k))
       ["GROUP_NAME"; "CGR_USERNAME"; "CGR_PASSWORD"] = Some "CGR_PASSWORD" /\
  FullSync.handler Demo.lib w
  = mkOut (Err (mkError "missing required env: CGR_PASSWORD" ["os.Exit"])) w
          [EvLog (LogMissingEnv "CGR_PASSWORD")].
Proof.
  intros w. split; [reflexivity|].
  apply (@fullsync_stops_at_the_first_missing_variable Demo.lib w "CGR_PASSWORD").
  reflexivity.
Defined.

(** ** What the full-sync handler reads *)

Lemma prefix_app_same (a p s : string) :
  String.prefix (a ++ p) (a ++ s) = String.prefix p s.
Proof.
  induction a as [|c a IH]; simpl; [reflexivity|].
  destruct (ascii_dec c c) as [_|N]; [exact IH | congruence].
Qed.

Lemma prefix_app_more (p s t : string) :
  String.prefix p s = true -> String.prefix p (s ++ t) = true.
Proof.
  revert s. induction p as [|c p IH]; intros s H.
  - destruct (s ++ t); reflexivity.
  - destruct s as [|d s]; simpl in H; [discriminate|]. simpl.
    destruct (ascii_dec c d); [apply IH, H | discriminate].
Qed.

Lemma HasPrefix_under (registry group r rest : string) :
  strings.HasPrefix r (group ++ "/") = true ->
  strings.HasPrefix ((registry ++ "/" ++ r) ++ rest) (registry ++ "/" ++ group ++ "/")
  = true.
Proof.
  unfold strings.HasPrefix. intros H. apply prefix_app_more.
  rewrite prefix_app_same.
  change ("/" ++ group ++ "/") with (String "/" (group ++ "/")).
  change ("/" ++ r) with (String "/" r).
  cbn [String.prefix]. destruct (ascii_dec "/" "/") as [_|N]; [exact H | congruence].
Qed.

Lemma append_empty_r (s : string) : s ++ "" = s.
Proof. induction s as [|c s IH]; simpl; [reflexivity | rewrite IH; reflexivity]. Qed.

Lemma only_forEach_in {A} (P : Event -> bool) (xs : list A) (body : A -> M unit) :
  (forall x, In x xs -> only P (body x)) -> only P (forEach xs body).
Proof.
  induction xs as [|x xs IH]; intros Hb; simpl.
  - apply only_ret.
  - apply only_bind; [apply Hb; left; reflexivity | intros _].
    apply IH. intros y Hy. apply Hb. right. exact Hy.
Qed.

Lemma handler_repo_readsUnder (L : GoLib)
    (srcRegistry group dstPrefix dstHost : string) (kc : Keychain)
    (repoPath : string) :
  strings.HasPrefix repoPath (group ++ "/") = true ->
  only (readsUnder (srcRegistry ++ "/" ++ group ++ "/"))
       (FullSync.handler_repo L srcRegistry dstPrefix dstHost kc repoPath).
Proof.
  intros Hr.
  pose proof (HasPrefix_under srcRegistry group repoPath "" Hr) as H0.
  rewrite append_empty_r in H0.
  unfold FullSync.handler_repo, FullSync.handler_tag, FullSync.handler_copy,
    FullSync.ecrTagDigest, FullSync.copyImage, FullSync.ensureECRRepo,
    FullSync.crane_ListTags, FullSync.crane_Digest, FullSync.crane_Copy.
  unfold_services.
  repeat first
    [ only_step
    | apply only_query; intros; cbn [readsUnder];
      first [exact H0 | apply HasPrefix_under, Hr]
    | apply only_call; intros; cbn [readsUnder];
      first [exact H0 | apply HasPrefix_under, Hr] ].
Qed.

(** X9. The full-sync handler reads nothing of the source registry outside
    the group: every listing of tags, every fetch of a digest and every
    copy it makes names a source under <registry>/<GROUP_NAME>/, the
    registry being SRC_REGISTRY, or cgr.dev when that is not set. *)
Theorem fullsync_reads_only_the_group (L : GoLib) (w : World) :
  let registry := if isEmpty (environ (dep w) "SRC_REGISTRY") then "cgr.dev"
                  else environ (dep w) "SRC_REGISTRY" in
  let group := environ (dep w) "GROUP_NAME" in
  forallb (readsUnder (registry ++ "/" ++ group ++ "/"))
          (events (FullSync.handler L w)) = true.
Proof.
  cbv zeta. unfold FullSync.handler.
  erewrite bind_Ok by reflexivity.
  change (after (Getenv "SRC_REGISTRY" w)) with w.
  change (events (Getenv "SRC_REGISTRY" w)) with (@nil Event).
  change (res (Getenv "SRC_REGISTRY" w)) with (Ok (environ (dep w) "SRC_REGISTRY")).
  cbv zeta. cbn [app].
  remember (if isEmpty (environ (dep w) "SRC_REGISTRY") then "cgr.dev"
            else environ (dep w) "SRC_REGISTRY") as registry eqn:Er.
  pose proof (mustEnv_run "GROUP_NAME" w) as Hg.
  destruct (isEmpty (environ (dep w) "GROUP_NAME")).
  { erewrite bind_Err by (rewrite Hg; reflexivity). rewrite Hg. reflexivity. }
  erewrite bind_Ok by (rewrite Hg; reflexivity). rewrite Hg.
  cbn [res after events app].
  remember (environ (dep w) "GROUP_NAME") as group eqn:Eg.
  clear Hg Er Eg.
  match goal with
  | |- forallb ?P (events (?m w)) = true =>
      assert (H : only P m); [|apply H]
  end.
  apply only_bind; [hush_fullsync | intros cgrUser].
  apply only_bind; [hush_fullsync | intros cgrPass].
  apply only_bind; [apply only_Getenv | intros p].
  apply only_bind; [hush_fullsync | intros _].
  apply only_bind; [hush_fullsync | intros who].
  destruct (Account who) as [accountID|]; [|apply only_fail].
  apply only_bind; [apply only_Region | intros region].
  apply only_bind; [hush_fullsync | intros ecrPass].
  apply only_bind; [hush_fullsync | intros repos].
  apply only_bind; [apply only_log; reflexivity | intros _].
  apply only_bind; [|intros _; apply only_ret].
  apply only_forEach_in. intros r Hin. apply filter_In in Hin as [_ Hr].
  apply handler_repo_readsUnder, Hr.
Qed.

(** ** The authorization token of ECR *)

Lemma SplitN2_cut (user pass : string) :
  colonFree user ->
  strings.SplitN2 (user ++ ":" ++ pass) ":" = [user; pass].
Proof.
  unfold colonFree. induction user as [|c user IH]; intros H.
  - reflexivity.
  - cbn [append strings.SplitN2].
    destruct (Ascii.eqb_spec c ":") as [E|_].
    + exfalso. apply (H c); [left; reflexivity | exact E].
    + change (user ++ String ":" pass) with (user ++ ":" ++ pass).
      rewrite IH; [reflexivity|].
      intros d Hd. apply H. right. exact Hd.
Qed.

Lemma SplitN2_whole (s : string) :
  colonFree s -> strings.SplitN2 s ":" = [s].
Proof.
  unfold colonFree. induction s as [|c s IH]; intros H.
  - reflexivity.
  - cbn [strings.SplitN2].
    destruct (Ascii.eqb_spec c ":") as [E|_].
    + exfalso. apply (H c); [left; reflexivity | exact E].
    + rewrite IH; [reflexivity|].
      intros d Hd. apply H. right. exact Hd.
Qed.

Lemma ecr_GetAuthorizationToken_Ok (ids : list string) (w : World)
    (out : GetAuthorizationTokenOutput) :
  res (ecr_GetAuthorizationToken ids w) = Ok out ->
  AuthorizationData out = ecr_authorization (dep w).
Proof.
  unfold ecr_GetAuthorizationToken, query, call.
  destruct (fault (dep w) (clock w) (CGetAuthorizationToken ids)); [discriminate|].
  cbn [res]. intros [= <-]. reflexivity.
Qed.

(** [ecrPassword] once the token is there. *)
Lemma ecrPassword_decoded (L : GoLib) (ids : list string) (w : World)
    (ad : AuthData) (ads : list AuthData) (raw dec : string) :
  isOk (res (ecr_GetAuthorizationToken ids w)) = true ->
  ecr_authorization (dep w) = ad :: ads ->
  AuthorizationToken ad = Some raw ->
  base64_DecodeString L raw = Ok dec ->
  res (FullSync.ecrPassword L ids w)
  = match strings.SplitN2 dec ":" with
    | [_; pass] => Ok pass
    | _ => Err (errors_New "unexpected ECR token format")
    end.
Proof.
  intros Hcall Hauth Htok Hdec. unfold FullSync.ecrPassword.
  destruct (res (ecr_GetAuthorizationToken ids w)) as [out|e] eqn:R; [|discriminate].
  erewrite bind_Ok by exact R. cbn [res].
  rewrite (ecr_GetAuthorizationToken_Ok _ _ R), Hauth, Htok, Hdec.
  unfold bind, lift, ret, fail; cbn [res].
  destruct (strings.SplitN2 dec ":") as [|x [|pass [|? ?]]]; reflexivity.
Qed.

(** X10. The password for ECR is what follows the first colon of the
    decoded authorization token: for a token that decodes to
    <user>:<password>, [ecrPassword] (full-sync) returns the password, colons
    in it included, and [mirrorSingleRepo] (chained handler) presents it
    to the destination as the password of the user AWS, the endpoint
    being the proxy endpoint without its https:// scheme. A token that
    decodes to a text without a colon is an error. *)
Theorem ecr_password_follows_the_first_colon
    (L : GoLib) (w : World) (ids : list string)
    (ad : AuthData) (ads : list AuthData) (raw user pass : string) :
  ecr_authorization (dep w) = ad :: ads ->
  AuthorizationToken ad = Some raw ->
  colonFree user ->
  (isOk (res (ecr_GetAuthorizationToken ids w)) = true ->
   (base64_DecodeString L raw = Ok (user ++ ":" ++ pass) ->
    res (FullSync.ecrPassword L ids w) = Ok pass) /\
   (base64_DecodeString L raw = Ok user ->
    res (FullSync.ecrPassword L ids w)
    = Err (errors_New "unexpected ECR token format"))) /\
  (forall srcAuth dstAuth ecrEndpoint,
      base64_DecodeString L raw = Ok (user ++ ":" ++ pass) ->
      res (Chain.mirrorSingleRepo_auth L w) = Ok (srcAuth, dstAuth, ecrEndpoint) ->
      dstAuth = mkBasic "AWS" pass /\
      ecrEndpoint = strings.TrimPrefix (aws_ToString (ProxyEndpoint ad)) "https://").
Proof.
  intros Hauth Htok Hfree. split.
  - intros Hcall. split; intros Hdec;
      rewrite (ecrPassword_decoded L ids w Hcall Hauth Htok Hdec).
    + rewrite (SplitN2_cut pass Hfree). reflexivity.
    + rewrite (SplitN2_whole Hfree). reflexivity.
  - intros sa da ep Hdec.
    unfold Chain.mirrorSingleRepo_auth.
    erewrite bind_Ok by reflexivity. cbn [res].
    erewrite bind_Ok by reflexivity. cbn [res].
    destruct (isEmpty _ || isEmpty _); [discriminate|].
    cbv zeta.
    match goal with
    | |- res (bind ?m ?k ?w0) = _ -> _ =>
        pose proof (steady_call CLoadDefaultConfig (fun w1 => (Ok tt, ecr w1)) w0) as Sc;
        destruct (res (m w0)) as [u|e] eqn:Rc;
        [erewrite bind_Ok by exact Rc | erewrite bind_Err by exact Rc; discriminate]
    end.
    cbn [res].
    match goal with
    | |- res (bind ?m ?k ?w0) = _ -> _ =>
        destruct (res (m w0)) as [ao|e] eqn:Ra;
        [erewrite bind_Ok by exact Ra | erewrite bind_Err by exact Ra; discriminate]
    end.
    cbn [res].
    apply wrapping_Ok in Ra. apply ecr_GetAuthorizationToken_Ok in Ra.
    change (call CLoadDefaultConfig (fun w1 => (Ok tt, ecr w1)))
      with config_LoadDefaultConfig in Sc.
    change (after (Getenv "CGR_PASSWORD" (after (Getenv "CGR_USERNAME" w))))
      with w in *.
    rewrite Sc, Hauth in Ra. rewrite Ra, Htok. cbn [aws_ToString].
    erewrite bind_Ok by (unfold wrapping, lift; cbn [res]; rewrite Hdec; reflexivity).
    cbn [res]. rewrite (SplitN2_cut pass Hfree).
    intros [= _ <- <-]. split; reflexivity.
Qed.

Lemma ecr_password_follows_the_first_colon_witness :
  let w := Demo.world Demo.chainEnv Demo.noFault Demo.emptyEcr in
  res (FullSync.ecrPassword Demo.lib ["123456789012"] w) = Ok "secret" /\
  res (Chain.mirrorSingleRepo_auth Demo.lib w)
  = Ok (Demo.srcAuth, mkBasic "AWS" "secret", Demo.endpoint).
Proof.
  intros w.
  assert (Hfree : colonFree "AWS").
  { intros c [<-|[<-|[<-|[]]]]; discriminate. }
  destruct (@ecr_password_follows_the_first_colon Demo.lib w ["123456789012"]
              (mkAuthData (Some "QVdTOnNlY3JldA==") (Some ("https://" ++ Demo.endpoint)))
              [] "QVdTOnNlY3JldA==" "AWS" "secret" eq_refl eq_refl Hfree)
    as [Hfull Hchain].
  split.
  - apply Hfull; reflexivity.
  - reflexivity.
Defined.

(** ** The name of the destination repository *)

Lemma substring_whole (s : string) : String.substring 0 (String.length s) s = s.
Proof. induction s as [|c s IH]; simpl; [reflexivity | rewrite IH; reflexivity]. Qed.

Lemma prefix_app (p s : string) : String.prefix p (p ++ s) = true.
Proof.
  induction p as [|c p IH]; simpl.
  - destruct s; reflexivity.
  - destruct (ascii_dec c c) as [_|N]; [exact IH | congruence].
Qed.

(** [strings.TrimPrefix] takes a prefix off. *)
Lemma TrimPrefix_app (p s : string) : strings.TrimPrefix (p ++ s) p = s.
Proof.
  unfold strings.TrimPrefix. rewrite prefix_app.
  induction p as [|c p IH]; simpl.
  - rewrite Nat.sub_0_r. apply substring_whole.
  - exact IH.
Qed.

(** X11. The destination repository is named after the source repository
    without the host of the source registry: for a source repository
    <registry>/<path>, the registry being SRC_REGISTRY or cgr.dev when that
    is not set, [mirrorSingleRepo] names the destination <path>, or
    path.Join(<prefix>, <path>) when DST_PREFIX, without one leading slash
    and without surrounding spaces, is a non-empty <prefix>. A source
    repository that does not start with <registry>/ keeps its whole name. *)
Theorem destination_name_drops_the_registry
    (L : GoLib) (w : World) (srcRepo path : string) :
  let r := environ (dep w) "SRC_REGISTRY" in
  let registry := if isEmpty r then "cgr.dev" else r in
  let dstPrefix :=
    strings.Trim1 (strings.TrimPrefix (environ (dep w) "DST_PREFIX") "/") " " in
  let named (p : string) :=
    Ok (if isEmpty dstPrefix then p else path_Join L dstPrefix p) in
  res (Chain.mirrorSingleRepo_dest L (registry ++ "/" ++ path) w) = named path /\
  (strings.HasPrefix srcRepo (registry ++ "/") = false ->
   res (Chain.mirrorSingleRepo_dest L srcRepo w) = named srcRepo).
Proof.
  cbv zeta. unfold Chain.mirrorSingleRepo_dest, bind, Getenv, ret.
  cbn [res after events]. split.
  - replace ((if isEmpty (environ (dep w) "SRC_REGISTRY") then "cgr.dev"
              else environ (dep w) "SRC_REGISTRY") ++ "/" ++ path)
      with (((if isEmpty (environ (dep w) "SRC_REGISTRY") then "cgr.dev"
              else environ (dep w) "SRC_REGISTRY") ++ "/") ++ path).
    + rewrite TrimPrefix_app. reflexivity.
    + generalize (if isEmpty (environ (dep w) "SRC_REGISTRY") then "cgr.dev"
                  else environ (dep w) "SRC_REGISTRY").
      intros s. induction s as [|c s IH]; simpl; [reflexivity|].
      f_equal. exact IH.
  - intros H.
    assert (E : strings.TrimPrefix srcRepo
                  ((if isEmpty (environ (dep w) "SRC_REGISTRY") then "cgr.dev"
                    else environ (dep w) "SRC_REGISTRY") ++ "/") = srcRepo).
    { unfold strings.TrimPrefix. unfold strings.HasPrefix in H. rewrite H.
      reflexivity. }
    rewrite E. reflexivity.
Qed.

Lemma destination_name_drops_the_registry_witness :
  let w := Demo.world Demo.prefixEnv Demo.noFault Demo.emptyEcr in
  res (Chain.mirrorSingleRepo_dest Demo.lib "cgr.dev/g/app" w) = Ok "mirror/g/app" /\
  res (Chain.mirrorSingleRepo_dest Demo.lib "docker.io/g/app" w)
  = Ok "mirror/docker.io/g/app".
Proof.
  intros w.
  destruct (@destination_name_drops_the_registry Demo.lib w "docker.io/g/app" "g/app")
    as [Hin Hout].
  split.
  - exact Hin.
  - apply Hout. reflexivity.
Defined.

(* ------------------------------------------------------------------ *)
(** ** More on the repository list *)

Lemma nonblank_neq (t : string) : nonblank t = true <-> t <> "".
Proof.
  unfold nonblank, isEmpty. destruct (String.eqb_spec t ""); split; intros H;
    try reflexivity; try discriminate; try assumption; congruence.
Qed.

Lemma normalizeRepoList_nonempty (L : GoLib) (a : list string) :
  Forall (fun t => t <> "") (Chain.normalizeRepoList L a).
Proof.
  rewrite normalizeRepoList_filter.
  apply Forall_forall. intros t Hin. apply filter_In in Hin as [_ Hn].
  apply nonblank_neq, Hn.
Qed.

(** X12. [normalizeRepoList] keeps no empty name, never lengthens a list,
    normalizes the two halves of a list independently, and changes
    nothing in a list that is normalized already (for entries that
    strings.TrimSpace leaves alone once they are trimmed). *)
Theorem normalizeRepoList_is_a_normal_form (L : GoLib) (a b : list string) :
  Forall (fun t => t <> "") (Chain.normalizeRepoList L a) /\
  (List.length (Chain.normalizeRepoList L a) <= List.length a)%nat /\
  Chain.normalizeRepoList L (a ++ b)
  = (Chain.normalizeRepoList L a ++ Chain.normalizeRepoList L b)%list /\
  ((forall s, In s a -> TrimSpace L (TrimSpace L s) = TrimSpace L s) ->
   Chain.normalizeRepoList L (Chain.normalizeRepoList L a)
   = Chain.normalizeRepoList L a).
Proof.
  split; [apply normalizeRepoList_nonempty|].
  rewrite !normalizeRepoList_filter. repeat split.
  - rewrite <- (length_map (TrimSpace L) a). apply filter_length_le.
  - rewrite map_app, filter_app. reflexivity.
  - intros Hidem.
    induction a as [|s a IH]; [reflexivity|].
    cbn [map filter].
    assert (Hs : TrimSpace L (TrimSpace L s) = TrimSpace L s)
      by (apply Hidem; left; reflexivity).
    assert (Ha : forall s0, In s0 a -> TrimSpace L (TrimSpace L s0) = TrimSpace L s0)
      by (intros s0 H0; apply Hidem; right; exact H0).
    destruct (nonblank (TrimSpace L s)) eqn:N.
    + cbn [map filter]. rewrite Hs, N, (IH Ha). reflexivity.
    + apply IH, Ha.
Qed.

Lemma normalizeRepoList_is_a_normal_form_witness :
  Chain.normalizeRepoList Demo.lib [" a "; ""; "b"; "  "] = ["a"; "b"] /\
  Chain.normalizeRepoList Demo.lib
    (Chain.normalizeRepoList Demo.lib [" a "; ""; "b"; "  "])
  = Chain.normalizeRepoList Demo.lib [" a "; ""; "b"; "  "].
Proof.
  split; [reflexivity|].
  apply (@normalizeRepoList_is_a_normal_form Demo.lib [" a "; ""; "b"; "  "] []).
  intros s [<-|[<-|[<-|[<-|[]]]]]; reflexivity.
Defined.

(** X13. The repository list that [loadRepoList] resolves never holds an
    empty name, from whichever source it comes; so the repository of an
    indexed invocation, the entry at an index below the length of the
    list, is never the empty name. *)
Theorem resolved_list_has_no_empty_name
    (L : GoLib) (w : World) (repos : list string) (i : nat) :
  res (Chain.loadRepoList L w) = Ok repos ->
  Forall (fun r => r <> "") repos /\
  ((i < List.length repos)%nat -> nth i repos "" <> "").
Proof.
  intros H.
  assert (F : Forall (fun r => r <> "") repos).
  { destruct (loadRepoList_cases L w H) as [[input ->]|(registry & group & ->)].
    - apply normalizeRepoList_nonempty.
    - repeat constructor; destruct registry; discriminate. }
  split; [exact F|].
  intros Hi. rewrite Forall_forall in F. apply F, nth_In, Hi.
Qed.

Lemma resolved_list_has_no_empty_name_witness :
  let w := Demo.world Demo.chainEnv Demo.noFault Demo.emptyEcr in
  res (Chain.loadRepoList Demo.lib w)
  = Ok ["cgr.dev/g/app"; "cgr.dev/g/web"; "cgr.dev/g/api"] /\
  Forall (fun r => r <> "") ["cgr.dev/g/app"; "cgr.dev/g/web"; "cgr.dev/g/api"].
Proof.
  intros w. split; [reflexivity|].
  apply (@resolved_list_has_no_empty_name Demo.lib w _ 0). reflexivity.
Defined.

(** X14. [loadRepoList] takes the first source that gives a list:
    REPO_LIST_JSON when it is set and decodes; if not (a warning is logged
    when it is set and does not decode) REPO_LIST_CSV when it is set; and
    only when neither gives a list is the parameter named by
    REPO_LIST_SSM_PARAM read. The first two make no call and cannot fail:
    [loadRepoList] calls a service, or returns an error, only when it
    reads the parameter. *)
Theorem repository_list_sources_in_order (L : GoLib) (w : World) :
  let json := TrimSpace L (environ (dep w) "REPO_LIST_JSON") in
  let csv := TrimSpace L (environ (dep w) "REPO_LIST_CSV") in
  let ssm := TrimSpace L (environ (dep w) "REPO_LIST_SSM_PARAM") in
  let usable := negb (isEmpty json) && isOk (json_Unmarshal_strings L json) in
  let o := Chain.loadRepoList L w in
  (usable = true ->
   exists repos,
     json_Unmarshal_strings L json = Ok repos /\
     o = mkOut (Ok (Chain.normalizeRepoList L repos)) w []) /\
  (usable = false -> isEmpty csv = false ->
   o = mkOut (Ok (Chain.normalizeRepoList L (strings.Split1 csv ","))) w
             (if isEmpty json then [] else [EvLog LogRepoListJSONInvalid])) /\
  (forall c f, In (EvCall c f) (events o) ->
               usable = false /\ isEmpty csv = true /\ isEmpty ssm = false) /\
  (isOk (res o) = false ->
   usable = false /\ isEmpty csv = true /\ isEmpty ssm = false).
Proof.
  cbv zeta. unfold Chain.loadRepoList, Chain.fallbackRepoList.
  unfold bind, Getenv, log, ret. cbn [res after events app].
  destruct (isEmpty (TrimSpace L (environ (dep w) "REPO_LIST_JSON")));
    [|destruct (json_Unmarshal_strings L
                  (TrimSpace L (environ (dep w) "REPO_LIST_JSON"))) as [repos|e]];
    cbn [res after events app negb andb isOk];
    destruct (isEmpty (TrimSpace L (environ (dep w) "REPO_LIST_CSV")));
    cbn [res after events app];
    try destruct (isEmpty (TrimSpace L (environ (dep w) "REPO_LIST_SSM_PARAM")));
    cbn [res after events app isOk];
    repeat split; intros;
    repeat match goal with
           | H : In _ [] |- _ => destruct H
           | H : In _ (_ :: _) |- _ => destruct H as [H|H]
           | H : EvLog _ = EvCall _ _ |- _ => discriminate H
           end;
    try discriminate; try reflexivity;
    try (eexists; split; reflexivity).
Qed.

Lemma repository_list_sources_in_order_witness :
  let w := Demo.world Demo.badJsonEnv Demo.noFault Demo.emptyEcr in
  Chain.loadRepoList Demo.lib w
  = mkOut (Ok ["cgr.dev/g/app"; "cgr.dev/g/web"; "cgr.dev/g/api"]) w
          [EvLog LogRepoListJSONInvalid].
Proof.
  intros w.
  destruct (repository_list_sources_in_order Demo.lib w) as (_ & Hcsv & _).
  apply Hcsv; reflexivity.
Defined.

Lemma ssm_GetParameter_events (name : string) (w : World) :
  events (ssm_GetParameter name w)
  = [EvCall (CGetParameter name) (errOf (res (ssm_GetParameter name w)))].
Proof. apply call_events. Qed.

Lemma ssm_GetParameter_Ok (name : string) (w : World) (resp : GetParameterOutput) :
  res (ssm_GetParameter name w) = Ok resp -> resp = ssm_store (dep w) name.
Proof.
  unfold ssm_GetParameter, query, call.
  destruct (fault (dep w) (clock w) (CGetParameter name)); [discriminate|].
  cbn [res]. intros [= <-]. reflexivity.
Qed.

(** [loadReposFromSSM], case by case. *)
Lemma loadReposFromSSM_run (L : GoLib) (name : string) (w : World) :
  let c := config_LoadDefaultConfig w in
  let g := ssm_GetParameter name (after c) in
  Chain.loadReposFromSSM L name w
  = match res c with
    | Err e => mkOut (Err e) (after c) (events c)
    | Ok _ =>
        match res g with
        | Err e => mkOut (Err e) (after g) (events c ++ events g)%list
        | Ok resp =>
            mkOut (match Param resp with
                   | None => Err (errors_New "empty SSM parameter")
                   | Some p =>
                       match Value p with
                       | None => Err (errors_New "empty SSM parameter")
                       | Some v =>
                           Ok (Chain.normalizeRepoList L
                                 match json_Unmarshal_strings L (TrimSpace L v) with
                                 | Ok repos => repos
                                 | Err _ => strings.Split1 (TrimSpace L v) ","
                                 end)
                       end
                   end)
                  (after g) (events c ++ events g)%list
        end
    end.
Proof.
  cbv zeta. unfold Chain.loadReposFromSSM, bind, ret, fail.
  destruct (res (config_LoadDefaultConfig w)); cbn [res after events]; [|reflexivity].
  destruct (res (ssm_GetParameter name _)) as [resp|e]; cbn [res after events];
    [|reflexivity].
  destruct (Param resp) as [p|]; cbn [res after events];
    [|rewrite app_nil_r; reflexivity].
  destruct (Value p) as [v|]; cbn [res after events];
    [|rewrite app_nil_r; reflexivity].
  destruct (json_Unmarshal_strings L (TrimSpace L v));
    cbn [res after events]; rewrite app_nil_r; reflexivity.
Qed.

(** X15. [loadReposFromSSM] loads the configuration, then reads the
    parameter of the given name, once, and not at all when the
    configuration cannot be loaded. The list it returns is the value of
    the parameter, trimmed, read as a JSON array of names when it decodes
    as one and as comma-separated names otherwise, and normalized. It
    fails only when one of the two calls fails, with the error of the
    call, or when the parameter has no value. *)
Theorem ssm_parameter_is_json_or_else_csv (L : GoLib) (name : string) (w : World) :
  let o := Chain.loadReposFromSSM L name w in
  (forall repos,
      res o = Ok repos ->
      exists p v,
        Param (ssm_store (dep w) name) = Some p /\ Value p = Some v /\
        repos = Chain.normalizeRepoList L
                  match json_Unmarshal_strings L (TrimSpace L v) with
                  | Ok l => l
                  | Err _ => strings.Split1 (TrimSpace L v) ","
                  end) /\
  (forall e,
      res o = Err e ->
      (exists c, In (EvCall c (Some e)) (events o)) \/
      (e = errors_New "empty SSM parameter" /\
       forall p, Param (ssm_store (dep w) name) = Some p -> Value p = None)) /\
  ((exists e, events o = [EvCall CLoadDefaultConfig (Some e)]) \/
   (exists f, events o = [EvCall CLoadDefaultConfig None;
                          EvCall (CGetParameter name) f])).
Proof.
  cbv zeta. rewrite loadReposFromSSM_run. cbv zeta.
  rewrite config_LoadDefaultConfig_events.
  pose proof (steady_call CLoadDefaultConfig (fun w1 => (Ok tt, ecr w1)) w) as Sc.
  change (call CLoadDefaultConfig (fun w1 => (Ok tt, ecr w1)))
    with config_LoadDefaultConfig in Sc.
  destruct (res (config_LoadDefaultConfig w)) as [u|e0]; cbn [res events errOf].
  2:{ split; [discriminate|]. split.
      - intros e [= <-]. left. eexists. left. reflexivity.
      - left. eexists. reflexivity. }
  rewrite ssm_GetParameter_events.
  destruct (res (ssm_GetParameter name _)) as [resp|e0] eqn:Rg;
    cbn [res events errOf app].
  2:{ split; [discriminate|]. split.
      - intros e [= <-]. left. eexists. right. left. reflexivity.
      - right. eexists. reflexivity. }
  apply ssm_GetParameter_Ok in Rg. rewrite Sc in Rg. subst resp.
  split; [|split].
  - intros repos. destruct (Param (ssm_store (dep w) name)) as [p|]; [|discriminate].
    destruct (Value p) as [v|] eqn:Hv; [|discriminate].
    intros [= <-]. exists p, v. repeat split. exact Hv.
  - intros e. destruct (Param (ssm_store (dep w) name)) as [p|].
    + destruct (Value p) as [v|] eqn:Hv; [discriminate|].
      intros [= <-]. right. split; [reflexivity|].
      intros p' [= <-]. exact Hv.
    + intros [= <-]. right. split; [reflexivity|]. discriminate.
  - right. eexists. reflexivity.
Qed.

Lemma ssm_parameter_is_json_or_else_csv_witness :
  res (Chain.loadRepoList Demo.lib Demo.ssmWorld)
  = Ok ["cgr.dev/g/app"; "cgr.dev/g/web"] /\
  exists p v,
    Param (ssm_store (dep Demo.ssmWorld) "/mirror/repos") = Some p /\
    Value p = Some v /\
    ["cgr.dev/g/app"; "cgr.dev/g/web"]
    = Chain.normalizeRepoList Demo.lib
        match json_Unmarshal_strings Demo.lib (TrimSpace Demo.lib v) with
        | Ok l => l
        | Err _ => strings.Split1 (TrimSpace Demo.lib v) ","
        end.
Proof.
  split; [reflexivity|].
  destruct (ssm_parameter_is_json_or_else_csv Demo.lib "/mirror/repos" Demo.ssmWorld)
    as (Hok & _).
  apply Hok. reflexivity.
Defined.

(** ** Comma-separated lists *)

Lemma Split1_cut (s t : string) :
  commaFree s ->
  strings.Split1 (s ++ "," ++ t) "," = s :: strings.Split1 t ",".
Proof.
  unfold commaFree. induction s as [|c s IH]; intros H.
  - reflexivity.
  - cbn [append strings.Split1].
    destruct (Ascii.eqb_spec c ",") as [E|_].
    + exfalso. apply (H c); [left; reflexivity | exact E].
    + change (s ++ String "," t) with (s ++ "," ++ t).
      rewrite IH; [reflexivity|].
      intros d Hd. apply H. right. exact Hd.
Qed.

Lemma Split1_whole (s : string) :
  commaFree s -> strings.Split1 s "," = [s].
Proof.
  unfold commaFree. induction s as [|c s IH]; intros H.
  - reflexivity.
  - cbn [strings.Split1].
    destruct (Ascii.eqb_spec c ",") as [E|_].
    + exfalso. apply (H c); [left; reflexivity | exact E].
    + rewrite IH; [reflexivity|].
      intros d Hd. apply H. right. exact Hd.
Qed.

(** [strings.Split] undoes a join with commas. *)
Lemma Split1_concat (names : list string) :
  names <> [] -> Forall commaFree names ->
  strings.Split1 (String.concat "," names) "," = names.
Proof.
  induction names as [|x names IH]; [congruence|].
  intros _ F. inversion F as [|? ? Hx Hnames]; subst.
  destruct names as [|y names].
  - simpl. apply Split1_whole, Hx.
  - change (String.concat "," (x :: y :: names))
      with (x ++ "," ++ String.concat "," (y :: names)).
    rewrite (Split1_cut _ Hx), IH; [reflexivity | discriminate | exact Hnames].
Qed.

Lemma commaFree_forallb (s : string) :
  forallb (fun c => negb (Ascii.eqb c ",")) (list_ascii_of_string s) = true ->
  commaFree s.
Proof.
  intros H c Hin E. rewrite forallb_forall in H. specialize (H c Hin).
  subst c. discriminate.
Qed.

(** X16. REPO_LIST_CSV is read back name by name: when REPO_LIST_JSON is
    not set and REPO_LIST_CSV, trimmed, is the names of a list joined with
    commas (no name holding a comma), [loadRepoList] returns these names,
    each trimmed, in their order, without the blank ones. *)
Theorem csv_list_is_read_back (L : GoLib) (w : World) (names : list string) :
  isEmpty (TrimSpace L (environ (dep w) "REPO_LIST_JSON")) = true ->
  TrimSpace L (environ (dep w) "REPO_LIST_CSV") = String.concat "," names ->
  String.concat "," names <> "" ->
  Forall commaFree names ->
  Chain.loadRepoList L w
  = mkOut (Ok (filter nonblank (map (TrimSpace L) names))) w [].
Proof.
  intros Hjson Hcsv Hne Hfree.
  unfold Chain.loadRepoList, bind, Getenv, ret. cbn [res after events app].
  rewrite Hjson, Hcsv. cbn [res after events app].
  unfold isEmpty. destruct (String.eqb_spec (String.concat "," names) "");
    [contradiction|].
  rewrite normalizeRepoList_filter, Split1_concat; [reflexivity | | exact Hfree].
  intros ->. apply Hne. reflexivity.
Qed.

Lemma csv_list_is_read_back_witness :
  let w := Demo.world Demo.chainEnv Demo.noFault Demo.emptyEcr in
  Chain.loadRepoList Demo.lib w
  = mkOut (Ok ["cgr.dev/g/app"; "cgr.dev/g/web"; "cgr.dev/g/api"]) w [].
Proof.
  intros w.
  apply (@csv_list_is_read_back Demo.lib w
           ["cgr.dev/g/app"; " cgr.dev/g/web "; "cgr.dev/g/api"]).
  - reflexivity.
  - reflexivity.
  - discriminate.
  - repeat constructor; apply commaFree_forallb; reflexivity.
Defined.

(** ** The start index *)

(** X17. An invocation without a payload runs as the indexed job whose
    index START_INDEX gives: trimmed and read as a decimal number, or 0
    when it is not set or is not a number. The invocation does what an
    invocation with the payload of that Job Descriptor does. *)
Theorem empty_payload_runs_from_START_INDEX (L : GoLib) (w : World) (raw : string) :
  let s := TrimSpace L (environ (dep w) "START_INDEX") in
  let index := if isEmpty s then 0%Z
               else match Atoi L s with Ok n => n | Err _ => 0%Z end in
  raw <> "" ->
  json_Unmarshal_JobEvent L raw = Ok (mkJobEvent index "") ->
  Chain.handler L "" w = Chain.handler L raw w.
Proof.
  cbv zeta. intros Hraw Hdec. unfold Chain.handler, bind.
  rewrite handler_event_no_payload.
  rewrite (handler_event_decoded L w Hraw Hdec). reflexivity.
Qed.

Lemma empty_payload_runs_from_START_INDEX_witness :
  let w := Demo.world Demo.startEnv Demo.noFault Demo.emptyEcr in
  In (EvLog (LogProcessingRepo 2 3 "cgr.dev/g/web"))
     (events (Chain.handler Demo.lib Demo.indexOnePayload w)) /\
  Chain.handler Demo.lib "" w = Chain.handler Demo.lib Demo.indexOnePayload w.
Proof.
  intros w. split.
  - vm_compute. tauto.
  - apply (@empty_payload_runs_from_START_INDEX Demo.lib w Demo.indexOnePayload).
    + discriminate.
    + reflexivity.
Defined.

(** ** An invocation that fails *)

Lemma handler_run_failed (L : GoLib) (evt : JobEvent) (repos : list string)
    (w : World) :
  isOk (res (Chain.handler_run L evt repos w)) = false ->
  Chain.dispatched (events (Chain.handler_run L evt repos w)) = [].
Proof.
  assert (Hm : forall r, Chain.dispatched (events (Chain.mirrorSingleRepo L r w)) = []).
  { intros r. apply dispatched_none, mirrorSingleRepo_no_invoke. }
  unfold Chain.handler_run. cbv zeta.
  destruct (List.length repos =? 0)%nat; [discriminate|].
  destruct (negb (isEmpty (TrimSpace L (Repo evt)))).
  - unfold bind, wrapping, log; cbn [res after events app].
    specialize (Hm (TrimSpace L (Repo evt))).
    destruct (res (Chain.mirrorSingleRepo L _ w)); cbn [res after events app isOk];
      [discriminate|].
    intros _. exact Hm.
  - destruct (_ >=? _)%Z; [discriminate|].
    unfold bind, wrapping, log; cbn [res after events app].
    match goal with
    | |- context [Chain.mirrorSingleRepo L ?r w] => specialize (Hm r)
    end.
    destruct (res (Chain.mirrorSingleRepo L _ w)); cbn [res after events app isOk];
      [|intros _; exact Hm].
    match goal with
    | |- context [(?i + 1 <? ?n)%Z] => destruct (i + 1 <? n)%Z
    end; cbn [res after events app isOk]; [|discriminate].
    match goal with
    | |- context [Chain.invokeSelfAsync L ?ev ?w'] =>
        destruct (invokeSelfAsync_run L ev w') as (_ & Hi & _)
    end.
    destruct (res (Chain.invokeSelfAsync L _ _)); cbn [res after events app isOk];
      [discriminate|].
    intros _.
    change (?x :: ?l ++ ?l')%list with ([x] ++ l ++ l')%list.
    rewrite !dispatched_app, Hm, (Hi eq_refl). reflexivity.
Qed.

(** X18. An invocation of the chained handler that returns an error has
    dispatched no continuation, whatever the error: the list could not
    be loaded, the pass over the repository failed, or the dispatch
    itself failed. The sweep ends with that invocation. *)
Theorem failed_invocation_ends_the_sweep
    (L : GoLib) (raw : string) (w : World) (fuel : nat) :
  isOk (res (Chain.handler L raw w)) = false ->
  Chain.dispatched (events (Chain.handler L raw w)) = [] /\
  Chain.sweep L (S fuel) raw w = [Chain.handler L raw w].
Proof.
  intros Hfail.
  assert (Hd : Chain.dispatched (events (Chain.handler L raw w)) = []).
  { revert Hfail. rewrite handler_unfold. cbv zeta.
    pose proof (dispatched_none _ (handler_event_no_invoke L raw w)) as De.
    destruct (res (Chain.handler_event L raw w)) as [evt|e]; cbn [res events isOk];
      [|intros _; exact De].
    pose proof (dispatched_none _ (loadRepoList_no_invoke L
                  (after (Chain.handler_event L raw w)))) as Dl.
    destruct (res (Chain.loadRepoList L _)) as [repos|e]; cbn [res events isOk].
    - intros Hrun. rewrite !dispatched_app, De, Dl.
      apply handler_run_failed, Hrun.
    - intros _. rewrite dispatched_app, De, Dl. reflexivity. }
  split; [exact Hd|].
  cbn [Chain.sweep]. rewrite Hd. reflexivity.
Qed.

Lemma failed_invocation_ends_the_sweep_witness :
  let w := Demo.world Demo.chainEnv Demo.fetchFault Demo.emptyEcr in
  isOk (res (Chain.handler Demo.lib "" w)) = false /\
  Chain.dispatched (events (Chain.handler Demo.lib "" w)) = [] /\
  Chain.sweep Demo.lib 3 "" w = [Chain.handler Demo.lib "" w].
Proof.
  intros w. split; [reflexivity|].
  apply (@failed_invocation_ends_the_sweep Demo.lib "" w 2). reflexivity.
Defined.

(** ** What a pass writes *)

Lemma bind_events_In {A B} (m : M A) (k : A -> M B) (w : World) (ev : Event) :
  In ev (events (bind m k w)) ->
  In ev (events (m w)) \/
  exists a, res (m w) = Ok a /\ In ev (events (k a (after (m w)))).
Proof.
  unfold bind. destruct (res (m w)) as [a|e]; cbn [events].
  - intros H. apply in_app_or in H. destruct H as [H|H]; [left; exact H|].
    right. exists a. split; [reflexivity | exact H].
  - intros H. left. exact H.
Qed.

Lemma beforeTags_not_write (evs : list Event) (ev : Event) :
  forallb beforeTags evs = true -> In ev evs -> isWrite ev = false.
Proof.
  intros H Hin. rewrite forallb_forall in H. specialize (H ev Hin).
  destruct ev as [[] ?|[]]; try discriminate; reflexivity.
Qed.

(** The copy of a tag writes the descriptor it was given, an index with
    [remote.WriteIndex] and an image with [remote.Write]. *)
Lemma mirrorSingleRepo_copy_writes (src dst : string) (dstRef : Reference)
    (desc : Descriptor) (dstAuth : Basic) (w : World) (ev : Event) :
  In ev (events (Chain.mirrorSingleRepo_copy src dst dstRef desc dstAuth w)) ->
  isWrite ev = true ->
  exists f, ev = EvCall (if IsIndex (MediaType desc)
                         then CWriteIndex dstRef desc dstAuth
                         else CWrite dstRef desc dstAuth) f.
Proof.
  unfold Chain.mirrorSingleRepo_copy, Descriptor_Image, Descriptor_ImageIndex,
    remote_Write, remote_WriteIndex, bind, wrapping, log, query, call.
  destruct (IsIndex (MediaType desc)); cbn [res after events].
  - destruct (fault (dep w) (clock w) (CImageIndex desc));
      cbn [res after events dep clock ecr fst snd app].
    { intros [<-|[]]; discriminate. }
    destruct (fault (dep w) (S (clock w)) (CWriteIndex dstRef desc dstAuth));
      cbn [res after events dep clock ecr app];
      intros [<-|[<-|[<-|[]]]]; try discriminate; intros _; eexists; reflexivity.
  - destruct (fault (dep w) (clock w) (CImage desc));
      cbn [res after events dep clock ecr fst snd app].
    { intros [<-|[]]; discriminate. }
    destruct (fault (dep w) (S (clock w)) (CWrite dstRef desc dstAuth));
      cbn [res after events dep clock ecr app];
      intros [<-|[<-|[<-|[]]]]; try discriminate; intros _; eexists; reflexivity.
Qed.

Lemma mirrorSingleRepo_tag_writes (L : GoLib)
    (srcRepo ecrEndpoint dstRepoName : string) (srcAuth dstAuth : Basic)
    (tag : string) (w : World) (ev : Event) :
  In ev (events (Chain.mirrorSingleRepo_tag L srcRepo ecrEndpoint dstRepoName
                   srcAuth dstAuth tag w)) ->
  isWrite ev = true ->
  writesFromSource L (dep w) srcRepo ev.
Proof.
  rewrite mirrorSingleRepo_tag_run. cbv zeta.
  destruct (name_ParseReference L (srcRepo ++ ":" ++ tag)) as [srcRef|e] eqn:Hs;
    [|intros []].
  destruct (name_ParseReference L (ecrEndpoint ++ "/" ++ dstRepoName ++ ":" ++ tag))
    as [dstRef|e]; [|intros []].
  rewrite remote_Get_events.
  destruct (res (remote_Get srcRef srcAuth w)) as [desc|e] eqn:Hg; cbn [events].
  2:{ intros [<-|[]]; discriminate. }
  apply remote_Get_Ok in Hg.
  rewrite ecr_BatchGetImage_events.
  destruct (Chain.alreadyPresent _ _); cbn [events app].
  - intros [<-|[<-|[<-|[]]]]; discriminate.
  - intros [<-|[<-|Hin]]; try discriminate. intros Hw.
    destruct (mirrorSingleRepo_copy_writes _ _ _ _ _ _ _ Hin Hw) as [f ->].
    exists tag, srcRef, desc, dstRef, dstAuth, f. repeat split; assumption.
Qed.

Lemma forEach_tag_writes (L : GoLib)
    (srcRepo ecrEndpoint dstRepoName : string) (srcAuth dstAuth : Basic)
    (tags : list string) (w : World) (ev : Event) :
  In ev (events (forEach tags
                   (Chain.mirrorSingleRepo_tag L srcRepo ecrEndpoint dstRepoName
                      srcAuth dstAuth) w)) ->
  isWrite ev = true ->
  writesFromSource L (dep w) srcRepo ev.
Proof.
  revert w. induction tags as [|tag tags IH]; intros w; cbn [forEach].
  - intros [].
  - intros Hin Hw. apply bind_events_In in Hin. destruct Hin as [Hin|(a & _ & Hin)].
    + exact (mirrorSingleRepo_tag_writes _ _ _ _ _ _ _ _ _ Hin Hw).
    + rewrite <- (mirrorSingleRepo_tag_steady L srcRepo ecrEndpoint dstRepoName
                    srcAuth dstAuth tag w).
      exact (IH _ Hin Hw).
Qed.

Lemma mirrorSingleRepo_tags_writes (L : GoLib)
    (srcRepo ecrEndpoint dstRepoName : string) (srcAuth dstAuth : Basic)
    (w : World) (ev : Event) :
  In ev (events (Chain.mirrorSingleRepo_tags L srcRepo ecrEndpoint dstRepoName
                   srcAuth dstAuth w)) ->
  isWrite ev = true ->
  writesFromSource L (dep w) srcRepo ev.
Proof.
  assert (Hloop : forall tags w',
             In ev (events (bind (forEach tags
                                    (Chain.mirrorSingleRepo_tag L srcRepo ecrEndpoint
                                       dstRepoName srcAuth dstAuth))
                                 (fun _ => log (LogMirrored srcRepo (List.length tags)))
                                 w')) ->
             isWrite ev = true -> writesFromSource L (dep w') srcRepo ev).
  { intros tags w' Hin Hw. apply bind_events_In in Hin.
    destruct Hin as [Hin|(a & _ & [<-|[]])]; [|discriminate].
    exact (forEach_tag_writes _ _ _ _ _ _ _ _ _ Hin Hw). }
  rewrite mirrorSingleRepo_tags_run.
  destruct (EqualFold L (environ (dep w) "COPY_ALL_TAGS") "true").
  - destruct (name_NewRepository L srcRepo) as [repoRef|e]; [|intros []].
    cbv zeta. rewrite remote_List_events.
    pose proof (remote_List_dep repoRef srcAuth w) as Sl.
    destruct (res (remote_List repoRef srcAuth w)) as [[|t ts]|e]; cbn [events app].
    + intros [<-|[<-|[]]]; discriminate.
    + intros [<-|Hin]; [discriminate|]. intros Hw. rewrite <- Sl.
      exact (Hloop _ _ Hin Hw).
    + intros [<-|[]]; discriminate.
  - cbv zeta. cbn [events]. apply Hloop.
Qed.

(** X19. Whatever a pass of [mirrorSingleRepo] writes to the destination
    comes from the source repository it was given: every write is of the
    manifest that the source holds for a tag of that repository, written
    as an index (remote.WriteIndex) when its media type is that of an
    index and as an image (remote.Write) otherwise. *)
Theorem pass_writes_what_the_source_holds
    (L : GoLib) (srcRepo : string) (w : World) (ev : Event) :
  In ev (events (Chain.mirrorSingleRepo L srcRepo w)) ->
  isWrite ev = true ->
  writesFromSource L (dep w) srcRepo ev.
Proof.
  rewrite mirrorSingleRepo_run.
  destruct (EqualFold L (environ (dep w) "MIRROR_DRY_RUN") "true").
  { intros [<-|[]]; discriminate. }
  cbv zeta.
  pose proof (mirrorSingleRepo_auth_beforeTags L w) as Qa.
  pose proof (mirrorSingleRepo_auth_steady L w) as Sa.
  destruct (res (Chain.mirrorSingleRepo_auth L w)) as [[[sa da] ep]|e]; cbn [events].
  2:{ intros Hin Hw. rewrite (beforeTags_not_write _ _ Qa Hin) in Hw. discriminate. }
  remember (after (Chain.mirrorSingleRepo_auth L w)) as w1 eqn:E1.
  pose proof (mirrorSingleRepo_dest_beforeTags L srcRepo w1) as Qd.
  pose proof (mirrorSingleRepo_dest_steady L srcRepo w1) as Sd.
  destruct (res (Chain.mirrorSingleRepo_dest L srcRepo w1)) as [name|e]; cbn [events].
  2:{ intros Hin Hw. apply in_app_or in Hin. destruct Hin as [Hin|Hin];
        [rewrite (beforeTags_not_write _ _ Qa Hin) in Hw
        |rewrite (beforeTags_not_write _ _ Qd Hin) in Hw]; discriminate. }
  remember (after (Chain.mirrorSingleRepo_dest L srcRepo w1)) as w2 eqn:E2.
  pose proof (mirrorSingleRepo_ensure_beforeTags name w2) as Qe.
  pose proof (mirrorSingleRepo_ensure_steady name w2) as Se.
  assert (Hpre : forall e0 : Event,
             In e0 (events (Chain.mirrorSingleRepo_auth L w) ++
                    events (Chain.mirrorSingleRepo_dest L srcRepo w1) ++
                    events (Chain.mirrorSingleRepo_ensure name w2))%list ->
             isWrite e0 = false).
  { intros e0 Hin. apply in_app_or in Hin. destruct Hin as [Hin|Hin];
      [exact (beforeTags_not_write _ _ Qa Hin)|].
    apply in_app_or in Hin. destruct Hin as [Hin|Hin];
      [exact (beforeTags_not_write _ _ Qd Hin)
      |exact (beforeTags_not_write _ _ Qe Hin)]. }
  destruct (res (Chain.mirrorSingleRepo_ensure name w2)) as [[]|e]; cbn [events].
  2:{ intros Hin Hw. rewrite (Hpre _ Hin) in Hw. discriminate. }
  intros Hin Hw. rewrite !app_assoc in Hin. apply in_app_or in Hin.
  destruct Hin as [Hin|Hin].
  - rewrite <- !app_assoc in Hin. rewrite (Hpre _ Hin) in Hw. discriminate.
  - replace (dep w) with (dep (after (Chain.mirrorSingleRepo_ensure name w2)))
      by congruence.
    exact (mirrorSingleRepo_tags_writes _ _ _ _ _ _ _ _ Hin Hw).
Qed.

Lemma pass_writes_what_the_source_holds_witness :
  let w := Demo.world Demo.chainEnv Demo.noFault Demo.emptyEcr in
  let ev := EvCall (CWriteIndex (mkReference (mkRepository Demo.endpoint "g/app") "v2")
                      Demo.app_v2 Demo.dstAuth) None in
  In ev (events (Chain.mirrorSingleRepo Demo.lib "cgr.dev/g/app" w)) /\
  writesFromSource Demo.lib (dep w) "cgr.dev/g/app" ev.
Proof.
  intros w ev.
  assert (Hin : In ev (events (Chain.mirrorSingleRepo Demo.lib "cgr.dev/g/app" w)))
    by (vm_compute; tauto).
  split; [exact Hin|].
  apply (@pass_writes_what_the_source_holds Demo.lib "cgr.dev/g/app" w ev Hin).
  reflexivity.
Defined.

(** ** The repositories the full-sync handler visits *)

Lemma listedRepos_app (evs evs' : list Event) :
  listedRepos (evs ++ evs') = (listedRepos evs ++ listedRepos evs')%list.
Proof. unfold listedRepos. apply flat_map_app. Qed.

Lemma listedRepos_none (evs : list Event) :
  forallb notListTags evs = true -> listedRepos evs = [].
Proof.
  induction evs as [|ev evs IH]; [reflexivity|]. simpl. intros H.
  apply andb_prop in H. destruct H as [Hev H]. rewrite (IH H).
  destruct ev as [[] ?|]; try discriminate; reflexivity.
Qed.

Lemma listedRepos_bind {A B} (m : M A) (k : A -> M B) (w : World) :
  listedRepos (events (bind m k w))
  = (listedRepos (events (m w)) ++
     match res (m w) with
     | Ok a => listedRepos (events (k a (after (m w))))
     | Err _ => []
     end)%list.
Proof.
  unfold bind. destruct (res (m w)); cbn [events].
  - apply listedRepos_app.
  - symmetry. apply app_nil_r.
Qed.

Lemma isOk_bind {A B} (m : M A) (k : A -> M B) (w : World) :
  isOk (res (bind m k w))
  = match res (m w) with
    | Ok a => isOk (res (k a (after (m w))))
    | Err _ => false
    end.
Proof. unfold bind. destruct (res (m w)); reflexivity. Qed.

(** A repository is visited by listing its tags, once. *)
Lemma handler_repo_listed (L : GoLib) (srcRegistry dstPrefix dstHost : string)
    (kc : Keychain) (repoPath : string) (w : World) :
  listedRepos (events (FullSync.handler_repo L srcRegistry dstPrefix dstHost kc
                         repoPath w))
  = [srcRegistry ++ "/" ++ repoPath].
Proof.
  unfold FullSync.handler_repo. cbv zeta. rewrite listedRepos_bind.
  unfold attempt at 1 2. cbn [res after events].
  unfold FullSync.crane_ListTags at 1. unfold query. rewrite call_events.
  cbn [listedRepos flat_map app]. f_equal.
  match goal with
  | |- listedRepos (events (?k ?w')) = [] =>
      assert (H : only notListTags k); [|apply listedRepos_none, H]
  end.
  unfold FullSync.handler_tag, FullSync.handler_copy, FullSync.ecrTagDigest,
    FullSync.copyImage, FullSync.ensureECRRepo, FullSync.crane_Digest,
    FullSync.crane_Copy.
  unfold_services.
  destruct (res _) as [[|t ts]|e]; repeat only_step.
Qed.

Lemma forEach_handler_repo_listed (L : GoLib) (srcRegistry dstPrefix dstHost : string)
    (kc : Keychain) (repos : list string) (w : World) :
  listedRepos (events (forEach repos
                         (FullSync.handler_repo L srcRegistry dstPrefix dstHost kc) w))
  = map (fun r => srcRegistry ++ "/" ++ r) repos.
Proof.
  revert w. induction repos as [|r repos IH]; intros w; cbn [forEach map].
  - reflexivity.
  - rewrite listedRepos_bind, handler_repo_listed.
    pose proof (handler_repo_succeeds L srcRegistry dstPrefix dstHost kc r w) as Hs.
    destruct (res (FullSync.handler_repo L srcRegistry dstPrefix dstHost kc r w));
      [|discriminate].
    rewrite IH. reflexivity.
Qed.

Lemma crane_Catalog_Ok (registry : string) (kc : Keychain) (w : World)
    (repos : list string) :
  res (FullSync.crane_Catalog registry kc w) = Ok repos ->
  repos = src_catalog (dep w).
Proof.
  unfold FullSync.crane_Catalog, query, call.
  destruct (fault (dep w) (clock w) (CCatalog registry kc)); [discriminate|].
  cbn [res]. intros [= <-]. reflexivity.
Qed.

Ltac setup_step :=
  match goal with
  | |- isOk (res (bind ?m ?k ?w0)) = true -> _ =>
      let S := fresh "S" in
      let O := fresh "O" in
      assert (S : steady m)
        by (unfold FullSync.mustEnv, FullSync.ecrPassword, FullSync.Region;
            unfold_services;
            repeat first [steady_step | intros ?; reflexivity]);
      assert (O : only notListTags m)
        by (first [apply only_Region | hush_fullsync]);
      rewrite isOk_bind, listedRepos_bind, (listedRepos_none _ (O w0));
      rewrite <- (S w0);
      clear S O;
      destruct (res (m w0)); [|discriminate];
      generalize (after (m w0)); clear w0; intros w0;
      cbn [app]
  end.

(** X20. When the setup of the full-sync handler succeeds (it returns
    "ok"), the handler visits every repository of the group and no other,
    once each, in the order of the catalog, whatever fails for the
    repositories before: the listings of tags it makes are those of
    <registry>/<repository> for the repositories of the catalog that start
    with <GROUP_NAME>/, in that order. *)
Theorem fullsync_visits_each_repository_of_the_group (L : GoLib) (w : World) :
  let registry := if isEmpty (environ (dep w) "SRC_REGISTRY") then "cgr.dev"
                  else environ (dep w) "SRC_REGISTRY" in
  let group := environ (dep w) "GROUP_NAME" in
  isOk (res (FullSync.handler L w)) = true ->
  listedRepos (events (FullSync.handler L w))
  = map (fun r => registry ++ "/" ++ r)
        (filter (fun r => strings.HasPrefix r (group ++ "/")) (src_catalog (dep w))).
Proof.
  cbv zeta. unfold FullSync.handler.
  rewrite isOk_bind, listedRepos_bind.
  change (res (Getenv "SRC_REGISTRY" w)) with (Ok (environ (dep w) "SRC_REGISTRY")).
  change (after (Getenv "SRC_REGISTRY" w)) with w.
  change (events (Getenv "SRC_REGISTRY" w)) with (@nil Event).
  cbv zeta. cbn [listedRepos flat_map app].
  remember (if isEmpty (environ (dep w) "SRC_REGISTRY") then "cgr.dev"
            else environ (dep w) "SRC_REGISTRY") as registry eqn:Er.
  rewrite isOk_bind, listedRepos_bind, mustEnv_run.
  destruct (isEmpty (environ (dep w) "GROUP_NAME")); cbn [res after events];
    [discriminate|].
  cbn [listedRepos flat_map app].
  remember (environ (dep w) "GROUP_NAME") as group eqn:Eg.
  clear Er Eg. revert w.
  intros w. setup_step. setup_step. setup_step. setup_step. setup_step.
  match goal with
  | |- context [Account ?g] => destruct (Account g) as [accountID|]; [|discriminate]
  end.
  setup_step. setup_step.
  rewrite isOk_bind, listedRepos_bind.
  match goal with
  | |- context [res (wrapping ?p ?m w)] =>
      assert (O : only notListTags (wrapping p m)) by hush_fullsync
  end.
  rewrite (listedRepos_none _ (O w)). clear O. cbn [app].
  destruct (res (wrapping _ _ w)) as [repos|e] eqn:Rc; [|discriminate].
  apply wrapping_Ok in Rc. apply crane_Catalog_Ok in Rc. subst repos.
  intros _.
  rewrite listedRepos_bind. cbn [res after events log listedRepos flat_map app].
  rewrite listedRepos_bind, forEach_handler_repo_listed.
  destruct (res (forEach _ _ _)); cbn [events ret listedRepos flat_map];
    rewrite app_nil_r; reflexivity.
Qed.

Lemma fullsync_visits_each_repository_of_the_group_witness :
  let w := Demo.world Demo.fullsyncEnv Demo.fetchFault Demo.emptyEcr in
  isOk (res (FullSync.handler Demo.lib w)) = true /\
  transfers (events (FullSync.handler Demo.lib w))
  = [EvCall (CCopy "cgr.dev/g/app:v1" (Demo.endpoint ++ "/g/app:v1") Demo.kc)
            (Some Demo.unauthorized);
     EvCall (CCopy "cgr.dev/g/app:v2" (Demo.endpoint ++ "/g/app:v2") Demo.kc)
            (Some Demo.unauthorized);
     EvCall (CCopy "cgr.dev/g/web:latest" (Demo.endpoint ++ "/g/web:latest") Demo.kc)
            (Some Demo.unauthorized)] /\
  listedRepos (events (FullSync.handler Demo.lib w))
  = ["cgr.dev/g/app"; "cgr.dev/g/web"].
Proof.
  intros w. split; [reflexivity|]. split; [reflexivity|].
  apply (@fullsync_visits_each_repository_of_the_group Demo.lib w). reflexivity.
Defined.

(** ** The keychain of the full-sync handler *)

(** X21. [staticKeychain.Resolve] answers by host: the authenticator it
    returns for a registry is one that the map holds for that very
    registry, and it is anonymous exactly when the map has no entry for
    the registry. With the map of the handler, the ECR host resolves to
    the user AWS, and the source registry, when it is another host, to
    the pull token. *)
Theorem staticKeychain_resolves_by_host
    (s : Keychain) (registry srcRegistry dstHost : string) (cgr aws : Basic) :
  match staticKeychain_Resolve s registry with
  | Some a => In (registry, a) s
  | None => forall a, ~ In (registry, a) s
  end /\
  staticKeychain_Resolve [(srcRegistry, cgr); (dstHost, aws)] dstHost = Some aws /\
  staticKeychain_Resolve [(srcRegistry, cgr); (dstHost, aws)] srcRegistry
  = Some (if String.eqb dstHost srcRegistry then aws else cgr).
Proof.
  split; [|split].
  - induction s as [|[host a] s IH]; cbn [staticKeychain_Resolve].
    + intros a [].
    + destruct (staticKeychain_Resolve s registry) as [b|].
      * right. exact IH.
      * destruct (String.eqb_spec host registry) as [->|N].
        -- left. reflexivity.
        -- intros b [E|Hin]; [inversion E; congruence | exact (IH b Hin)].
  - cbn [staticKeychain_Resolve]. rewrite String.eqb_refl. reflexivity.
  - cbn [staticKeychain_Resolve]. rewrite String.eqb_refl.
    destruct (String.eqb dstHost srcRegistry); reflexivity.
Qed.

(** ** The full-sync step of a tag, twice *)

Lemma crane_Digest_events (L : GoLib) (ref : string) (kc : Keychain) (w : World) :
  events (FullSync.crane_Digest L ref kc w)
  = [EvCall (CDigest ref kc) (errOf (res (FullSync.crane_Digest L ref kc w)))].
Proof. apply call_events. Qed.

Lemma crane_Digest_Ok (L : GoLib) (ref : string) (kc : Keychain) (w : World)
    (d : string) :
  res (FullSync.crane_Digest L ref kc w) = Ok d ->
  exists s m,
    name_ParseReference L ref = Ok s /\ src_manifest (dep w) s = Some m /\
    d = Hash_String (Digest m).
Proof.
  unfold FullSync.crane_Digest, query, call.
  destruct (fault (dep w) (clock w) (CDigest ref kc)); [discriminate|].
  destruct (name_ParseReference L ref) as [s|e]; [|discriminate].
  destruct (src_manifest (dep w) s) as [m|] eqn:Hm; [|discriminate].
  cbn [res]. intros [= <-]. exists s, m. repeat split. exact Hm.
Qed.

Lemma crane_Digest_dep (L : GoLib) (ref : string) (kc : Keychain) (w : World) :
  dep (after (FullSync.crane_Digest L ref kc w)) = dep w.
Proof. unfold FullSync.crane_Digest, query. apply steady_call. Qed.

Lemma crane_Digest_ecr (L : GoLib) (ref : string) (kc : Keychain) (w : World) :
  ecr (after (FullSync.crane_Digest L ref kc w)) = ecr w.
Proof. unfold FullSync.crane_Digest. apply query_ecr. Qed.

Lemma ecr_DescribeImages_events (repo tag : string) (w : World) :
  events (ecr_DescribeImages repo tag w)
  = [EvCall (CDescribeImages repo tag) (errOf (res (ecr_DescribeImages repo tag w)))].
Proof. apply call_events. Qed.

Lemma ecr_DescribeImages_Ok (repo tag : string) (w : World)
    (out : DescribeImagesOutput) :
  res (ecr_DescribeImages repo tag w) = Ok out ->
  exists d,
    out = mkDescribeImagesOutput [mkImageDetail (Some d)] /\
    lookupImage (images (ecr w)) repo tag = Some d.
Proof.
  unfold ecr_DescribeImages, query, call.
  destruct (fault (dep w) (clock w) (CDescribeImages repo tag)); [discriminate|].
  destruct (hasRepository (ecr w) repo); [|discriminate].
  unfold recordedDigest.
  destruct (lookupImage (images (ecr w)) repo tag) as [d|]; [|discriminate].
  cbn [res]. intros [= <-]. exists d. split; reflexivity.
Qed.

(** [ecrTagDigest], case by case. *)
Lemma ecrTagDigest_run (repo tag : string) (w : World) :
  let d := ecr_DescribeImages repo tag w in
  FullSync.ecrTagDigest repo tag w
  = mkOut (match res d with
           | Err err =>
               if strings.Contains (Error err) RepositoryNotFoundException
               then Ok ("", false) else Err err
           | Ok out =>
               Ok match ImageDetails out with
                  | [] => ("", false)
                  | x :: _ => match DetailDigest x with
                              | None => ("", false)
                              | Some digest => (digest, true)
                              end
                  end
           end) (after d) (events d).
Proof.
  cbv zeta. unfold FullSync.ecrTagDigest, bind, attempt, ret, fail.
  cbn [res after events].
  destruct (res (ecr_DescribeImages repo tag w)) as [out|err]; cbn [res after events].
  - destruct (ImageDetails out) as [|x xs]; cbn [res after events];
      [rewrite app_nil_r; reflexivity|].
    destruct (DetailDigest x); cbn [res after events]; rewrite app_nil_r; reflexivity.
  - destruct (strings.Contains (Error err) RepositoryNotFoundException);
      cbn [res after events]; rewrite app_nil_r; reflexivity.
Qed.

(** [handler_copy]: the copy, and a line when it failed. *)
Lemma handler_copy_run (L : GoLib) (src dst : string) (kc : Keychain) (w : World) :
  let c := FullSync.copyImage L src dst kc w in
  FullSync.handler_copy L src dst kc w
  = mkOut (Ok tt) (after c)
          (EvLog (LogCopy src dst) :: events c ++
           match res c with
           | Ok _ => []
           | Err err => [EvLog (LogCopyError src dst err)]
           end)%list.
Proof.
  cbv zeta. unfold FullSync.handler_copy, bind, attempt, log, ret.
  cbn [res after events app].
  destruct (res (FullSync.copyImage L src dst kc w)); reflexivity.
Qed.

(** A copy that succeeded recorded the digest of the source under the
    repository and the tag of the destination. *)
Lemma copyImage_Ok (L : GoLib) (src dst : string) (kc : Keychain) (w : World) :
  res (FullSync.copyImage L src dst kc w) = Ok tt ->
  exists s d m,
    name_ParseReference L src = Ok s /\ name_ParseReference L dst = Ok d /\
    src_manifest (dep w) s = Some m /\
    images (ecr (after (FullSync.copyImage L src dst kc w)))
    = (RepositoryStr (RefContext d), Identifier d, Hash_String (Digest m))
      :: images (ecr w).
Proof.
  unfold FullSync.copyImage, FullSync.crane_Copy, bind, wrapping, lift, call.
  cbn [res after events].
  destruct (name_ParseReference L src) as [s|e]; cbn [res after events];
    [|discriminate].
  destruct (name_ParseReference L dst) as [d|e]; cbn [res after events];
    [|discriminate].
  destruct (fault (dep w) (clock w) (CCopy src dst kc)); cbn [res after events];
    [discriminate|].
  destruct (src_manifest (dep w) s) as [m|] eqn:Hm; cbn [res after events ecr dep];
    [|discriminate].
  intros _. exists s, d, m. repeat split. exact Hm.
Qed.

Lemma handler_tag_steady (L : GoLib) (fullSrcRepo dstHost dstRepo : string)
    (kc : Keychain) (tag : string) :
  steady (FullSync.handler_tag L fullSrcRepo dstHost dstRepo kc tag).
Proof.
  unfold FullSync.handler_tag, FullSync.handler_copy, FullSync.ecrTagDigest,
    FullSync.copyImage, FullSync.crane_Digest, FullSync.crane_Copy.
  unfold_services. repeat steady_step.
Qed.

Section FullSyncTwice.

Variable L : GoLib.
Variables fullSrcRepo dstHost dstRepo : string.
Variable kc : Keychain.
Variable tag : string.
Hypothesis Hparse : destinationNamesParse L dstHost.

Local Abbreviation src := (fullSrcRepo ++ ":" ++ tag).
Local Abbreviation dst := (dstHost ++ "/" ++ dstRepo ++ ":" ++ tag).
Local Abbreviation step := (FullSync.handler_tag L fullSrcRepo dstHost dstRepo kc tag).

(** The copy of the first step, when it did not fail, leaves the tag
    mirrored. *)
Lemma handler_copy_mirrors (w : World) :
  existsb isCopyError (events (FullSync.handler_copy L src dst kc w)) = false ->
  mirrored L (dep w) fullSrcRepo dstRepo
           (images (ecr (after (FullSync.handler_copy L src dst kc w)))) tag.
Proof.
  rewrite handler_copy_run. cbv zeta. cbn [events after existsb isCopyError orb].
  rewrite existsb_app.
  destruct (res (FullSync.copyImage L src dst kc w)) as [[]|e] eqn:Rc.
  2:{ cbn [existsb isCopyError orb]. rewrite orb_true_r. discriminate. }
  intros _. destruct (copyImage_Ok _ _ _ _ _ Rc) as (s & d & m & Hs & Hd & Hm & Himg).
  destruct (Hparse _ _ Hd) as [Hrepo Htag].
  intros srcRef Hsrc. rewrite Hs in Hsrc. injection Hsrc as <-.
  exists m. split; [exact Hm|].
  rewrite Himg, lookupImage_put, Hrepo, Htag, !String.eqb_refl. reflexivity.
Qed.

Lemma first_step_mirrors (w : World) :
  existsb isCopyError (events (step w)) = false ->
  mirrored L (dep w) fullSrcRepo dstRepo (images (ecr (after (step w)))) tag.
Proof.
  rewrite handler_tag_run. cbv zeta.
  pose proof (crane_Digest_dep L src kc w) as Dg.
  pose proof (crane_Digest_ecr L src kc w) as Eg.
  remember (after (FullSync.crane_Digest L src kc w)) as w1 eqn:E1.
  rewrite ecrTagDigest_run. cbv zeta. cbn [res after events].
  pose proof (steady_call (CDescribeImages dstRepo tag)
                (fun w0 => (if hasRepository (ecr w0) dstRepo
                            then match recordedDigest (ecr w0) dstRepo tag with
                                 | Some d => Ok (mkDescribeImagesOutput
                                                   [mkImageDetail (Some d)])
                                 | None => Err (apiError ImageNotFoundException tag)
                                 end
                            else Err (apiError RepositoryNotFoundException dstRepo),
                            ecr w0)) w1) as Dl.
  change (call (CDescribeImages dstRepo tag) _) with (ecr_DescribeImages dstRepo tag)
    in Dl.
  pose proof (ecrTagDigest_ecr dstRepo tag w1) as El.
  rewrite ecrTagDigest_run in El. cbv zeta in El. cbn [after] in El.
  remember (after (ecr_DescribeImages dstRepo tag w1)) as w2 eqn:E2.
  assert (Hcopy : existsb isCopyError (events (FullSync.handler_copy L src dst kc w2))
                  = false ->
                  mirrored L (dep w) fullSrcRepo dstRepo
                    (images (ecr (after (FullSync.handler_copy L src dst kc w2)))) tag).
  { intros H. replace (dep w) with (dep w2) by congruence.
    apply handler_copy_mirrors, H. }
  destruct (res (ecr_DescribeImages dstRepo tag w1)) as [out|err] eqn:Rl.
  - destruct (ecr_DescribeImages_Ok _ _ _ Rl) as (dd & -> & Hlook).
    cbn [ImageDetails DetailDigest andb].
    destruct (res (FullSync.crane_Digest L src kc w)) as [d|e] eqn:Rg.
    + destruct (negb (isEmpty d) && String.eqb dd d) eqn:Hskip; cbn [events after].
      * intros _. apply andb_prop in Hskip. destruct Hskip as [_ Heq].
        apply String.eqb_eq in Heq. subst dd.
        destruct (crane_Digest_Ok _ _ _ _ Rg) as (s & m & Hs & Hm & ->).
        intros srcRef Hsrc. rewrite Hs in Hsrc. injection Hsrc as <-.
        exists m. split; [exact Hm|]. rewrite El. exact Hlook.
      * rewrite !existsb_app. intros H.
        apply orb_false_iff in H as [_ H]. apply orb_false_iff in H as [_ H].
        apply orb_false_iff in H as [_ H]. apply Hcopy, H.
    + cbn [isEmpty String.eqb negb andb events after].
      rewrite !existsb_app. intros H.
      apply orb_false_iff in H as [_ H]. apply orb_false_iff in H as [_ H].
      apply orb_false_iff in H as [_ H]. apply Hcopy, H.
  - destruct (strings.Contains (Error err) RepositoryNotFoundException);
      cbn [andb events after]; rewrite !existsb_app; intros H;
      apply orb_false_iff in H as [_ H]; apply orb_false_iff in H as [_ H];
      apply orb_false_iff in H as [_ H].
    + apply Hcopy, H.
    + cbn [existsb isCopyError orb] in H. apply Hcopy, H.
Qed.

(** The step of a mirrored tag, when no call fails, skips the tag. *)
Lemma second_step_skips (w : World) :
  mirrored L (dep w) fullSrcRepo dstRepo (images (ecr w)) tag ->
  existsb isFailedCall (events (step w)) = false ->
  exists digest,
    step w
    = mkOut (Ok tt) (after (step w))
            [EvCall (CDigest src kc) None;
             EvCall (CDescribeImages dstRepo tag) None;
             EvLog (LogSkipSameDigest src dst digest)] /\
    ecr (after (step w)) = ecr w.
Proof.
  intros Hmir. rewrite handler_tag_run. cbv zeta.
  pose proof (crane_Digest_ecr L src kc w) as Eg.
  rewrite crane_Digest_events.
  destruct (res (FullSync.crane_Digest L src kc w)) as [d|e] eqn:Rg.
  2:{ rewrite ecrTagDigest_run. cbv zeta. cbn [res after events].
      destruct (res (ecr_DescribeImages dstRepo tag _)) as [out|err];
        [destruct (ImageDetails out) as [|x xs]; [|destruct (DetailDigest x)]
        |destruct (strings.Contains (Error err) RepositoryNotFoundException)];
        cbn [andb negb isEmpty String.eqb events errOf app existsb isFailedCall orb];
        discriminate. }
  pose proof (crane_Digest_notEmpty _ _ _ _ Rg) as Hne.
  destruct (crane_Digest_Ok _ _ _ _ Rg) as (s & m & Hs & Hm & ->).
  destruct (Hmir s Hs) as (m' & Hm' & Hlook).
  rewrite Hm in Hm'. injection Hm' as <-.
  remember (after (FullSync.crane_Digest L src kc w)) as w1 eqn:E1.
  pose proof (ecrTagDigest_ecr dstRepo tag w1) as El.
  rewrite ecrTagDigest_run in El |- *. cbv zeta in El |- *.
  cbn [res after events] in El |- *.
  rewrite ecr_DescribeImages_events.
  destruct (res (ecr_DescribeImages dstRepo tag w1)) as [out|err] eqn:Rl.
  2:{ destruct (strings.Contains (Error err) RepositoryNotFoundException);
        cbn [events errOf app existsb isFailedCall orb]; discriminate. }
  destruct (ecr_DescribeImages_Ok _ _ _ Rl) as (dd & -> & Hlook1).
  rewrite Eg, Hlook in Hlook1. injection Hlook1 as <-.
  cbn [ImageDetails DetailDigest andb errOf].
  rewrite Hne, String.eqb_refl. cbn [negb andb res after events app].
  intros _. exists (Hash_String (Digest m)). split; [reflexivity|].
  rewrite El. exact Eg.
Qed.

End FullSyncTwice.



(** ** What a pass leaves at the destination *)



(** ** The tags of a pass, in order *)

Lemma lookedUp_app (evs evs' : list Event) :
  lookedUp (evs ++ evs') = (lookedUp evs ++ lookedUp evs')%list.
Proof. unfold lookedUp. apply flat_map_app. Qed.

Lemma lookedUp_none (evs : list Event) :
  forallb notLookup evs = true -> lookedUp evs = [].
Proof.
  induction evs as [|ev evs IH]; [reflexivity|]. simpl. intros H.
  apply andb_prop in H. destruct H as [Hev H]. rewrite (IH H).
  destruct ev as [[] ?|]; try discriminate; reflexivity.
Qed.

Lemma beforeTags_notLookup (evs : list Event) :
  forallb beforeTags evs = true -> lookedUp evs = [].
Proof.
  intros H. apply lookedUp_none. rewrite forallb_forall in *.
  intros ev Hin. specialize (H ev Hin).
  destruct ev as [[] ?|]; try discriminate; reflexivity.
Qed.

Lemma mirrorSingleRepo_copy_notLookup (src dst : string) (dstRef : Reference)
    (desc : Descriptor) (dstAuth : Basic) :
  only notLookup (Chain.mirrorSingleRepo_copy src dst dstRef desc dstAuth).
Proof. hush. Qed.

(** A step that succeeds looked up its tag, once. *)
Lemma mirrorSingleRepo_tag_lookedUp (L : GoLib)
    (srcRepo ecrEndpoint dstRepoName : string) (srcAuth dstAuth : Basic)
    (tag : string) (w : World) :
  res (Chain.mirrorSingleRepo_tag L srcRepo ecrEndpoint dstRepoName
         srcAuth dstAuth tag w) = Ok tt ->
  lookedUp (events (Chain.mirrorSingleRepo_tag L srcRepo ecrEndpoint dstRepoName
                      srcAuth dstAuth tag w)) = [tag].
Proof.
  rewrite mirrorSingleRepo_tag_run. cbv zeta.
  destruct (name_ParseReference L (srcRepo ++ ":" ++ tag)) as [srcRef|e];
    [|discriminate].
  destruct (name_ParseReference L (ecrEndpoint ++ "/" ++ dstRepoName ++ ":" ++ tag))
    as [dstRef|e]; [|discriminate].
  rewrite remote_Get_events.
  destruct (res (remote_Get srcRef srcAuth w)) as [desc|e]; [|discriminate].
  rewrite ecr_BatchGetImage_events.
  destruct (Chain.alreadyPresent _ _); cbn [res events app lookedUp flat_map];
    [reflexivity|].
  intros _. fold (lookedUp (events (Chain.mirrorSingleRepo_copy
                                      (srcRepo ++ ":" ++ tag)
                                      (ecrEndpoint ++ "/" ++ dstRepoName ++ ":" ++ tag)
                                      dstRef desc dstAuth
                                      (after (ecr_BatchGetImage dstRepoName tag
                                                (after (remote_Get srcRef srcAuth w))))))).
  rewrite (lookedUp_none _ (mirrorSingleRepo_copy_notLookup _ _ _ _ _ _)).
  reflexivity.
Qed.

Lemma forEach_tag_lookedUp (L : GoLib)
    (srcRepo ecrEndpoint dstRepoName : string) (srcAuth dstAuth : Basic)
    (tags : list string) (w : World) :
  res (forEach tags (Chain.mirrorSingleRepo_tag L srcRepo ecrEndpoint dstRepoName
                       srcAuth dstAuth) w) = Ok tt ->
  lookedUp (events (forEach tags
                      (Chain.mirrorSingleRepo_tag L srcRepo ecrEndpoint dstRepoName
                         srcAuth dstAuth) w)) = tags.
Proof.
  revert w. induction tags as [|tag tags IH]; intros w; cbn [forEach].
  - reflexivity.
  - unfold bind.
    destruct (res (Chain.mirrorSingleRepo_tag L srcRepo ecrEndpoint dstRepoName
                     srcAuth dstAuth tag w)) as [[]|e] eqn:Rs; [|discriminate].
    cbn [res events]. intros Hrest.
    rewrite lookedUp_app, (mirrorSingleRepo_tag_lookedUp _ _ _ _ _ _ _ _ Rs),
      (IH _ Hrest).
    reflexivity.
Qed.

(** X24. A pass of [mirrorSingleRepo] that returns without error has
    considered every tag, once, in order: the lookups of a digest it made
    at the destination are for the tags the source lists for the
    repository, in the order of that list, when COPY_ALL_TAGS is "true",
    and one lookup for the tag latest otherwise. *)
Theorem successful_pass_looks_up_each_tag_in_order
    (L : GoLib) (srcRepo : string) (w : World) :
  let considered :=
    if EqualFold L (environ (dep w) "COPY_ALL_TAGS") "true" then
      match name_NewRepository L srcRepo with
      | Ok repoRef => src_tags (dep w) repoRef
      | Err _ => []
      end
    else ["latest"] in
  EqualFold L (environ (dep w) "MIRROR_DRY_RUN") "true" = false ->
  res (Chain.mirrorSingleRepo L srcRepo w) = Ok tt ->
  lookedUp (events (Chain.mirrorSingleRepo L srcRepo w)) = considered.
Proof.
  cbv zeta. intros Hdry. rewrite mirrorSingleRepo_run, Hdry. cbv zeta.
  pose proof (beforeTags_notLookup _ (mirrorSingleRepo_auth_beforeTags L w)) as Qa.
  pose proof (mirrorSingleRepo_auth_steady L w) as Sa.
  destruct (res (Chain.mirrorSingleRepo_auth L w)) as [[[sa da] ep]|e];
    [|discriminate].
  remember (after (Chain.mirrorSingleRepo_auth L w)) as w1 eqn:E1.
  pose proof (beforeTags_notLookup _ (mirrorSingleRepo_dest_beforeTags L srcRepo w1))
    as Qd.
  pose proof (mirrorSingleRepo_dest_steady L srcRepo w1) as Sd.
  destruct (res (Chain.mirrorSingleRepo_dest L srcRepo w1)) as [name|e];
    [|discriminate].
  remember (after (Chain.mirrorSingleRepo_dest L srcRepo w1)) as w2 eqn:E2.
  pose proof (beforeTags_notLookup _ (mirrorSingleRepo_ensure_beforeTags name w2))
    as Qe.
  pose proof (mirrorSingleRepo_ensure_steady name w2) as Se.
  destruct (res (Chain.mirrorSingleRepo_ensure name w2)) as [[]|e];
    [|discriminate].
  remember (after (Chain.mirrorSingleRepo_ensure name w2)) as w3 eqn:E3.
  assert (Hdep : dep w3 = dep w) by congruence.
  cbn [res events]. rewrite !lookedUp_app, Qa, Qd, Qe. cbn [app].
  rewrite <- Hdep. clear.
  assert (Hloop : forall tags w',
             res (bind (forEach tags
                          (Chain.mirrorSingleRepo_tag L srcRepo ep name sa da))
                       (fun _ => log (LogMirrored srcRepo (List.length tags))) w')
             = Ok tt ->
             lookedUp (events
                         (bind (forEach tags
                                  (Chain.mirrorSingleRepo_tag L srcRepo ep name sa da))
                               (fun _ => log (LogMirrored srcRepo (List.length tags)))
                               w')) = tags).
  { intros tags w'. unfold bind.
    destruct (res (forEach tags _ w')) as [[]|e] eqn:Rf; [|discriminate].
    cbn [res events log]. intros _.
    rewrite lookedUp_app, (forEach_tag_lookedUp _ _ _ _ _ _ _ _ Rf).
    apply app_nil_r. }
  rewrite mirrorSingleRepo_tags_run.
  destruct (EqualFold L (environ (dep w3) "COPY_ALL_TAGS") "true").
  - destruct (name_NewRepository L srcRepo) as [repoRef|e]; [|discriminate].
    cbv zeta. rewrite remote_List_events.
    destruct (res (remote_List repoRef sa w3)) as [tags|e] eqn:Rl;
      [|discriminate].
    apply remote_List_Ok in Rl. rewrite <- Rl.
    destruct tags as [|t ts]; [reflexivity|].
    cbn [res events errOf app lookedUp flat_map]. apply Hloop.
  - cbv zeta. cbn [res events]. apply Hloop.
Qed.

Lemma successful_pass_looks_up_each_tag_in_order_witness :
  let w := Demo.world Demo.chainEnv Demo.noFault Demo.emptyEcr in
  lookedUp (events (Chain.mirrorSingleRepo Demo.lib "cgr.dev/g/app" w)) = ["v1"; "v2"].
Proof.
  intros w.
  apply (@successful_pass_looks_up_each_tag_in_order Demo.lib "cgr.dev/g/app" w);
    reflexivity.
Defined.

(** ** A pass without the credentials of the source *)

(** X25. Without the credentials of the source (CGR_USERNAME or
    CGR_PASSWORD not set, or empty) a pass of [mirrorSingleRepo] that is
    not a dry run fails at once, before any call, the world untouched;
    and an invocation of the chained handler then reaches neither
    registry, whatever its payload. *)
Theorem missing_source_credentials_stop_the_pass
    (L : GoLib) (raw srcRepo : string) (w : World) :
  EqualFold L (environ (dep w) "MIRROR_DRY_RUN") "true" = false ->
  isEmpty (environ (dep w) "CGR_USERNAME")
  || isEmpty (environ (dep w) "CGR_PASSWORD") = true ->
  Chain.mirrorSingleRepo L srcRepo w
  = mkOut (Err (errors_New "CGR_USERNAME/CGR_PASSWORD not set")) w [] /\
  forallb offRegistry (events (Chain.handler L raw w)) = true.
Proof.
  intros Hdry Hcred.
  assert (Hm : forall r w', dep w' = dep w ->
             Chain.mirrorSingleRepo L r w'
             = mkOut (Err (errors_New "CGR_USERNAME/CGR_PASSWORD not set")) w' []).
  { intros r w' Hdep. rewrite mirrorSingleRepo_run, Hdep, Hdry. cbv zeta.
    assert (Ha : Chain.mirrorSingleRepo_auth L w'
                 = mkOut (Err (errors_New "CGR_USERNAME/CGR_PASSWORD not set")) w' []).
    { unfold Chain.mirrorSingleRepo_auth, bind, Getenv, fail.
      cbn [res after events app]. rewrite Hdep, Hcred. reflexivity. }
    rewrite Ha. reflexivity. }
  split; [apply Hm; reflexivity|].
  apply handler_lifts; [intros ev H; exact H|].
  intros r w' Hdep. rewrite (Hm r w' Hdep). reflexivity.
Qed.

Lemma missing_source_credentials_stop_the_pass_witness :
  let w := Demo.world Demo.noTokenEnv Demo.noFault Demo.emptyEcr in
  isOk (res (Chain.handler Demo.lib "" w)) = false /\
  Chain.mirrorSingleRepo Demo.lib "cgr.dev/g/app" w
  = mkOut (Err (errors_New "CGR_USERNAME/CGR_PASSWORD not set")) w [] /\
  forallb offRegistry (events (Chain.handler Demo.lib "" w)) = true.
Proof.
  intros w. split; [reflexivity|].
  apply (@missing_source_credentials_stop_the_pass Demo.lib "" "cgr.dev/g/app" w);
    reflexivity.
Defined.

(** ** The destination repositories of the full-sync handler *)

Lemma crane_ListTags_Ok (L : GoLib) (repo : string) (kc : Keychain) (w : World)
    (tags : list string) :
  res (FullSync.crane_ListTags L repo kc w) = Ok tags ->
  exists r, name_NewRepository L repo = Ok r /\ tags = src_tags (dep w) r.
Proof.
  unfold FullSync.crane_ListTags, query, call.
  destruct (fault (dep w) (clock w) (CListTags repo kc)); [discriminate|].
  destruct (name_NewRepository L repo) as [r|e]; [|discriminate].
  cbn [res]. intros [= <-]. exists r. split; reflexivity.
Qed.

Lemma crane_ListTags_events (L : GoLib) (repo : string) (kc : Keychain) (w : World) :
  events (FullSync.crane_ListTags L repo kc w)
  = [EvCall (CListTags repo kc) (errOf (res (FullSync.crane_ListTags L repo kc w)))].
Proof. apply call_events. Qed.

Lemma handler_tag_no_ensure (L : GoLib) (fullSrcRepo dstHost dstRepo : string)
    (kc : Keychain) (tag : string) :
  only (fun ev => negb (isDescribe ev || isCreate ev))
       (FullSync.handler_tag L fullSrcRepo dstHost dstRepo kc tag).
Proof.
  unfold FullSync.handler_tag, FullSync.handler_copy, FullSync.ecrTagDigest,
    FullSync.copyImage, FullSync.crane_Digest, FullSync.crane_Copy.
  unfold_services. repeat only_step.
Qed.

(** X26. The full-sync handler ensures a destination repository only for
    a source repository that has tags: every existence check and every
    creation call made for a repository of the catalog follows a listing
    that returned at least one tag, and names the repository itself, or
    path.Join(<prefix>, <repository>) when DST_PREFIX gives a prefix. A
    repository whose listing fails or is empty costs no call to the
    destination. *)
Theorem fullsync_ensures_only_repositories_with_tags
    (L : GoLib) (srcRegistry dstPrefix dstHost : string) (kc : Keychain)
    (repoPath : string) (w : World) (ev : Event) :
  let dstRepo := if negb (isEmpty dstPrefix)
                 then path_Join L dstPrefix repoPath else repoPath in
  In ev (events (FullSync.handler_repo L srcRegistry dstPrefix dstHost kc
                   repoPath w)) ->
  isDescribe ev || isCreate ev = true ->
  (exists r tag tags,
      name_NewRepository L (srcRegistry ++ "/" ++ repoPath) = Ok r /\
      src_tags (dep w) r = tag :: tags) /\
  exists f, ev = EvCall (CDescribeRepositories dstRepo) f \/
            ev = EvCall (CCreateRepository dstRepo true) f.
Proof.
  cbv zeta. intros Hin Hev. unfold FullSync.handler_repo in Hin. cbv zeta in Hin.
  apply bind_events_In in Hin. destruct Hin as [Hin|(t & Rt & Hin)].
  { unfold attempt in Hin. cbn [events] in Hin.
    rewrite crane_ListTags_events in Hin. destruct Hin as [<-|[]]. discriminate. }
  unfold attempt in Rt, Hin. cbn [res after] in Rt, Hin. injection Rt as <-.
  match type of Hin with
  | context [match res ?x with _ => _ end] =>
      destruct (res x) as [[|tag tags]|e] eqn:Rl
  end.
  - destruct Hin.
  - destruct (crane_ListTags_Ok _ _ _ _ Rl) as (r & Hr & Htags).
    split; [exists r, tag, tags; split; [exact Hr | symmetry; exact Htags]|].
    apply bind_events_In in Hin. destruct Hin as [Hin|(a & _ & Hin)].
    + cbn [events] in Hin.
      rewrite ensureECRRepo_run in Hin. cbv zeta in Hin.
      destruct (res (ecr_DescribeRepositories _ _)); cbn [events] in Hin.
      * destruct Hin as [<-|[]]. eexists. left. reflexivity.
      * destruct Hin as [<-|[<-|[]]]; eexists; [left | right]; reflexivity.
    + exfalso. destruct a as [u|err].
      * assert (H : only (fun ev => negb (isDescribe ev || isCreate ev))
                         (forEach (tag :: tags)
                            (FullSync.handler_tag L (srcRegistry ++ "/" ++ repoPath)
                               dstHost
                               (if negb (isEmpty dstPrefix)
                                then path_Join L dstPrefix repoPath else repoPath)
                               kc))).
        { apply only_forEach. intros t. apply handler_tag_no_ensure. }
        match type of Hin with
        | In _ (events (_ ?w')) => specialize (H w')
        end.
        rewrite forallb_forall in H. specialize (H ev Hin).
        rewrite Hev in H. discriminate.
      * destruct Hin as [<-|[]]. discriminate.
  - destruct Hin as [<-|[]]. discriminate.
Qed.

Lemma fullsync_ensures_only_repositories_with_tags_witness :
  let w := Demo.world Demo.fullsyncEnv Demo.noFault Demo.emptyEcr in
  filter (fun ev => isDescribe ev || isCreate ev)
         (events (FullSync.handler_repo Demo.lib "cgr.dev" "" Demo.endpoint Demo.kc
                    "h/other" w)) = [] /\
  exists r tag tags,
    name_NewRepository Demo.lib ("cgr.dev" ++ "/" ++ "g/app") = Ok r /\
    src_tags (dep w) r = tag :: tags.
Proof.
  intros w. split; [reflexivity|].
  apply (@fullsync_ensures_only_repositories_with_tags Demo.lib "cgr.dev" ""
           Demo.endpoint Demo.kc "g/app" w
           (EvCall (CCreateRepository "g/app" true) None)).
  - vm_compute. tauto.
  - reflexivity.
Defined.

(** ** Where the full-sync handler copies to *)

Lemma forallb_bind {A B} (P : Event -> bool) (m : M A) (k : A -> M B) (w : World) :
  forallb P (events (bind m k w))
  = forallb P (events (m w)) &&
    match res (m w) with
    | Ok a => forallb P (events (k a (after (m w))))
    | Err _ => true
    end.
Proof.
  unfold bind. destruct (res (m w)); cbn [events].
  - apply forallb_app.
  - symmetry. apply andb_true_r.
Qed.

Lemma sts_GetCallerIdentity_Ok (w : World) (who : GetCallerIdentityOutput) :
  res (sts_GetCallerIdentity w) = Ok who -> who = sts_identity (dep w).
Proof.
  unfold sts_GetCallerIdentity, query, call.
  destruct (fault (dep w) (clock w) CGetCallerIdentity); [discriminate|].
  cbn [res]. intros [= <-]. reflexivity.
Qed.

Lemma HasPrefix_host (host rest : string) :
  strings.HasPrefix (host ++ "/" ++ rest) (host ++ "/") = true.
Proof.
  unfold strings.HasPrefix. rewrite prefix_app_same.
  change ("/" ++ rest) with (String "/" rest).
  cbn [String.prefix]. destruct (ascii_dec "/" "/") as [_|N]; [|congruence].
  destruct rest; reflexivity.
Qed.

Lemma handler_repo_copiesUnder (L : GoLib) (srcRegistry dstPrefix dstHost : string)
    (kc : Keychain) (repoPath : string) :
  only (copiesUnder (dstHost ++ "/"))
       (FullSync.handler_repo L srcRegistry dstPrefix dstHost kc repoPath).
Proof.
  unfold FullSync.handler_repo, FullSync.handler_tag, FullSync.handler_copy,
    FullSync.ecrTagDigest, FullSync.copyImage, FullSync.ensureECRRepo,
    FullSync.crane_ListTags, FullSync.crane_Digest, FullSync.crane_Copy.
  unfold_services.
  repeat first
    [ only_step
    | apply only_call; intros; cbn [copiesUnder]; apply HasPrefix_host ].
Qed.

Ltac copies_step :=
  match goal with
  | |- forallb ?P (events (bind ?m ?k ?w0)) = true =>
      let S := fresh "S" in
      let O := fresh "O" in
      assert (S : steady m)
        by (unfold FullSync.mustEnv, FullSync.ecrPassword, FullSync.Region;
            unfold_services;
            repeat first [steady_step | intros ?; reflexivity]);
      assert (O : only P m)
        by (first [apply only_Region | apply only_Getenv | hush_fullsync]);
      rewrite forallb_bind, (O w0); cbn [andb];
      clear O
  end.

(** X27. The full-sync handler copies to the ECR registry of the account
    it runs in and nowhere else: every copy it makes is to a name under
    <account>.dkr.ecr.<region>.amazonaws.com/, the account being the one
    STS reports for the caller and the region that of the configuration. *)
Theorem fullsync_copies_only_to_its_own_registry
    (L : GoLib) (w : World) (account : string) :
  Account (sts_identity (dep w)) = Some account ->
  forallb (copiesUnder (FullSync.ecrHost account (aws_region (dep w)) ++ "/"))
          (events (FullSync.handler L w)) = true.
Proof.
  intros Hacc. unfold FullSync.handler.
  copies_step. cbv zeta.
  destruct (res (Getenv "SRC_REGISTRY" w)) as [r|e]; [|reflexivity].
  rewrite <- (S w) in Hacc |- *. clear S.
  generalize dependent (after (Getenv "SRC_REGISTRY" w)). intros w1 Hacc.
  copies_step. destruct (res (FullSync.mustEnv "GROUP_NAME" w1)) as [group|e];
    [|reflexivity].
  rewrite <- (S w1) in Hacc |- *. clear S.
  generalize dependent (after (FullSync.mustEnv "GROUP_NAME" w1)). intros w2 Hacc.
  copies_step. destruct (res (FullSync.mustEnv "CGR_USERNAME" w2)) as [user|e];
    [|reflexivity].
  rewrite <- (S w2) in Hacc |- *. clear S.
  generalize dependent (after (FullSync.mustEnv "CGR_USERNAME" w2)). intros w3 Hacc.
  copies_step. destruct (res (FullSync.mustEnv "CGR_PASSWORD" w3)) as [pass|e];
    [|reflexivity].
  rewrite <- (S w3) in Hacc |- *. clear S.
  generalize dependent (after (FullSync.mustEnv "CGR_PASSWORD" w3)). intros w4 Hacc.
  copies_step. destruct (res (Getenv "DST_PREFIX" w4)) as [p|e]; [|reflexivity].
  rewrite <- (S w4) in Hacc |- *. clear S.
  generalize dependent (after (Getenv "DST_PREFIX" w4)). intros w5 Hacc.
  copies_step.
  destruct (res (wrapping "aws cfg" config_LoadDefaultConfig w5)) as [u|e];
    [|reflexivity].
  rewrite <- (S w5) in Hacc |- *. clear S.
  generalize dependent (after (wrapping "aws cfg" config_LoadDefaultConfig w5)).
  intros w6 Hacc.
  copies_step.
  destruct (res (wrapping "sts" sts_GetCallerIdentity w6)) as [who|e] eqn:Rw;
    [|reflexivity].
  apply wrapping_Ok in Rw. apply sts_GetCallerIdentity_Ok in Rw. subst who.
  rewrite <- (S w6) in Hacc |- *. clear S.
  rewrite Hacc. cbv beta iota.
  generalize dependent (after (wrapping "sts" sts_GetCallerIdentity w6)).
  intros w7 Hacc.
  copies_step.
  change (res (FullSync.Region w7)) with (Ok (aws_region (dep w7))).
  change (after (FullSync.Region w7)) with w7. clear S.
  cbv beta iota zeta.
  remember (FullSync.ecrHost account (aws_region (dep w7))) as host eqn:Eh.
  clear Eh Hacc.
  match goal with
  | |- forallb ?P (events (?m w7)) = true => assert (H : only P m); [|apply H]
  end.
  apply only_bind; [hush_fullsync | intros ecrPass].
  apply only_bind; [hush_fullsync | intros repos].
  apply only_bind; [apply only_log; reflexivity | intros _].
  apply only_bind; [|intros _; apply only_ret].
  apply only_forEach. intros x. apply handler_repo_copiesUnder.
Qed.

Lemma fullsync_copies_only_to_its_own_registry_witness :
  let w := Demo.world Demo.fullsyncEnv Demo.noFault Demo.emptyEcr in
  List.length (transfers (events (FullSync.handler Demo.lib w))) = 3 /\
  forallb (copiesUnder "123456789012.dkr.ecr.us-east-2.amazonaws.com/")
          (events (FullSync.handler Demo.lib w)) = true.
Proof.
  intros w. split; [reflexivity|].
  apply (@fullsync_copies_only_to_its_own_registry Demo.lib w "123456789012").
  reflexivity.
Defined.
